(** * The copy-on-write trie of [src/primer/trie.cpp] and its store

    The trie nodes live in a heap of reference-counted objects
    ([std::shared_ptr]).  The embedding keeps that heap explicit: a node is
    identified by its address, [std::make_shared] allocates a fresh address,
    and the assignments through [node->children_] that [Trie::Put] and
    [Trie::Remove] perform are updates of the heap at that address.  Whether
    an older trie can see such an update is then a theorem about addresses,
    not an accident of the encoding.  A member function is a program, a tree
    of heap commands: run to its end it is the sequential function, run one
    command at a time it is a thread of [TrieStore].  Deallocation (the
    reference counts dropping to zero) is not modelled: no function of
    [trie.cpp] observes it. *)

From Stdlib Require Import Ascii String.
From stdpp Require Import gmap strings list fin_maps.

Open Scope list_scope.

(** ** Machine model *)

(** A [std::shared_ptr] that is not null is an address. *)
Abbreviation addr := positive (only parsing).

(** What can go wrong.  [NullDereference] is [p->f] with [p == nullptr];
    [EmptyStack] is [back()] on an empty [std::vector].  [Dangling] is a
    pointer to no object at all: [shared_ptr] rules it out in C++, and the
    heap invariant [closed] below rules it out in the model. *)
Inductive fault := NullDereference | EmptyStack | Dangling (a : addr).

Inductive result (A : Type) : Type :=
| Ok (x : A)
| Fault (f : fault).
Arguments Ok {A} x.
Arguments Fault {A} f.

(** A key is a [std::string_view]: a finite sequence of [char]. *)
Abbreviation key := (list ascii) (only parsing).

Section Trie.

(** [Trie::Get<T>] and [Trie::Put<T>] are templates over the value type [T].
    [TypeId] is the set of those types, [Val] the disjoint union of their
    values, and [type_of v] the type a value was stored at.  Storing is by
    [std::move] into a [std::shared_ptr<T>]; the model identifies the stored
    object with the argument. *)
Context {TypeId : Type} `{EqDecision TypeId} {Val : Type} (type_of : Val → TypeId).

(** Modelled from the spec: the classes [TrieNode] and [TrieNodeWithValue<T>]
    and the class [Trie] are declared in [primer/trie.h], which is not among
    the sources.  Following the data model of the specification, a node has a
    map from edge label to child, a discriminant telling whether it carries a
    value and, if it does, a value together with its type.  [PlainNode] is an
    object of dynamic type [TrieNode] ([is_value_node_] false),
    [NodeWithValue] one of dynamic type [TrieNodeWithValue<type_of value_>]
    ([is_value_node_] true). *)
Inductive TrieNode : Type :=
| PlainNode (children : gmap ascii addr)
| NodeWithValue (children : gmap ascii addr) (value_ : Val).

Definition children_ (n : TrieNode) : gmap ascii addr :=
  match n with
  | PlainNode c => c
  | NodeWithValue c _ => c
  end.

Definition is_value_node_ (n : TrieNode) : bool :=
  match n with
  | PlainNode _ => false
  | NodeWithValue _ _ => true
  end.

(** [node->children_ = c], keeping the dynamic type and the value. *)
Definition with_children (n : TrieNode) (c : gmap ascii addr) : TrieNode :=
  match n with
  | PlainNode _ => PlainNode c
  | NodeWithValue _ v => NodeWithValue c v
  end.

(** [std::dynamic_pointer_cast<const TrieNodeWithValue<T>>(node)] followed
    by [->value_.get()]: the value when the dynamic type is
    [TrieNodeWithValue<T>], null otherwise. *)
Definition dynamic_pointer_cast (T : TypeId) (n : TrieNode) : option Val :=
  match n with
  | PlainNode _ => None
  | NodeWithValue _ v => if decide (type_of v = T) then Some v else None
  end.

(** The handle: [root_], possibly null. *)
Record Trie : Type := mkTrie { root_ : option addr }.

(** [Trie()], the empty trie. *)
Definition empty_trie : Trie := mkTrie None.

Abbreviation Heap := (gmap addr TrieNode) (only parsing).

(** ** Programs over the heap *)

(** The code of a member function, as far as the heap can tell: it reads
    the object behind a pointer, allocates an object, updates an object in
    place, returns or faults.  Everything else is Rocq. *)
Inductive prog (A : Type) : Type :=
| Done (x : A)
| Deref (p : option addr) (k : TrieNode → prog A)
| Alloc (n : TrieNode) (k : addr → prog A)
| Update (a : addr) (f : TrieNode → TrieNode) (k : prog A)
| Raise (e : fault).
Arguments Done {A} x.
Arguments Deref {A} p k.
Arguments Alloc {A} n k.
Arguments Update {A} a f k.
Arguments Raise {A} e.

Fixpoint bind {A B} (m : prog A) (f : A → prog B) : prog B :=
  match m with
  | Done x => f x
  | Deref p k => Deref p (λ n, bind (k n) f)
  | Alloc n k => Alloc n (λ a, bind (k a) f)
  | Update a g k => Update a g (bind k f)
  | Raise e => Raise e
  end.

Notation "x <~ m ;; k" := (bind m (λ x, k))
  (at level 100, m at next level, right associativity).
Notation "m ;;; k" := (bind m (λ _, k))
  (at level 100, right associativity).

(** [*p] for a possibly null [p]. *)
Definition read (h : Heap) (p : option addr) : result TrieNode :=
  match p with
  | None => Fault NullDereference
  | Some a =>
      match h !! a with
      | Some n => Ok n
      | None => Fault (Dangling a)
      end
  end.

(** One command: the rest of the program and the heap it leaves, a fault,
    or nothing to do. *)
Definition advance {A} (m : prog A) (h : Heap) : option (result (prog A * Heap)) :=
  match m with
  | Done _ => None
  | Deref p k =>
      Some match read h p with
           | Ok n => Ok (k n, h)
           | Fault e => Fault e
           end
  | Alloc n k =>
      (* [std::make_shared]: a new object at an address nothing else uses *)
      let a := fresh (dom h) in Some (Ok (k a, <[a := n]> h))
  | Update a f k =>
      Some match h !! a with
           | Some n => Ok (k, <[a := f n]> h)
           | None => Fault (Dangling a)
           end
  | Raise e => Some (Fault e)
  end.

(** The program run to its end. *)
Fixpoint run {A} (m : prog A) (h : Heap) : result (A * Heap) :=
  match m with
  | Done x => Ok (x, h)
  | Deref p k =>
      match read h p with
      | Ok n => run (k n) h
      | Fault e => Fault e
      end
  | Alloc n k => let a := fresh (dom h) in run (k a) (<[a := n]> h)
  | Update a f k =>
      match h !! a with
      | Some n => run k (<[a := f n]> h)
      | None => Fault (Dangling a)
      end
  | Raise e => Fault e
  end.

(** What a program returns, for one that only reads. *)
Definition eval {A} (m : prog A) (h : Heap) : result A :=
  match run m h with
  | Ok (x, _) => Ok x
  | Fault e => Fault e
  end.

Definition ret {A} (x : A) : prog A := Done x.

Definition deref (p : option addr) : prog TrieNode := Deref p Done.

Definition make_shared (n : TrieNode) : prog addr := Alloc n Done.

(** [p->Clone()], also declared in [trie.h]: a new object with the same
    dynamic type, children map and value (the map is copied, the children
    and the value are shared). *)
Definition Clone (a : addr) : prog addr :=
  n <~ deref (Some a) ;; make_shared n.

(** [node->children_[ch] = c]. *)
Definition set_child (node : addr) (ch : ascii) (c : addr) : prog unit :=
  Update node (λ n, with_children n (<[ch := c]> (children_ n))) (Done tt).

(** [node->children_.erase(ch)]. *)
Definition erase_child (node : addr) (ch : ascii) : prog unit :=
  Update node (λ n, with_children n (delete ch (children_ n))) (Done tt).

(** ** [Trie::Get] (trie.cpp, lines 25-51) *)

(** The loop of lines 29-35 from [node]: the node the key leads to, or
    [None] for the [return nullptr] of line 32. *)
Fixpoint Get_walk (node : addr) (k : key) : prog (option addr) :=
  match k with
  | [] => ret (Some node)
  | ch :: k' =>
      n <~ deref (Some node) ;;
      match children_ n !! ch with
      | None => ret None
      | Some c => Get_walk c k'
      end
  end.

Definition Get (t : Trie) (T : TypeId) (k : key) : prog (option Val) :=
  match root_ t with
  | None => ret None                                      (* line 28 *)
  | Some r =>
      found <~ Get_walk r k ;;
      match found with
      | None => ret None                                  (* line 32 *)
      | Some node =>
          n <~ deref (Some node) ;;
          if negb (is_value_node_ n) then ret None        (* line 37 *)
          else ret (dynamic_pointer_cast T n)             (* lines 41-45 *)
      end
  end.

(** ** [Trie::Put] (trie.cpp, lines 57-100) *)

(** Lines 73-92 with [node] the node under construction, [ch = key[i]] and
    [rest] the characters after it.  While characters remain after [ch]
    (the loop, [i < key.size() - 1]) the child under [ch] is cloned, or
    created when there is none, stored in [node] and descended into; at the
    last character the value node is made, with the children of the node it
    replaces if there is one. *)
Fixpoint Put_loop (node : addr) (ch : ascii) (rest : key) (value : Val) : prog unit :=
  match rest with
  | ch' :: rest' =>
      n <~ deref (Some node) ;;
      c <~ match children_ n !! ch with
           | None => make_shared (PlainNode ∅)          (* line 79 *)
           | Some old => Clone old                      (* line 81 *)
           end ;;
      set_child node ch c ;;;
      Put_loop c ch' rest' value                        (* line 82: node = node->children_[ch] *)
  | [] =>
      n <~ deref (Some node) ;;
      value_node <~ match children_ n !! ch with
                    | None => make_shared (NodeWithValue ∅ value)             (* line 89 *)
                    | Some old =>
                        o <~ deref (Some old) ;;
                        make_shared (NodeWithValue (children_ o) value)       (* line 91 *)
                    end ;;
      set_child node ch value_node                      (* line 92 *)
  end.

Definition Put (t : Trie) (k : key) (value : Val) : prog Trie :=
  match root_ t, k with
  | Some r, [] =>                                       (* line 62 *)
      o <~ deref (Some r) ;;
      a <~ make_shared (NodeWithValue (children_ o) value) ;;
      ret (mkTrie (Some a))
  | Some r, ch :: rest =>                               (* line 64 *)
      node <~ Clone r ;;
      Put_loop node ch rest value ;;;
      ret (mkTrie (Some node))
  | None, [] =>                                         (* line 68 *)
      a <~ make_shared (NodeWithValue ∅ value) ;;
      ret (mkTrie (Some a))
  | None, ch :: rest =>                                 (* line 70 *)
      node <~ make_shared (PlainNode ∅) ;;
      Put_loop node ch rest value ;;;
      ret (mkTrie (Some node))
  end.

(** ** [Trie::Remove] (trie.cpp, lines 106-144) *)

(** The loop of lines 109-117.  [node] starts as [root_] and is dereferenced
    without a null check.  [None] is the [return *this] of line 112; the
    stack is a list whose head is [nodeStk.back()]. *)
Fixpoint Remove_walk (node : option addr) (k : key) (nodeStk : list addr)
  : prog (option (list addr * option addr)) :=
  match k with
  | [] => ret (Some (nodeStk, node))
  | ch :: k' =>
      n <~ deref node ;;
      match node, children_ n !! ch with
      | Some a, Some c => Remove_walk (Some c) k' (a :: nodeStk)    (* lines 114-115 *)
      | Some _, None => ret None                                    (* line 112 *)
      | None, _ => Raise NullDereference     (* not reached: [deref] has faulted *)
      end
  end.

(** One round of the loop of lines 126-139. *)
Definition Remove_step (ch : ascii) (top : addr) (node : option addr) : prog (option addr) :=
  parentNode <~ Clone top ;;                            (* line 128 *)
  match node with
  | Some c =>
      set_child parentNode ch c ;;;                     (* line 131 *)
      ret (Some parentNode)
  | None =>
      p <~ deref (Some parentNode) ;;
      if bool_decide (size (children_ p) ≤ 1) && negb (is_value_node_ p)
      then ret None                                     (* line 134 *)
      else erase_child parentNode ch ;;; ret (Some parentNode)   (* line 136 *)
  end.

(** The loop of lines 126-139 over the reversed key [rk]. *)
Fixpoint Remove_fold (rk : list ascii) (nodeStk : list addr) (node : option addr)
  : prog (option addr) :=
  match rk with
  | [] => ret node
  | ch :: rk' =>
      match nodeStk with
      | [] => Raise EmptyStack
      | top :: nodeStk' =>
          node' <~ Remove_step ch top node ;;
          Remove_fold rk' nodeStk' node'
      end
  end.

Definition Remove (t : Trie) (k : key) : prog Trie :=
  walk <~ Remove_walk (root_ t) k [] ;;
  match walk with
  | None => ret t                                       (* line 112 *)
  | Some (nodeStk, node) =>
      n <~ deref node ;;
      if negb (is_value_node_ n) then ret t             (* line 119 *)
      else
        node' <~ (if bool_decide (children_ n = ∅) then ret None               (* line 122 *)
                  else a <~ make_shared (PlainNode (children_ n)) ;; ret (Some a)) ;;  (* line 124 *)
        r <~ Remove_fold (rev k) nodeStk node' ;;
        ret (mkTrie r)                                  (* line 140 *)
  end.

(** ** The heap invariant and what a trie denotes *)

(** No pointer dangles: every child of every object is an object. *)
Definition closed (h : Heap) : Prop :=
  map_Forall (λ _ n, map_Forall (λ _ c, is_Some (h !! c)) (children_ n)) h.

(** A possibly null pointer is null or points to an object. *)
Definition valid (h : Heap) (p : option addr) : Prop :=
  match p with
  | None => True
  | Some a => is_Some (h !! a)
  end.

(** A trie handle in a heap: the heap is closed and the root, if any, is
    an object of it. *)
Definition wf (h : Heap) (t : Trie) : Prop := closed h ∧ valid h (root_ t).

(** The object reached from [a] along [k], if every edge exists. *)
Fixpoint node_at (h : Heap) (a : addr) (k : key) : option addr :=
  match k with
  | [] => Some a
  | ch :: k' =>
      n ← h !! a ;
      c ← children_ n !! ch ;
      node_at h c k'
  end.

(** The same below a possibly null pointer. *)
Definition node_below (h : Heap) (p : option addr) (k : key) : option addr :=
  a ← p ; node_at h a k.

(** The value of type [T] stored under [k] below the possibly null [p]. *)
Definition value_at (h : Heap) (p : option addr) (T : TypeId) (k : key) : option Val :=
  a ← p ; b ← node_at h a k ; n ← h !! b ; dynamic_pointer_cast T n.

(** The same below an object [n] given by its contents. *)
Definition value_under (h : Heap) (n : TrieNode) (T : TypeId) (k : key) : option Val :=
  match k with
  | [] => dynamic_pointer_cast T n
  | ch :: k' => c ← children_ n !! ch ; value_at h (Some c) T k'
  end.

(** A node that is worth keeping: it has a value or a child. *)
Definition alive (n : TrieNode) : Prop :=
  is_value_node_ n = true ∨ children_ n ≠ ∅.

(** Invariant I4 below a node: every object reachable from [a] is alive. *)
Definition no_dead_from (h : Heap) (a : addr) : Prop :=
  ∀ k b n, node_at h a k = Some b → h !! b = Some n → alive n.

Definition no_dead_below (h : Heap) (p : option addr) : Prop :=
  match p with
  | None => True
  | Some a => no_dead_from h a
  end.

Definition no_dead (h : Heap) (t : Trie) : Prop := no_dead_below h (root_ t).

(** The tries a program can hold: [Trie]'s only public constructor makes the
    empty trie, so every other trie comes out of [Put] or [Remove].  Tries
    made earlier stay in use while later calls extend the heap (the two
    last rules). *)
Inductive built : Heap → Trie → Prop :=
| built_empty : built ∅ empty_trie
| built_Put h t k v t' h' :
    built h t → run (Put t k v) h = Ok (t', h') → built h' t'
| built_Remove h t k t' h' :
    built h t → run (Remove t k) h = Ok (t', h') → built h' t'
| built_later_Put h t u k v u' h' :
    built h t → built h u → run (Put u k v) h = Ok (u', h') → built h' t
| built_later_Remove h t u k u' h' :
    built h t → built h u → run (Remove u k) h = Ok (u', h') → built h' t.

(** [k] is a key of the trie: the walk ends on a value node. *)
Definition has_key (h : Heap) (t : Trie) (k : key) : Prop :=
  ∃ r b n, root_ t = Some r ∧ node_at h r k = Some b ∧ h !! b = Some n
           ∧ is_value_node_ n = true.

(** The two ways a key can be missing: an edge of its walk does not exist,
    or the walk ends on a node without a value; and the empty trie, which
    has no key at all. *)
Definition absent (h : Heap) (t : Trie) (k : key) : Prop :=
  root_ t = None
  ∨ (∃ r p ch s b n, root_ t = Some r ∧ k = p ++ ch :: s ∧ node_at h r p = Some b
                     ∧ h !! b = Some n ∧ children_ n !! ch = None)
  ∨ (∃ r b n, root_ t = Some r ∧ node_at h r k = Some b ∧ h !! b = Some n
              ∧ is_value_node_ n = false).

(** The children map of the root object, empty for the empty trie. *)
Definition root_children (h : Heap) (t : Trie) : gmap ascii addr :=
  match root_ t with
  | None => ∅
  | Some r => match h !! r with
              | Some o => children_ o
              | None => ∅
              end
  end.

(** The path [Remove_walk] records: [chain h r stk rk b] when the walk from
    [r] along the reverse of [rk] ends in [b] and [stk] holds the nodes it
    left behind, the latest first. *)
Inductive chain (h : Heap) (r : addr) : list addr → list ascii → addr → Prop :=
| chain_nil : chain h r [] [] r
| chain_cons stk rk a n ch b :
    chain h r stk rk a → h !! a = Some n → children_ n !! ch = Some b →
    chain h r (a :: stk) (ch :: rk) b.

(** ** Reasoning about programs *)

(** [wp I m Q h]: run from [h], the program [m] does not fault, every heap
    it produces on the way satisfies [I], and it ends with a result and a
    heap that satisfy [Q]. *)
Fixpoint wp {A} (I : Heap → Prop) (m : prog A) (Q : A → Heap → Prop) (h : Heap) : Prop :=
  match m with
  | Done x => Q x h
  | Deref p k => ∃ n, read h p = Ok n ∧ wp I (k n) Q h
  | Alloc n k =>
      let h' := <[fresh (dom h) := n]> h in I h' ∧ wp I (k (fresh (dom h))) Q h'
  | Update a f k =>
      ∃ n, h !! a = Some n ∧ I (<[a := f n]> h) ∧ wp I k Q (<[a := f n]> h)
  | Raise _ => False
  end.

(** The same for a program that may fault: as long as it runs, its heaps
    satisfy [I], and if it ends, [Q] holds. *)
Fixpoint wlp {A} (I : Heap → Prop) (m : prog A) (Q : A → Heap → Prop) (h : Heap) : Prop :=
  match m with
  | Done x => Q x h
  | Deref p k => ∀ n, read h p = Ok n → wlp I (k n) Q h
  | Alloc n k =>
      let h' := <[fresh (dom h) := n]> h in I h' ∧ wlp I (k (fresh (dom h))) Q h'
  | Update a f k =>
      ∀ n, h !! a = Some n → I (<[a := f n]> h) ∧ wlp I k Q (<[a := f n]> h)
  | Raise _ => True
  end.

(** The heaps a call may pass through when it starts in [h0]: they keep
    every object of [h0] as it is, and no pointer dangles. *)
Definition grows (h0 h : Heap) : Prop := h0 ⊆ h ∧ closed h.

End Trie.

Arguments Done {Val A} x.
Arguments Deref {Val A} p k.
Arguments Alloc {Val A} n k.
Arguments Update {Val A} a f k.
Arguments Raise {Val A} e.

(** ** [TrieStore] (trie_store.cpp) *)

(** The program points of the three member functions, named by the line
    that runs next.  [Put] (lines 51-67) and [Remove] (lines 74-90) are the
    same code around the call of line 59, respectively 82, and share the
    points [W51] to [W67].  At [G34call] and [W59call] the thread is inside
    the call that line makes. *)
Inductive pc : Set :=
| G27 | G29 | G31 | G34 | G34call
| W51 | W53 | W55 | W57 | W59 | W59call | W61 | W63 | W65 | W67
| Returned.

Section TrieStore.

Context {TypeId : Type} `{EqDecision TypeId} {Val : Type} (type_of : Val → TypeId).

(** A call of a member function by some thread. *)
Inductive call : Type :=
| CallGet (T : TypeId) (k : list ascii)
| CallPut (k : list ascii) (v : Val)
| CallRemove (k : list ascii).

Definition entry (c : call) : pc :=
  match c with
  | CallGet _ _ => G27
  | CallPut _ _ | CallRemove _ => W51
  end.

(** A thread inside a member function: where it is, its local variable
    [root], what is left to run of the call of [Trie::Get], respectively of
    [Trie::Put] or [Trie::Remove], it is in, and what [Get] returned
    ([pValue] of line 34, null or a value).  [since] is not program state:
    it counts the versions of the store's root that had already been
    replaced when the call began. *)
Record thread : Type := mkThread {
  op : call;
  at_ : pc;
  root : Trie;
  lookup : @prog Val (option Val);
  update : @prog Val Trie;
  pValue : option (option Val);
  since : nat;
}.

(** Modelled from the spec: the members of [TrieStore] are declared in
    [primer/trie_store.h], which is not among the sources; the specification
    names them: the current trie, the lock that guards it and the lock that
    admits one writer.
    The store: the heap of trie nodes, the members [root_], [root_lock_]
    and [write_lock_] (a mutex is free or held by a thread), and the
    threads.  [versions] is not program state either: it lists every value
    [root_] has had, the oldest first, each with the heap at the moment it
    became the value of [root_]. *)
Record store : Type := mkStore {
  heap : gmap positive (@TrieNode Val);
  store_root_ : Trie;
  root_lock_ : option nat;
  write_lock_ : option nat;
  threads : list thread;
  versions : list (Trie * gmap positive (@TrieNode Val));
}.

(** [TrieStore()]: an empty trie, no lock held, no thread. *)
Definition new_store : store :=
  mkStore ∅ empty_trie None None [] [(empty_trie, ∅)].

(** A thread enters a member function. *)
Definition spawn (c : call) (s : store) : store :=
  mkStore (heap s) (store_root_ s) (root_lock_ s) (write_lock_ s)
          (threads s ++ [mkThread c (entry c) empty_trie (Done None) (Done empty_trie)
                                  None (length (versions s) - 1)])
          (versions s).

Definition goto (p : pc) (th : thread) : thread :=
  mkThread (op th) p (root th) (lookup th) (update th) (pValue th) (since th).

Definition set_root (t : Trie) (th : thread) : thread :=
  mkThread (op th) (at_ th) t (lookup th) (update th) (pValue th) (since th).

Definition set_lookup (m : @prog Val (option Val)) (th : thread) : thread :=
  mkThread (op th) (at_ th) (root th) m (update th) (pValue th) (since th).

Definition set_update (m : @prog Val Trie) (th : thread) : thread :=
  mkThread (op th) (at_ th) (root th) (lookup th) m (pValue th) (since th).

Definition set_pValue (r : option Val) (th : thread) : thread :=
  mkThread (op th) (at_ th) (root th) (lookup th) (update th) (Some r) (since th).

(** [std::unique_lock<std::mutex> l(m)] and [l.lock()]: possible only
    while the mutex is free. *)
Definition acquire (m : option nat) (i : nat) : option (option nat) :=
  match m with
  | None => Some (Some i)
  | Some _ => None
  end.

(** One step of thread [i]: one statement of [trie_store.cpp] or, inside a
    call of [Trie::Get], [Trie::Put] or [Trie::Remove], one access to the
    heap.  [None] when the thread cannot move: it waits for a mutex, it
    has returned, or its next access faults. *)
Definition step (i : nat) (s : store) : option store :=
  th ← threads s !! i ;
  let state h r rl wl th' vs := mkStore h r rl wl (<[i := th']> (threads s)) vs in
  let same th' :=
    Some (state (heap s) (store_root_ s) (root_lock_ s) (write_lock_ s) th' (versions s)) in
  let lock_root next :=                      (* lock root_lock_ *)
    l ← acquire (root_lock_ s) i ;
    Some (state (heap s) (store_root_ s) l (write_lock_ s) (goto next th) (versions s)) in
  let copy_root next :=                      (* Trie root = this->root_ *)
    same (goto next (set_root (store_root_ s) th)) in
  let unlock_root next :=                    (* unlock root_lock_ *)
    Some (state (heap s) (store_root_ s) None (write_lock_ s) (goto next th) (versions s)) in
  match at_ th with
  | G27 => lock_root G29
  | G29 => copy_root G31
  | G31 => unlock_root G34
  | G34 =>                                   (* the call root.Get<T>(key) begins *)
      match op th with
      | CallGet T k => same (goto G34call (set_lookup (Get type_of (root th) T k) th))
      | _ => None
      end
  | G34call =>
      match lookup th with
      | Done r => same (goto Returned (set_pValue r th))     (* lines 37-40 *)
      | m =>
          match advance m (heap s) with
          | Some (Ok (m', h')) =>
              Some (state h' (store_root_ s) (root_lock_ s) (write_lock_ s)
                          (set_lookup m' th) (versions s))
          | _ => None
          end
      end
  | W51 =>                                   (* lock write_lock_ *)
      l ← acquire (write_lock_ s) i ;
      Some (state (heap s) (store_root_ s) (root_lock_ s) l (goto W53 th) (versions s))
  | W53 => lock_root W55
  | W55 => copy_root W57
  | W57 => unlock_root W59
  | W59 =>                                   (* the call root.Put(...) or root.Remove(key) begins *)
      match op th with
      | CallPut k v => same (goto W59call (set_update (Put (root th) k v) th))
      | CallRemove k => same (goto W59call (set_update (Remove (root th) k) th))
      | CallGet _ _ => None
      end
  | W59call =>
      match update th with
      | Done t' => same (goto W61 (set_root t' th))          (* root = the result *)
      | m =>
          match advance m (heap s) with
          | Some (Ok (m', h')) =>
              Some (state h' (store_root_ s) (root_lock_ s) (write_lock_ s)
                          (set_update m' th) (versions s))
          | _ => None
          end
      end
  | W61 => lock_root W63
  | W63 =>                                   (* this->root_ = root *)
      Some (state (heap s) (root th) (root_lock_ s) (write_lock_ s) (goto W65 th)
                  (versions s ++ [(root th, heap s)]))
  | W65 => unlock_root W67
  | W67 =>                                   (* unlock write_lock_, and return *)
      Some (state (heap s) (store_root_ s) (root_lock_ s) None (goto Returned th)
                  (versions s))
  | Returned => None
  end.

(** Between the lock and the unlock of [write_lock_], of [root_lock_]. *)
Definition holds_write_lock (p : pc) : bool :=
  match p with
  | W53 | W55 | W57 | W59 | W59call | W61 | W63 | W65 | W67 => true
  | _ => false
  end.

Definition holds_root_lock (p : pc) : bool :=
  match p with
  | G29 | G31 | W55 | W57 | W63 | W65 => true
  | _ => false
  end.

(** After [Get] has copied [root_] into its local [root]. *)
Definition has_snapshot (p : pc) : bool :=
  match p with
  | G31 | G34 | G34call => true
  | _ => false
  end.

(** The points of a [Get], of a [Put] or [Remove]. *)
Definition in_code (c : call) (p : pc) : bool :=
  match c, p with
  | CallGet _ _, (G27 | G29 | G31 | G34 | G34call | Returned) => true
  | CallGet _ _, _ => false
  | _, (G27 | G29 | G31 | G34 | G34call) => false
  | _, _ => true
  end.

(** A schedule: threads enter when they like, and the thread the scheduler
    picks takes a step if it can.  The states of the store in any run are
    the states some schedule leads to. *)
Inductive event : Type :=
| Enter (c : call)
| Run (i : nat).

Fixpoint run_store (es : list event) (s : store) : store :=
  match es with
  | [] => s
  | Enter c :: es' => run_store es' (spawn c s)
  | Run i :: es' =>
      match step i s with
      | Some s' => run_store es' s'
      | None => run_store es' s
      end
  end.

Definition in_some_run (s : store) : Prop := ∃ es, run_store es new_store = s.

(** A program that only reads. *)
Fixpoint reads_only {A} (m : @prog Val A) : Prop :=
  match m with
  | Done _ | Raise _ => True
  | Deref _ k => ∀ n, reads_only (k n)
  | Alloc _ _ | Update _ _ _ => False
  end.

(** What holds of a thread in every state of every run. *)
Definition thread_ok (h : gmap positive (@TrieNode Val))
    (vs : list (Trie * gmap positive (@TrieNode Val)))
    (wl rl : option nat) (i : nat) (th : thread) : Prop :=
  in_code (op th) (at_ th) = true
  ∧ (holds_write_lock (at_ th) = true ↔ wl = Some i)
  ∧ (holds_root_lock (at_ th) = true ↔ rl = Some i)
  ∧ since th < length vs
  ∧ (has_snapshot (at_ th) = true ∨ at_ th = W57 ∨ at_ th = W59 ∨ at_ th = W59call →
     ∃ n hp, since th ≤ n ∧ vs !! n = Some (root th, hp))
  ∧ (at_ th = G34call →
     ∃ T k n hp r,
       op th = CallGet T k ∧ since th ≤ n ∧ vs !! n = Some (root th, hp)
       ∧ eval (Get type_of (root th) T k) hp = Ok r
       ∧ reads_only (lookup th)
       ∧ ∀ h', hp ⊆ h' → eval (lookup th) h' = Ok r)
  ∧ (at_ th = W59call →
     ∃ hs, (∀ n t hp, vs !! n = Some (t, hp) → hp ⊆ hs)
           ∧ wlp (grows hs) (update th) (λ t' h', wf h' t') h)
  ∧ (at_ th = W61 ∨ at_ th = W63 → wf h (root th))
  ∧ (∀ r, pValue th = Some r →
          ∃ T k n hp, at_ th = Returned ∧ op th = CallGet T k ∧ since th ≤ n
                      ∧ vs !! n = Some (root th, hp)
                      ∧ eval (Get type_of (root th) T k) hp = Ok r).

Definition store_inv (s : store) : Prop :=
  closed (heap s)
  ∧ (∀ n t hp, versions s !! n = Some (t, hp) → wf hp t ∧ hp ⊆ heap s)
  ∧ (∃ hp, last (versions s) = Some (store_root_ s, hp))
  ∧ (∀ i, write_lock_ s = Some i → i < length (threads s))
  ∧ (∀ i, root_lock_ s = Some i → i < length (threads s))
  ∧ (∀ i th, threads s !! i = Some th →
             thread_ok (heap s) (versions s) (write_lock_ s) (root_lock_ s) i th).

End TrieStore.

(** ** The history of the store *)

Section StoreHistory.

Context {TypeId : Type} `{EqDecision TypeId} {Val : Type} (type_of : Val → TypeId).

(** [t'] in the heap [hp'] is what one [Put] or [Remove] makes of [t] in
    the heap [hp], perhaps after other calls have allocated. *)
Definition one_write (t : Trie) (hp : gmap positive (@TrieNode Val))
    (t' : Trie) (hp' : gmap positive (@TrieNode Val)) : Prop :=
  ∃ h0, hp ⊆ h0 ∧ closed h0
        ∧ ((∃ k v, run (Put t k v) h0 = Ok (t', hp'))
           ∨ (∃ k, run (Remove t k) h0 = Ok (t', hp'))).

(** Each version comes from the one before it by one write. *)
Definition linear (vs : list (Trie * gmap positive (@TrieNode Val))) : Prop :=
  ∀ n t hp t' hp',
    vs !! n = Some (t, hp) → vs !! S n = Some (t', hp') → one_write t hp t' hp'.

(** What holds of a writer between its copy of [root_] and its assignment
    to [root_]: its copy is still the value of [root_]; inside the call of
    line 59 (82), what is left of the call ends as the whole call on
    [root_] does from the heap [h0] it began in; after the call its local
    [root] is the result. *)
Definition writer_ok (h : gmap positive (@TrieNode Val)) (rt : Trie)
    (vs : list (Trie * gmap positive (@TrieNode Val)))
    (th : @thread TypeId Val) : Prop :=
  (at_ th = W57 ∨ at_ th = W59 → root th = rt)
  ∧ (at_ th = W59call →
     ∃ hp h0, last vs = Some (rt, hp) ∧ hp ⊆ h0 ∧ closed h0
              ∧ ((∃ k v, op th = CallPut k v
                         ∧ run (update th) h = run (Put rt k v) h0)
                 ∨ (∃ k, op th = CallRemove k
                         ∧ run (update th) h = run (Remove rt k) h0)))
  ∧ (at_ th = W61 ∨ at_ th = W63 →
     ∃ hp, last vs = Some (rt, hp) ∧ one_write rt hp (root th) h).

Definition history_ok (s : @store TypeId Val) : Prop :=
  linear (versions s)
  ∧ ∀ i th, threads s !! i = Some th →
            writer_ok (heap s) (store_root_ s) (versions s) th.

End StoreHistory.

(** ** A universe of values for the examples

    Three of the types [trie.cpp] instantiates the templates at (lines
    153-160). *)
Inductive cpp_type : Set := uint32_t | uint64_t | std_string.

Inductive cpp_value : Set :=
| U32 (n : N)
| U64 (n : N)
| Str (s : string).

Definition cpp_type_of (v : cpp_value) : cpp_type :=
  match v with
  | U32 _ => uint32_t
  | U64 _ => uint64_t
  | Str _ => std_string
  end.

#[global] Instance cpp_type_eq_dec : EqDecision cpp_type.
Proof. solve_decision. Defined.

#[global] Instance valid_dec {Val} (h : gmap positive (@TrieNode Val)) p :
  Decision (valid h p).
Proof. destruct p; apply _. Defined.

#[global] Instance closed_dec {Val} (h : gmap positive (@TrieNode Val)) :
  Decision (closed h).
Proof. unfold closed. apply _. Defined.

#[global] Instance wf_dec {Val} (h : gmap positive (@TrieNode Val)) t :
  Decision (wf h t).
Proof. unfold wf. apply _. Defined.

(** A trie together with the heap it lives in, and the effect of an
    operation on both (nothing, should the operation fault). *)
Definition after (s : Trie * gmap positive (@TrieNode cpp_value))
    (f : Trie → @prog cpp_value Trie) : Trie * gmap positive (@TrieNode cpp_value) :=
  match run (f s.1) s.2 with
  | Ok s' => s'
  | Fault _ => s
  end.

Definition K : string → list ascii := list_ascii_of_string.

(** The scenario of the specification: an empty store, then
    [Put("cat",1)], [Put("car",2)], [Put("cart",3)] and [Remove("car")]. *)
Definition scene0 : Trie * gmap positive (@TrieNode cpp_value) := (empty_trie, ∅).
Definition scene1 := after scene0 (λ t, Put t (K "cat") (U32 1)).
Definition scene2 := after scene1 (λ t, Put t (K "car") (U32 2)).
Definition scene3 := after scene2 (λ t, Put t (K "cart") (U32 3)).
Definition scene4 := after scene3 (λ t, Remove t (K "car")).

(** A single chain: [Put("ab",7)] on the empty trie. *)
Definition chain1 := after scene0 (λ t, Put t (K "ab") (U64 7)).

(** [n] steps of thread [i] in a row. *)
Definition steps (n i : nat) : list (@event cpp_type cpp_value) := replicate n (Run i).

(** A run of the store.  Thread 0 puts "ab" into the new store and
    returns.  Thread 1 starts to put "ac" and thread 2 to get "ac": the
    reader copies [root_] while the writer is inside [Trie::Put], and its
    lookup alternates with the writer's allocations and updates. *)
Definition schedule_mid : list (@event cpp_type cpp_value) :=
  [Enter (CallPut (K "ab") (U32 5))] ++ steps 17 0
  ++ [Enter (CallPut (K "ac") (U32 6)); Enter (CallGet uint32_t (K "ac"))]
  ++ steps 7 1 ++ steps 4 2 ++ steps 2 1 ++ steps 1 2 ++ steps 3 1.

(** Then the reader returns, the writer publishes and returns, and thread
    3 gets "ac". *)
Definition schedule : list (@event cpp_type cpp_value) :=
  schedule_mid ++ steps 2 2 ++ steps 7 1
  ++ [Enter (CallGet uint32_t (K "ac"))] ++ steps 8 3.

Abbreviation scene_mid := (run_store cpp_type_of schedule_mid new_store).

Abbreviation scene_store := (run_store cpp_type_of schedule new_store).

(** A reader that has taken [root_lock_] and not yet released it. *)
Definition schedule_locked : list (@event cpp_type cpp_value) :=
  [Enter (CallGet uint32_t (K "a")); Run 0].

Abbreviation scene_locked := (run_store cpp_type_of schedule_locked new_store).

(** After [schedule], thread 4 puts another value under "ac" and
    returns. *)
Definition schedule_later : list (@event cpp_type cpp_value) :=
  schedule ++ [Enter (CallPut (K "ac") (U32 9))] ++ steps 20 4.

Abbreviation scene_later := (run_store cpp_type_of schedule_later new_store).

(** Thread 3 of [schedule_later] at its end: the reader that returned the
    value 6 for "ac" before thread 4 overwrote it. *)
Definition reader3 : @thread cpp_type cpp_value :=
  mkThread (CallGet uint32_t (K "ac")) Returned (mkTrie (Some 4%positive))
           (Done (Some (U32 6))) (Done empty_trie) (Some (Some (U32 6))) 2.

(** * Proofs about the trie *)

Section TrieProofs.
Context {TypeId : Type} `{EqDecision TypeId} {Val : Type} (type_of : Val → TypeId).
Implicit Types (h : gmap positive (@TrieNode Val)) (n : @TrieNode Val).
Implicit Types (a b c r node : positive) (k : list ascii) (ch : ascii).

Lemma closed_lookup h a n ch c :
  closed h → h !! a = Some n → children_ n !! ch = Some c → is_Some (h !! c).
Proof. intros Hc Ha Hch. exact (Hc a n Ha ch c Hch). Qed.

Lemma closed_empty : closed (∅ : gmap positive (@TrieNode Val)).
Proof. apply map_Forall_empty. Qed.

Lemma children_with_children n m : children_ (with_children n m) = m.
Proof. by destruct n. Qed.

Lemma is_value_with_children n m :
  is_value_node_ (with_children n m) = is_value_node_ n.
Proof. by destruct n. Qed.

Lemma cast_with_children T n m :
  dynamic_pointer_cast type_of T (with_children n m) = dynamic_pointer_cast type_of T n.
Proof. by destruct n. Qed.

Lemma fresh_lookup h : h !! fresh (dom h) = None.
Proof. apply not_elem_of_dom, is_fresh. Qed.

(** Adding or replacing an object whose children are objects keeps the
    heap closed. *)
Lemma closed_insert h a n :
  closed h →
  (∀ ch c, children_ n !! ch = Some c → is_Some (<[a := n]> h !! c)) →
  closed (<[a := n]> h).
Proof.
  intros Hc Hn b m Hb ch c Hch.
  destruct (decide (a = b)) as [->|Hne].
  - rewrite lookup_insert_eq in Hb. injection Hb as <-. by eapply Hn.
  - rewrite lookup_insert_ne in Hb by done.
    destruct (closed_lookup _ _ _ _ _ Hc Hb Hch) as [x Hx].
    destruct (decide (a = c)) as [->|Hne'].
    + rewrite lookup_insert_eq. eauto.
    + rewrite lookup_insert_ne by done. eauto.
Qed.

Lemma node_at_valid h a k b :
  closed h → is_Some (h !! a) → node_at h a k = Some b → is_Some (h !! b).
Proof.
  intros Hc. revert a. induction k as [|ch k IH]; intros a Ha Hn; simpl in Hn.
  - by injection Hn as <-.
  - destruct (h !! a) as [n|] eqn:Hha; simpl in Hn; [|done].
    destruct (children_ n !! ch) as [c|] eqn:Hch; simpl in Hn; [|done].
    eapply IH; [|done]. by eapply closed_lookup.
Qed.

(** Objects of a closed heap are not affected by what is allocated later. *)
Lemma node_at_mono h0 h a k :
  closed h0 → h0 ⊆ h → is_Some (h0 !! a) → node_at h a k = node_at h0 a k.
Proof.
  intros Hc Hsub. revert a. induction k as [|ch k IH]; intros a [n Hn]; [done|].
  simpl. rewrite Hn, (lookup_weaken _ _ _ _ Hn Hsub). simpl.
  destruct (children_ n !! ch) as [c|] eqn:Hch; simpl; [|done].
  apply IH. by eapply closed_lookup.
Qed.

Lemma value_at_mono h0 h p T k :
  closed h0 → h0 ⊆ h → valid h0 p →
  value_at type_of h p T k = value_at type_of h0 p T k.
Proof.
  intros Hc Hsub Hp. destruct p as [a|]; [|done]. simpl in *.
  rewrite (node_at_mono h0 h) by done.
  destruct (node_at h0 a k) as [b|] eqn:Hb; simpl; [|done].
  destruct (node_at_valid _ _ _ _ Hc Hp Hb) as [n Hn].
  by rewrite Hn, (lookup_weaken _ _ _ _ Hn Hsub).
Qed.

(** *** Running programs *)

Lemma run_bind {A B} (m : prog A) (f : A → prog B) h :
  run (bind m f) h
  = match run m h with
    | Ok (x, h') => run (f x) h'
    | Fault e => Fault e
    end.
Proof.
  revert h. induction m as [x|p k IH|n k IH|a g k IH|e]; intros h; simpl; try done.
  - by destruct (read h p).
  - by destruct (h !! a).
Qed.

Lemma wp_mono {A} (I : gmap positive (@TrieNode Val) → Prop) (m : prog A)
    (Q Q' : A → gmap positive (@TrieNode Val) → Prop) h :
  (∀ x h', Q x h' → Q' x h') → wp I m Q h → wp I m Q' h.
Proof.
  intros HQ. revert h. induction m as [x|p k IH|n k IH|a g k IH|e]; intros h; simpl.
  - apply HQ.
  - intros (n & Hn & Hk). exists n. split; [done|]. by apply IH.
  - intros [HI Hk]. split; [done|]. by apply IH.
  - intros (n & Hn & HI & Hk). exists n. split_and!; [done..|]. by apply IH.
  - done.
Qed.

Lemma wp_bind {A B} (I : gmap positive (@TrieNode Val) → Prop) (m : prog A)
    (f : A → prog B) (Q : B → gmap positive (@TrieNode Val) → Prop) h :
  wp I m (λ x h', wp I (f x) Q h') h → wp I (bind m f) Q h.
Proof.
  revert h. induction m as [x|p k IH|n k IH|a g k IH|e]; intros h; simpl.
  - done.
  - intros (n & Hn & Hk). exists n. split; [done|]. by apply IH.
  - intros [HI Hk]. split; [done|]. by apply IH.
  - intros (n & Hn & HI & Hk). exists n. split_and!; [done..|]. by apply IH.
  - done.
Qed.

(** A program with a weakest precondition runs to its end without a
    fault, and ends as promised. *)
Lemma wp_run {A} (I : gmap positive (@TrieNode Val) → Prop) (m : prog A)
    (Q : A → gmap positive (@TrieNode Val) → Prop) h :
  wp I m Q h → ∃ x h', run m h = Ok (x, h') ∧ Q x h'.
Proof.
  revert h. induction m as [x|p k IH|n k IH|a g k IH|e]; intros h; simpl.
  - intros HQ. by exists x, h.
  - intros (n & -> & Hk). by apply IH.
  - intros [_ Hk]. by apply IH.
  - intros (n & -> & _ & Hk). by apply IH.
  - done.
Qed.

Lemma wp_wlp {A} (I : gmap positive (@TrieNode Val) → Prop) (m : prog A)
    (Q : A → gmap positive (@TrieNode Val) → Prop) h :
  wp I m Q h → wlp I m Q h.
Proof.
  revert h. induction m as [x|p k IH|n k IH|a g k IH|e]; intros h; simpl.
  - done.
  - intros (n & Hn & Hk) n' Hn'. rewrite Hn in Hn'. injection Hn' as <-. by apply IH.
  - intros [HI Hk]. split; [done|]. by apply IH.
  - intros (n & Hn & HI & Hk) n' Hn'. rewrite Hn in Hn'. injection Hn' as <-.
    split; [done|]. by apply IH.
  - done.
Qed.

(** One command of a program keeps what is left of it in order. *)
Lemma wlp_advance {A} (I : gmap positive (@TrieNode Val) → Prop) (m m' : prog A)
    (Q : A → gmap positive (@TrieNode Val) → Prop) h h' :
  wlp I m Q h → advance m h = Some (Ok (m', h')) →
  wlp I m' Q h' ∧ (h' = h ∨ I h').
Proof.
  destruct m as [x|p k|n k|a g k|e]; simpl; intros Hw Hadv; try done.
  - destruct (read h p) as [n|] eqn:Hn; [|done].
    injection Hadv as <- <-. split; [by apply Hw|by left].
  - injection Hadv as <- <-. destruct Hw as [HI Hk]. by split; [|right].
  - destruct (h !! a) as [n|] eqn:Hn; [|done].
    injection Hadv as <- <-. destruct (Hw n eq_refl) as [HI Hk]. by split; [|right].
Qed.

Lemma advance_run {A} (m m' : prog A) h h' :
  advance m h = Some (Ok (m', h')) → run m h = run m' h'.
Proof.
  destruct m as [x|p k|n k|a g k|e]; simpl; intros Hadv; try done.
  - destruct (read h p) as [n|]; [|done]. by injection Hadv as <- <-.
  - by injection Hadv as <- <-.
  - destruct (h !! a) as [n|]; [|done]. by injection Hadv as <- <-.
Qed.

(** *** The primitives *)

Section primitives.
Context {A : Type} (I : gmap positive (@TrieNode Val) → Prop).
Context (Q : A → gmap positive (@TrieNode Val) → Prop).

Lemma wp_deref_bind (f : TrieNode → prog A) h a n :
  h !! a = Some n → wp I (f n) Q h → wp I (bind (deref (Some a)) f) Q h.
Proof. intros Hn Hf. simpl. exists n. by rewrite Hn. Qed.

Lemma wp_make_shared_bind (f : positive → prog A) h n :
  I (<[fresh (dom h) := n]> h) →
  wp I (f (fresh (dom h))) Q (<[fresh (dom h) := n]> h) →
  wp I (bind (make_shared n) f) Q h.
Proof. intros HI Hf. by simpl. Qed.

Lemma wp_Clone_bind (f : positive → prog A) h a n :
  h !! a = Some n →
  I (<[fresh (dom h) := n]> h) →
  wp I (f (fresh (dom h))) Q (<[fresh (dom h) := n]> h) →
  wp I (bind (Clone a) f) Q h.
Proof. intros Hn HI Hf. simpl. exists n. by rewrite Hn. Qed.

Lemma wp_set_child_bind (f : unit → prog A) h node n ch c :
  h !! node = Some n →
  let h' := <[node := with_children n (<[ch := c]> (children_ n))]> h in
  I h' → wp I (f tt) Q h' → wp I (bind (set_child node ch c) f) Q h.
Proof. intros Hn h' HI Hf. simpl. by exists n. Qed.

Lemma wp_erase_child_bind (f : unit → prog A) h node n ch :
  h !! node = Some n →
  let h' := <[node := with_children n (delete ch (children_ n))]> h in
  I h' → wp I (f tt) Q h' → wp I (bind (erase_child node ch) f) Q h.
Proof. intros Hn h' HI Hf. simpl. by exists n. Qed.

End primitives.

Lemma wp_set_child (I : gmap positive (@TrieNode Val) → Prop)
    (Q : unit → gmap positive (@TrieNode Val) → Prop) h node n ch c :
  h !! node = Some n →
  let h' := <[node := with_children n (<[ch := c]> (children_ n))]> h in
  I h' → Q tt h' → wp I (set_child node ch c) Q h.
Proof. intros Hn h' HI HQ. simpl. by exists n. Qed.

(** *** [Get] on a trie of an older heap *)

Lemma Get_walk_run h0 h a k :
  closed h0 → h0 ⊆ h → is_Some (h0 !! a) →
  run (Get_walk a k) h = Ok (node_at h0 a k, h).
Proof.
  intros Hc Hsub. revert a. induction k as [|ch k IH]; intros a [n Hn]; [done|].
  simpl. rewrite Hn, (lookup_weaken _ _ _ _ Hn Hsub). simpl.
  destruct (children_ n !! ch) as [c|] eqn:Hch; simpl; [|done].
  apply IH. by eapply closed_lookup.
Qed.

(** On a well-formed trie [Get] does not fault, does not change the heap
    and returns what the trie denotes, also in a heap that has grown. *)
Lemma Get_run h0 h t T k :
  wf h0 t → h0 ⊆ h →
  run (Get type_of t T k) h = Ok (value_at type_of h0 (root_ t) T k, h).
Proof.
  intros [Hc Hr] Hsub. unfold Get, value_at. destruct (root_ t) as [r|]; [|done].
  simpl in *. rewrite run_bind, (Get_walk_run h0) by done.
  destruct (node_at h0 r k) as [b|] eqn:Hb; simpl; [|done].
  destruct (node_at_valid _ _ _ _ Hc Hr Hb) as [n Hn].
  rewrite Hn, (lookup_weaken _ _ _ _ Hn Hsub). simpl.
  by destruct n.
Qed.

Lemma Get_value_at h t T k :
  wf h t → eval (Get type_of t T k) h = Ok (value_at type_of h (root_ t) T k).
Proof. intros Hwf. unfold eval. by rewrite (Get_run h h). Qed.

(** *** What a node denotes, in terms of its contents *)

Lemma value_at_Some h a n T k :
  h !! a = Some n → value_at type_of h (Some a) T k = value_under type_of h n T k.
Proof.
  intros Hn. destruct k as [|ch k]; simpl; rewrite Hn; simpl; [done|].
  by destruct (children_ n !! ch).
Qed.

(** A freshly built parent: [ch] leads to the new child [c], every other
    edge into the older heap [hf]. *)
Lemma value_at_parent hf h node n ch c T k :
  closed hf → hf ⊆ h →
  h !! node = Some (with_children n (<[ch := c]> (children_ n))) →
  (∀ ch' x, ch' ≠ ch → children_ n !! ch' = Some x → is_Some (hf !! x)) →
  value_at type_of h (Some node) T k
  = match k with
    | [] => dynamic_pointer_cast type_of T n
    | ch' :: k' =>
        if decide (ch' = ch) then value_at type_of h (Some c) T k'
        else value_under type_of hf n T k
    end.
Proof.
  intros Hc Hsub Hnode Hkids. rewrite (value_at_Some _ _ _ _ _ Hnode).
  destruct k as [|ch' k']; simpl.
  - apply cast_with_children.
  - rewrite children_with_children. destruct (decide (ch' = ch)) as [->|Hne].
    + by rewrite lookup_insert_eq.
    + rewrite lookup_insert_ne by done.
      destruct (children_ n !! ch') as [x|] eqn:Hx; [|done]. simpl.
      apply (value_at_mono hf h (Some x) T k'); [done..|]. by eapply Hkids.
Qed.

(** *** Invariant I4, node by node *)

Lemma no_dead_from_intro h a n :
  h !! a = Some n → alive n →
  (∀ ch c, children_ n !! ch = Some c → no_dead_from h c) →
  no_dead_from h a.
Proof.
  intros Hn Hal Hkids k b m Hb Hm. destruct k as [|ch k]; simpl in Hb.
  - injection Hb as <-. rewrite Hn in Hm. by injection Hm as <-.
  - rewrite Hn in Hb. simpl in Hb.
    destruct (children_ n !! ch) as [c|] eqn:Hch; [|done]. simpl in Hb.
    by eapply Hkids.
Qed.

Lemma no_dead_from_node_at h a k b :
  no_dead_from h a → node_at h a k = Some b → no_dead_from h b.
Proof.
  revert a. induction k as [|ch k IH]; intros a Ha Hb; simpl in Hb.
  - by injection Hb as <-.
  - destruct (h !! a) as [n|] eqn:Hn; [|done]. simpl in Hb.
    destruct (children_ n !! ch) as [c|] eqn:Hch; [|done]. simpl in Hb.
    eapply IH; [|done]. intros k' b' m Hb' Hm.
    apply (Ha (ch :: k') b' m); [|done]. simpl. rewrite Hn. simpl. by rewrite Hch.
Qed.

Lemma no_dead_from_child h a n ch c :
  no_dead_from h a → h !! a = Some n → children_ n !! ch = Some c →
  no_dead_from h c.
Proof.
  intros Ha Hn Hch. apply (no_dead_from_node_at h a [ch] c Ha).
  simpl. rewrite Hn. simpl. by rewrite Hch.
Qed.

Lemma no_dead_from_mono h0 h a :
  closed h0 → h0 ⊆ h → is_Some (h0 !! a) → no_dead_from h0 a → no_dead_from h a.
Proof.
  intros Hc Hsub Ha Hnd k b m Hb Hm.
  rewrite (node_at_mono h0 h) in Hb by done.
  destruct (node_at_valid _ _ _ _ Hc Ha Hb) as [m' Hm'].
  rewrite (lookup_weaken _ _ _ _ Hm' Hsub) in Hm. injection Hm as <-.
  by eapply Hnd.
Qed.

Lemma value_under_mono h0 h m T k :
  closed h0 → h0 ⊆ h →
  (∀ ch x, children_ m !! ch = Some x → is_Some (h0 !! x)) →
  value_under type_of h m T k = value_under type_of h0 m T k.
Proof.
  intros Hc Hsub Hkids. destruct k as [|ch k]; [done|]. simpl.
  destruct (children_ m !! ch) as [x|] eqn:Hx; [|done]. simpl.
  apply (value_at_mono h0 h (Some x) T k); [done..|]. by eapply Hkids.
Qed.

(** *** [Put]: the heap after allocating a child and storing it in [node] *)

Lemma attach_facts h0 h node n ch m :
  let a := fresh (dom h) in
  let h' := <[node := with_children n (<[ch := a]> (children_ n))]> (<[a := m]> h) in
  closed h0 → h0 ⊆ h → closed h → h !! node = Some n → h0 !! node = None →
  (∀ ch' x, children_ n !! ch' = Some x → is_Some (h0 !! x)) →
  (∀ ch' x, children_ m !! ch' = Some x → is_Some (h0 !! x)) →
  a ≠ node ∧ h0 !! a = None ∧ h0 ⊆ <[a := m]> h ∧ closed (<[a := m]> h)
  ∧ h0 ⊆ h' ∧ closed h' ∧ h' !! a = Some m
  ∧ h' !! node = Some (with_children n (<[ch := a]> (children_ n)))
  ∧ (∀ b, b ≠ node → is_Some (h !! b) → h' !! b = h !! b).
Proof.
  intros a h' Hc0 Hsub Hc Hn Hfr Hkn Hkm.
  assert (Ha : h !! a = None) by apply fresh_lookup.
  assert (Hne : a ≠ node) by (intros ->; congruence).
  assert (Ha0 : h0 !! a = None).
  { destruct (h0 !! a) as [x|] eqn:Hx; [|done].
    by rewrite (lookup_weaken _ _ _ _ Hx Hsub) in Ha. }
  assert (Hsub1 : h0 ⊆ <[a := m]> h).
  { etrans; [exact Hsub|]. by apply insert_subseteq. }
  assert (Hc1 : closed (<[a := m]> h)).
  { apply closed_insert; [done|]. intros ch' x Hx.
    destruct (Hkm ch' x Hx) as [y Hy]. exists y. by eapply lookup_weaken. }
  assert (Hsub2 : h0 ⊆ h').
  { unfold h'. apply map_subseteq_spec. intros i x Hx.
    rewrite lookup_insert_ne by (intros <-; congruence).
    by eapply lookup_weaken. }
  split_and!; try done.
  - unfold h'. apply closed_insert; [done|]. intros ch' x.
    rewrite children_with_children. intros Hx.
    destruct (decide (ch' = ch)) as [->|Hcne].
    + rewrite lookup_insert_eq in Hx. injection Hx as <-.
      rewrite lookup_insert_ne, lookup_insert_eq by done. eauto.
    + rewrite lookup_insert_ne in Hx by done.
      destruct (Hkn ch' x Hx) as [y Hy]. exists y.
      by apply (lookup_weaken _ _ _ _ Hy Hsub2).
  - unfold h'. by rewrite lookup_insert_ne, lookup_insert_eq.
  - unfold h'. by rewrite lookup_insert_eq.
  - intros b Hb [y Hy]. unfold h'.
    rewrite lookup_insert_ne by done.
    rewrite lookup_insert_ne by (intros <-; congruence). done.
Qed.

(** What [Put_loop] does to a node under construction.  [h0] is the heap
    before [Put] started: it is never written to, at no step. *)
Lemma Put_loop_wp h0 v :
  closed h0 →
  ∀ rest ch node n h,
    h0 ⊆ h → closed h → h !! node = Some n → h0 !! node = None →
    (∀ ch' x, children_ n !! ch' = Some x → is_Some (h0 !! x)) →
    wp (grows h0) (Put_loop node ch rest v)
      (λ _ h',
         h0 ⊆ h' ∧ closed h'
         ∧ (∀ b, b ≠ node → is_Some (h !! b) → h' !! b = h !! b)
         ∧ is_Some (h' !! node)
         ∧ (∀ T k, value_at type_of h' (Some node) T k
                   = if decide (k = ch :: rest)
                     then dynamic_pointer_cast type_of T (NodeWithValue ∅ v)
                     else value_under type_of h0 n T k)
         ∧ ((∀ ch' x, children_ n !! ch' = Some x → no_dead_from h0 x) →
            no_dead_from h' node)) h.
Proof.
  intros Hc0. induction rest as [|ch1 rest IH]; intros ch node n h Hsub Hc Hn Hfr Hkn.
  - (* the last character: lines 85-92 *)
    set (m := match children_ n !! ch with
              | None => NodeWithValue ∅ v
              | Some old => match h0 !! old with
                            | Some o => NodeWithValue (children_ o) v
                            | None => NodeWithValue ∅ v
                            end
              end).
    assert (Hkm : ∀ ch' x, children_ m !! ch' = Some x → is_Some (h0 !! x)).
    { intros ch' x. unfold m. destruct (children_ n !! ch) as [old|]; [|done].
      destruct (h0 !! old) as [o|] eqn:Ho; [|done]. simpl.
      intros Hx. by eapply closed_lookup. }
    destruct (attach_facts h0 h node n ch m Hc0 Hsub Hc Hn Hfr Hkn Hkm)
      as (Hne & Ha0 & Hsub1 & Hc1 & Hsub2 & Hc2 & Ha & Hnode & Hframe).
    cbn [Put_loop]. apply (wp_deref_bind _ _ _ _ _ n Hn).
    apply wp_bind.
    apply (wp_mono _ _ (λ a h1, a = fresh (dom h) ∧ h1 = <[fresh (dom h) := m]> h)).
    2:{ destruct (children_ n !! ch) as [old|] eqn:Hold; [|by split].
        destruct (Hkn _ _ Hold) as [o Ho].
        assert (Hm : m = NodeWithValue (children_ o) v) by (unfold m; by rewrite Ho).
        apply (wp_deref_bind _ _ _ _ _ o (lookup_weaken _ _ _ _ Ho Hsub)).
        simpl. rewrite <- Hm. by split. }
    intros a h1 [-> ->].
    apply (wp_set_child _ _ _ node n); [by rewrite lookup_insert_ne|by split|].
    split_and!; try done.
    + intros T k.
      rewrite (value_at_parent h0 _ node n ch _ T k Hc0 Hsub2 Hnode)
        by (intros; by eapply Hkn).
      destruct k as [|ch' k']; [done|].
      destruct (decide (ch' = ch)) as [->|Hch].
      * rewrite (value_at_Some _ _ _ T k' Ha), (value_under_mono h0) by done.
        destruct k' as [|ch2 k2].
        { rewrite decide_True by done. unfold m. simpl.
          destruct (children_ n !! ch) as [old|]; [|done]. by destruct (h0 !! old). }
        rewrite decide_False by congruence.
        unfold m. simpl. destruct (children_ n !! ch) as [old|] eqn:Hold; simpl.
        -- destruct (Hkn _ _ Hold) as [o Ho]. rewrite Ho. simpl.
           by destruct (children_ o !! ch2).
        -- by rewrite lookup_empty.
      * by rewrite decide_False by congruence.
    + intros Hnd. eapply no_dead_from_intro; [exact Hnode| |].
      * right. rewrite children_with_children. intros Hem.
        apply (f_equal (λ m, m !! ch)) in Hem.
        by rewrite lookup_insert_eq, lookup_empty in Hem.
      * intros ch' x. rewrite children_with_children. intros Hx.
        destruct (decide (ch' = ch)) as [->|Hch].
        -- rewrite lookup_insert_eq in Hx. injection Hx as <-.
           eapply no_dead_from_intro; [exact Ha| |].
           ++ left. unfold m. destruct (children_ n !! ch) as [old|]; [|done].
              by destruct (h0 !! old).
           ++ intros ch2 y Hy.
              apply (no_dead_from_mono h0); [done|done|by eapply Hkm|].
              unfold m in Hy. destruct (children_ n !! ch) as [old|] eqn:Hold;
                [|simpl in Hy; by rewrite lookup_empty in Hy].
              destruct (h0 !! old) as [o|] eqn:Ho; [|simpl in Hy; by rewrite lookup_empty in Hy].
              eapply no_dead_from_child; [by eapply Hnd|exact Ho|exact Hy].
        -- rewrite lookup_insert_ne in Hx by done.
           apply (no_dead_from_mono h0); [done|done|by eapply Hkn|by eapply Hnd].
  - (* a character before the last: lines 76-83 *)
    set (m := match children_ n !! ch with
              | None => PlainNode ∅
              | Some old => match h0 !! old with
                            | Some o => o
                            | None => PlainNode ∅
                            end
              end).
    assert (Hkm : ∀ ch' x, children_ m !! ch' = Some x → is_Some (h0 !! x)).
    { intros ch' x. unfold m. destruct (children_ n !! ch) as [old|]; [|done].
      destruct (h0 !! old) as [o|] eqn:Ho; [|done].
      intros Hx. by eapply closed_lookup. }
    destruct (attach_facts h0 h node n ch m Hc0 Hsub Hc Hn Hfr Hkn Hkm)
      as (Hne & Ha0 & Hsub1 & Hc1 & Hsub2 & Hc2 & Ha & Hnode & Hframe).
    cbn [Put_loop]. apply (wp_deref_bind _ _ _ _ _ n Hn).
    apply wp_bind.
    apply (wp_mono _ _ (λ a h1, a = fresh (dom h) ∧ h1 = <[fresh (dom h) := m]> h)).
    2:{ destruct (children_ n !! ch) as [old|] eqn:Hold; [|by split].
        destruct (Hkn _ _ Hold) as [o Ho].
        assert (Hm : m = o) by (unfold m; by rewrite Ho).
        apply (wp_Clone_bind _ _ _ _ _ o (lookup_weaken _ _ _ _ Ho Hsub));
          rewrite <- Hm; by split. }
    intros a h1 [-> ->].
    apply (wp_set_child_bind _ _ _ _ node n); [by rewrite lookup_insert_ne|by split|].
    eapply wp_mono; [|exact (IH ch1 _ m _ Hsub2 Hc2 Ha Ha0 Hkm)].
    intros _ h' (Hsub' & Hc' & Hframe' & Ha' & Hval' & Hnd').
    assert (Hnode' : h' !! node
                     = Some (with_children n (<[ch := fresh (dom h)]> (children_ n)))).
    { rewrite Hframe'; [done|done|]. rewrite Hnode. eauto. }
    split_and!; try done.
    + intros b Hb Hhb. rewrite Hframe'.
      * by apply Hframe.
      * intros ->. destruct Hhb as [y Hy]. by rewrite fresh_lookup in Hy.
      * rewrite Hframe by done. done.
    + intros T k.
      rewrite (value_at_parent h0 _ node n ch _ T k Hc0 Hsub' Hnode')
        by (intros; by eapply Hkn).
      destruct k as [|ch' k']; [done|].
      destruct (decide (ch' = ch)) as [->|Hch].
      * rewrite Hval'. destruct (decide (k' = ch1 :: rest)) as [->|Hk'].
        { by rewrite decide_True. }
        rewrite decide_False by congruence.
        unfold m. simpl. destruct (children_ n !! ch) as [old|] eqn:Hold; simpl.
        -- destruct (Hkn _ _ Hold) as [o Ho]. rewrite Ho.
           symmetry. apply (value_at_Some _ _ _ _ _ Ho).
        -- destruct k' as [|ch2 k2]; [done|]. simpl. by rewrite lookup_empty.
      * by rewrite decide_False by congruence.
    + intros Hnd. eapply no_dead_from_intro; [exact Hnode'| |].
      * right. rewrite children_with_children. intros Hem.
        apply (f_equal (λ m, m !! ch)) in Hem.
        by rewrite lookup_insert_eq, lookup_empty in Hem.
      * intros ch' x. rewrite children_with_children. intros Hx.
        destruct (decide (ch' = ch)) as [->|Hch].
        -- rewrite lookup_insert_eq in Hx. injection Hx as <-.
           apply Hnd'. intros ch2 y Hy.
           unfold m in Hy. destruct (children_ n !! ch) as [old|] eqn:Hold;
             [|simpl in Hy; by rewrite lookup_empty in Hy].
           destruct (h0 !! old) as [o|] eqn:Ho; [|simpl in Hy; by rewrite lookup_empty in Hy].
           eapply no_dead_from_child; [by eapply Hnd|exact Ho|exact Hy].
        -- rewrite lookup_insert_ne in Hx by done.
           apply (no_dead_from_mono h0); [done|done|by eapply Hkn|by eapply Hnd].
Qed.

Lemma value_under_plain h T k :
  value_under type_of h (PlainNode ∅) T k = None.
Proof. destruct k as [|ch k]; [done|]. simpl. by rewrite lookup_empty. Qed.

Lemma value_at_None h T k : value_at type_of h None T k = None.
Proof. done. Qed.

(** An object allocated on top of a closed heap, with children in it. *)
Lemma alloc_facts h m :
  let a := fresh (dom h) in
  closed h →
  (∀ ch x, children_ m !! ch = Some x → is_Some (h !! x)) →
  h !! a = None ∧ h ⊆ <[a := m]> h ∧ closed (<[a := m]> h)
  ∧ <[a := m]> h !! a = Some m.
Proof.
  intros a Hc Hkm. assert (Ha : h !! a = None) by apply fresh_lookup.
  split_and!; [done|by apply insert_subseteq| |by rewrite lookup_insert_eq].
  apply closed_insert; [done|]. intros ch x Hx.
  destruct (Hkm ch x Hx) as [y Hy]. exists y.
  rewrite lookup_insert_ne; [done|]. intros <-. congruence.
Qed.

(** The whole of [Put]: it does not fault, it leaves every object of the
    heap it started in as it is, at every step, and the trie it returns
    maps [k] to [v] and every other key to what the old trie maps it to. *)
Lemma Put_wp h t k v :
  wf h t →
  wp (grows h) (Put t k v)
    (λ t' h',
       h ⊆ h' ∧ wf h' t'
       ∧ (∀ T k', value_at type_of h' (root_ t') T k'
                  = if decide (k' = k)
                    then dynamic_pointer_cast type_of T (NodeWithValue ∅ v)
                    else value_at type_of h (root_ t) T k')
       ∧ (no_dead h t → no_dead h' t')) h.
Proof.
  intros [Hc Hr]. destruct t as [[r|]]; simpl in Hr.
  - destruct Hr as [o Ho].
    assert (Hko : ∀ ch x, children_ o !! ch = Some x → is_Some (h !! x)).
    { intros ch x Hx. by eapply closed_lookup. }
    destruct k as [|ch rest].
    + (* line 62 *)
      destruct (alloc_facts h (NodeWithValue (children_ o) v) Hc Hko)
        as (Ha & Hsub & Hc' & Ha').
      unfold Put. cbn [root_]. apply (wp_deref_bind _ _ _ _ _ o Ho).
      apply wp_make_shared_bind; [by split|]. cbn [ret wp].
      split_and!; try done.
      * split; [done|]. simpl. eauto.
      * intros T k'. cbn [root_].
        rewrite (value_at_Some _ _ _ T k' Ha'), (value_under_mono h) by done.
        rewrite (value_at_Some _ _ _ T k' Ho).
        destruct k' as [|ch k']; [done|]. by rewrite decide_False.
      * intros Hnd. eapply no_dead_from_intro; [exact Ha'|by left|].
        simpl. intros ch x Hx.
        apply (no_dead_from_mono h); [done|done|by eapply Hko|].
        eapply no_dead_from_child; [exact Hnd|exact Ho|exact Hx].
    + (* line 64 *)
      destruct (alloc_facts h o Hc Hko) as (Ha & Hsub & Hc' & Ha').
      unfold Put. cbn [root_]. apply (wp_Clone_bind _ _ _ _ _ o Ho); [by split|].
      apply wp_bind.
      eapply wp_mono; [|exact (Put_loop_wp h v Hc rest ch _ o _ Hsub Hc' Ha' Ha Hko)].
      intros _ h' (Hsub' & Hc'' & _ & Hnode & Hval & Hnd'). cbn [ret wp].
      split_and!; try done.
      * intros T k'. cbn [root_]. rewrite Hval.
        by rewrite <- (value_at_Some _ _ _ T k' Ho).
      * intros Hnd. apply Hnd'. intros ch' x Hx.
        eapply no_dead_from_child; [exact Hnd|exact Ho|exact Hx].
  - destruct k as [|ch rest].
    + (* line 68 *)
      destruct (alloc_facts h (NodeWithValue ∅ v) Hc) as (Ha & Hsub & Hc' & Ha').
      { intros ch x. simpl. by rewrite lookup_empty. }
      unfold Put. cbn [root_]. apply wp_make_shared_bind; [by split|]. cbn [ret wp].
      split_and!; try done.
      * split; [done|]. simpl. eauto.
      * intros T k'. cbn [root_].
        rewrite (value_at_Some _ _ _ T k' Ha').
        destruct k' as [|ch k']; [done|].
        rewrite decide_False by done. simpl. by rewrite lookup_empty.
      * intros _. eapply no_dead_from_intro; [exact Ha'|by left|].
        simpl. intros ch x. by rewrite lookup_empty.
    + (* line 70 *)
      assert (Hkp : ∀ ch' x, children_ (@PlainNode Val ∅) !! ch' = Some x
                             → is_Some (h !! x)).
      { intros ch' x. simpl. by rewrite lookup_empty. }
      destruct (alloc_facts h (PlainNode ∅) Hc Hkp) as (Ha & Hsub & Hc' & Ha').
      unfold Put. cbn [root_]. apply wp_make_shared_bind; [by split|].
      apply wp_bind.
      eapply wp_mono; [|exact (Put_loop_wp h v Hc rest ch _ _ _ Hsub Hc' Ha' Ha Hkp)].
      intros _ h' (Hsub' & Hc'' & _ & Hnode & Hval & Hnd'). cbn [ret wp].
      split_and!; try done.
      * intros T k'. cbn [root_]. rewrite Hval. by rewrite value_under_plain.
      * intros _. apply Hnd'. intros ch' x. simpl. by rewrite lookup_empty.
Qed.

Lemma Put_spec h t k v :
  wf h t →
  ∃ t' h', run (Put t k v) h = Ok (t', h')
    ∧ h ⊆ h' ∧ wf h' t'
    ∧ (∀ T k', value_at type_of h' (root_ t') T k'
               = if decide (k' = k)
                 then dynamic_pointer_cast type_of T (NodeWithValue ∅ v)
                 else value_at type_of h (root_ t) T k')
    ∧ (no_dead h t → no_dead h' t').
Proof. intros Hwf. exact (wp_run _ _ _ _ (Put_wp h t k v Hwf)). Qed.

(** *** [Remove]: the recorded path *)

Lemma chain_node_at h r stk rk a s :
  chain h r stk rk a → node_at h r (rev rk ++ s) = node_at h a s.
Proof.
  intros Hch. revert s. induction Hch as [|stk rk a n ch b _ IH Ha Hb]; intros s; [done|].
  simpl. rewrite <- app_assoc. rewrite IH. simpl. rewrite Ha. simpl. by rewrite Hb.
Qed.

Lemma chain_value_at h r stk rk a T s :
  chain h r stk rk a →
  value_at type_of h (Some r) T (rev rk ++ s) = value_at type_of h (Some a) T s.
Proof. intros Hch. unfold value_at. simpl. by rewrite (chain_node_at _ _ _ _ _ s Hch). Qed.

(** The loop of lines 109-117 only reads; it leaves through line 112 when
    an edge is missing and otherwise records the path. *)
Lemma Remove_walk_wp (I : gmap positive (@TrieNode Val) → Prop) h r :
  closed h →
  ∀ k stk rk a,
    chain h r stk rk a → is_Some (h !! a) →
    wp I (Remove_walk (Some a) k stk)
      (λ res h',
         h' = h
         ∧ match node_at h a k with
           | None => res = None
           | Some b => ∃ stk', res = Some (stk', Some b)
                               ∧ chain h r stk' (rev k ++ rk) b
           end) h.
Proof.
  intros Hc. induction k as [|ch k IH]; intros stk rk a Hch [n Hn].
  - simpl. eauto.
  - cbn [Remove_walk]. apply (wp_deref_bind _ _ _ _ _ n Hn).
    simpl. rewrite Hn. simpl.
    destruct (children_ n !! ch) as [c|] eqn:Hc'; simpl; [|done].
    assert (Hch' : chain h r (a :: stk) (ch :: rk) c) by (by econstructor).
    eapply wp_mono;
      [|exact (IH (a :: stk) (ch :: rk) c Hch' (closed_lookup _ _ _ _ _ Hc Hn Hc'))].
    intros res h' [-> Hres]. split; [done|].
    destruct (node_at h c k) as [b|]; [|done].
    destruct Hres as (stk' & -> & Hch''). exists stk'. split; [done|].
    by rewrite <- app_assoc.
Qed.

Lemma size_le_1_lookup (m : gmap ascii positive) ch b ch' :
  size m ≤ 1 → m !! ch = Some b → ch' ≠ ch → m !! ch' = None.
Proof.
  intros Hsz Hch Hne.
  rewrite <- (insert_delete_id m ch b Hch) in Hsz.
  rewrite map_size_insert_None in Hsz by apply lookup_delete_eq.
  assert (Hem : delete ch m = ∅) by (apply map_size_empty_inv; lia).
  rewrite <- (lookup_delete_ne m ch ch') by done. by rewrite Hem, lookup_empty.
Qed.

Lemma size_gt_1_delete (m : gmap ascii positive) ch b :
  ¬ size m ≤ 1 → m !! ch = Some b → delete ch m ≠ ∅.
Proof.
  intros Hsz Hch Hem. apply Hsz.
  rewrite <- (insert_delete_id m ch b Hch).
  rewrite map_size_insert_None by apply lookup_delete_eq.
  rewrite Hem, map_size_empty. lia.
Qed.

(** A clone of an old node whose children map is replaced before anything
    else sees it. *)
Lemma clone_update_facts h n n' :
  let p := fresh (dom h) in
  let h' := <[p := n']> (<[p := n]> h) in
  closed h →
  (∀ ch x, children_ n' !! ch = Some x → is_Some (h !! x)) →
  h ⊆ h' ∧ closed h' ∧ h' !! p = Some n'.
Proof.
  intros p h' Hc Hk. unfold h'. rewrite insert_insert_eq.
  destruct (alloc_facts h n' Hc Hk) as (_ & ? & ? & ?). done.
Qed.

(** One round of the loop of lines 126-139: [top] is an old node whose
    edge [ch] led to the subtree that [nd] now replaces. *)
Lemma Remove_step_wp h0 h (top : positive) n ch b (nd : option positive) :
  closed h0 → h0 ⊆ h → closed h →
  h0 !! top = Some n → children_ n !! ch = Some b → valid h nd →
  wp (grows h0) (Remove_step ch top nd)
    (λ res h',
       h ⊆ h' ∧ closed h' ∧ valid h' res
       ∧ (∀ T k, value_at type_of h' res T k
                 = match k with
                   | [] => value_at type_of h0 (Some top) T []
                   | ch' :: s =>
                       if decide (ch' = ch) then value_at type_of h nd T s
                       else value_at type_of h0 (Some top) T k
                   end)
       ∧ (no_dead_below h nd → no_dead_from h0 top → no_dead_below h' res)
       ∧ (∀ s, node_below h' res (ch :: s) = node_below h nd s)
       ∧ (res = None ↔ nd = None ∧ is_value_node_ n = false
                        ∧ delete ch (children_ n) = ∅)) h.
Proof.
  intros Hc0 Hsub Hc Hn Hb Hnode.
  assert (Hn' : h !! top = Some n) by (by eapply lookup_weaken).
  assert (Hkn : ∀ ch' x, children_ n !! ch' = Some x → is_Some (h0 !! x)).
  { intros ch' x Hx. by eapply closed_lookup. }
  assert (Hkn' : ∀ ch' x, children_ n !! ch' = Some x → is_Some (h !! x)).
  { intros ch' x Hx. destruct (Hkn _ _ Hx) as [y Hy]. exists y. by eapply lookup_weaken. }
  assert (Hold : ∀ T k, value_under type_of h n T k = value_at type_of h0 (Some top) T k).
  { intros T k. by rewrite (value_under_mono h0), (value_at_Some _ _ _ T k Hn). }
  destruct (alloc_facts h n Hc Hkn') as (Hp0 & Hsub1 & Hc1 & Hp1).
  assert (Hgrows1 : grows h0 (<[fresh (dom h) := n]> h)) by (split; [by etrans|done]).
  unfold Remove_step. apply (wp_Clone_bind _ _ _ _ _ n Hn'); [done|].
  destruct nd as [c|].
  - (* line 131 *)
    set (n' := with_children n (<[ch := c]> (children_ n))).
    destruct (clone_update_facts h n n' Hc) as (Hsub' & Hc' & Hp).
    { intros ch' x. unfold n'. rewrite children_with_children. intros Hx.
      destruct (decide (ch' = ch)) as [->|Hne].
      - rewrite lookup_insert_eq in Hx. by injection Hx as <-.
      - rewrite lookup_insert_ne in Hx by done. by eapply Hkn'. }
    apply (wp_set_child_bind _ _ _ _ _ n); [done|split; [by etrans|done]|].
    cbn [ret wp]. fold n'.
    split_and!; try done.
    + simpl. eauto.
    + intros T k.
      rewrite (value_at_parent h _ _ n ch c T k Hc Hsub' Hp)
        by (intros; by eapply Hkn').
      destruct k as [|ch' s].
      * by rewrite (value_at_Some _ _ _ T [] Hn).
      * destruct (decide (ch' = ch)) as [->|Hne]; [|by apply Hold].
        by apply (value_at_mono h _ (Some c)).
    + intros Hnd Hnd0. eapply no_dead_from_intro; [exact Hp| |].
      * right. unfold n'. rewrite children_with_children. intros Hem.
        apply (f_equal (λ m, m !! ch)) in Hem.
        by rewrite lookup_insert_eq, lookup_empty in Hem.
      * intros ch' x. unfold n'. rewrite children_with_children. intros Hx.
        destruct (decide (ch' = ch)) as [->|Hne].
        -- rewrite lookup_insert_eq in Hx. injection Hx as <-.
           by apply (no_dead_from_mono h).
        -- rewrite lookup_insert_ne in Hx by done.
           apply (no_dead_from_mono h0); [done|by etrans|by eapply Hkn|].
           by eapply no_dead_from_child.
    + intros s. simpl. rewrite Hp. simpl. unfold n'.
      rewrite children_with_children, lookup_insert_eq. simpl.
      by apply node_at_mono.
    + split; [done|]. by intros [? _].
  - apply (wp_deref_bind _ _ _ _ _ n Hp1).
    destruct (decide (size (children_ n) ≤ 1 ∧ is_value_node_ n = false)) as [[Hsz Hv]|Hkeep].
    + (* line 134 *)
      rewrite bool_decide_eq_true_2, Hv by done. cbn [andb negb ret wp].
      split_and!; try done.
      * intros T k. rewrite value_at_None.
        destruct k as [|ch' s].
        { rewrite (value_at_Some _ _ _ T _ Hn). by destruct n. }
        destruct (decide (ch' = ch)) as [->|Hne]; [done|].
        rewrite (value_at_Some _ _ _ T _ Hn).
        simpl. by rewrite (size_le_1_lookup _ ch b ch').
      * split; [intros _|done]. split_and!; [done..|].
        apply map_eq. intros ch'. rewrite lookup_empty.
        destruct (decide (ch' = ch)) as [->|Hne]; [by rewrite lookup_delete_eq|].
        rewrite lookup_delete_ne by done. by apply (size_le_1_lookup _ ch b ch').
    + (* line 136 *)
      set (n' := with_children n (delete ch (children_ n))).
      destruct (clone_update_facts h n n' Hc) as (Hsub' & Hc' & Hp).
      { intros ch' x. unfold n'. rewrite children_with_children. intros Hx.
        apply lookup_delete_Some in Hx as [_ Hx]. by eapply Hkn'. }
      assert (Hcond : bool_decide (size (children_ n) ≤ 1) && negb (is_value_node_ n) = false).
      { apply andb_false_iff. destruct (decide (size (children_ n) ≤ 1)).
        - right. destruct (is_value_node_ n); [done|]. by destruct Hkeep.
        - left. by apply bool_decide_eq_false_2. }
      rewrite Hcond.
      apply (wp_erase_child_bind _ _ _ _ _ n); [done|split; [by etrans|done]|].
      cbn [ret wp]. fold n'.
      split_and!; try done.
      * simpl. eauto.
      * assert (Hkids' : children_ n' = delete ch (children_ n))
          by apply children_with_children.
        intros T k. rewrite (value_at_Some _ _ _ T k Hp).
        destruct k as [|ch' s].
        -- cbn [value_under]. unfold n'. rewrite cast_with_children.
           by rewrite (value_at_Some _ _ _ T [] Hn).
        -- cbn [value_under]. rewrite Hkids'.
           destruct (decide (ch' = ch)) as [->|Hne].
           ++ by rewrite lookup_delete_eq.
           ++ rewrite lookup_delete_ne by done.
              rewrite <- Hold. cbn [value_under].
              destruct (children_ n !! ch') as [x|] eqn:Hx; [|done].
              apply (value_at_mono h _ (Some x) T s); [done..|]. by eapply Hkn'.
      * intros _ Hnd0. eapply no_dead_from_intro; [exact Hp| |].
        -- unfold n'. unfold alive.
           rewrite children_with_children, is_value_with_children.
           destruct (is_value_node_ n); [by left|]. right.
           apply (size_gt_1_delete _ ch b); [|done]. intros Hsz. by apply Hkeep.
        -- intros ch' x. unfold n'. rewrite children_with_children. intros Hx.
           apply lookup_delete_Some in Hx as [_ Hx].
           apply (no_dead_from_mono h0); [done|by etrans|by eapply Hkn|].
           by eapply no_dead_from_child.
      * intros s. simpl. rewrite Hp. simpl. unfold n'.
        by rewrite children_with_children, lookup_delete_eq.
      * split; [done|]. intros (_ & Hv & Hem). destruct Hkeep. split; [|done].
        destruct (decide (size (children_ n) ≤ 1)) as [|Hsz]; [done|].
        by destruct (size_gt_1_delete _ ch b Hsz Hb).
Qed.

Lemma node_below_nil h (o : option positive) : node_below h o [] = o.
Proof. by destruct o. Qed.

(** The loop of lines 126-139 as a whole.  [h0] is the heap [Remove] was
    called in; the walk from [r] along the reverse of [rk] ended in the
    subtree that [nd] replaces. *)
Lemma Remove_fold_wp h0 r :
  closed h0 → is_Some (h0 !! r) →
  ∀ stk rk b,
    chain h0 r stk rk b →
    ∀ h (nd : option positive),
      h0 ⊆ h → closed h → valid h nd →
      wp (grows h0) (Remove_fold rk stk nd)
        (λ res h',
           h ⊆ h' ∧ closed h' ∧ valid h' res
           ∧ (∀ T s, value_at type_of h' res T (rev rk ++ s) = value_at type_of h nd T s)
           ∧ (∀ T k, ¬ rev rk `prefix_of` k →
                     value_at type_of h' res T k = value_at type_of h0 (Some r) T k)
           ∧ (no_dead_below h nd → no_dead_from h0 r → no_dead_below h' res)
           ∧ (∀ s, node_below h' res (rev rk ++ s) = node_below h nd s)
           ∧ (∀ p ch q a n,
                rev rk = p ++ ch :: q → node_at h0 r p = Some a → h0 !! a = Some n →
                (node_below h' res p = None
                 ↔ is_value_node_ n = false ∧ delete ch (children_ n) = ∅
                   ∧ node_below h' res (p ++ [ch]) = None))) h.
Proof.
  intros Hc0 Hr stk rk b Hch.
  induction Hch as [|stk rk a n ch b Hch IH Ha Hb]; intros h nd Hsub Hc Hnd.
  - cbn [Remove_fold ret wp]. split_and!; try done.
    + intros T k Hk. destruct Hk. apply prefix_nil.
    + intros p ch q a n Hk. by destruct p.
  - cbn [Remove_fold]. apply wp_bind.
    eapply wp_mono; [|exact (Remove_step_wp h0 h a n ch b nd Hc0 Hsub Hc Ha Hb Hnd)].
    intros nd1 h1 (Hsub1 & Hc1 & Hnd1 & Hval1 & Hdead1 & Hat1 & Hnone1).
    eapply wp_mono; [|apply (IH h1 nd1); [by etrans|done|done]].
    intros res h' (Hsub' & Hc' & Hres & Hin & Hout & Hdead & Hat & Hpath).
    split_and!; try done.
    + by etrans.
    + intros T s. simpl. rewrite <- app_assoc. simpl.
      rewrite Hin, Hval1. by rewrite decide_True.
    + intros T k Hk. destruct (decide (rev rk `prefix_of` k)) as [[s ->]|Hpre].
      * rewrite Hin, Hval1, (chain_value_at _ _ _ _ _ T s Hch).
        destruct s as [|ch' s]; [done|].
        rewrite decide_False; [done|]. intros ->. apply Hk.
        exists s. simpl. by rewrite <- app_assoc.
      * by apply Hout.
    + intros Hd Hd0. apply Hdead; [|done]. apply Hdead1; [done|].
      apply (no_dead_from_node_at h0 r (rev rk)); [done|].
      rewrite <- (app_nil_r (rev rk)). by rewrite (chain_node_at _ _ _ _ _ [] Hch).
    + intros s. simpl. rewrite <- app_assoc. simpl. by rewrite Hat, Hat1.
    + intros p ch' q a' n' Hk Ha' Hn'. simpl in Hk.
      destruct q as [|x q _] using rev_ind.
      * apply app_inj_tail in Hk as [<- <-].
        rewrite <- (app_nil_r (rev rk)) in Ha'.
        rewrite (chain_node_at _ _ _ _ _ [] Hch) in Ha'. injection Ha' as <-.
        rewrite Ha in Hn'. injection Hn' as <-.
        rewrite <- (app_nil_r (rev rk)) at 1. rewrite !Hat, Hat1.
        rewrite !node_below_nil, Hnone1. tauto.
      * rewrite app_comm_cons, app_assoc in Hk.
        apply app_inj_tail in Hk as [Hk <-]. by eapply Hpath.
Qed.

(** The whole of [Remove] on a trie that is not empty: it does not fault,
    it leaves every object of the heap it started in as it is, at every
    step, [k] has no value in the new trie and every other key has the
    value it had; a key that has no value leaves trie and heap as they
    are. *)
Lemma Remove_wp h t k r :
  wf h t → root_ t = Some r →
  wp (grows h) (Remove t k)
    (λ t' h',
       h ⊆ h' ∧ wf h' t'
       ∧ (∀ T k', value_at type_of h' (root_ t') T k'
                  = if decide (k' = k) then None
                    else value_at type_of h (root_ t) T k')
       ∧ (no_dead h t → no_dead h' t')
       ∧ (¬ has_key h t k → t' = t ∧ h' = h)
       ∧ (has_key h t k →
          (∀ p ch q a n,
             k = p ++ ch :: q → node_at h r p = Some a → h !! a = Some n →
             (node_below h' (root_ t') p = None
              ↔ is_value_node_ n = false ∧ delete ch (children_ n) = ∅
                ∧ node_below h' (root_ t') (p ++ [ch]) = None))
          ∧ (∀ b n, node_at h r k = Some b → h !! b = Some n →
                    (node_below h' (root_ t') k = None ↔ children_ n = ∅)))) h.
Proof.
  intros Hwf Hroot. pose proof Hwf as [Hc Hv].
  unfold no_dead. rewrite Hroot in Hv |- *. simpl in Hv.
  unfold Remove. rewrite Hroot. apply wp_bind.
  eapply wp_mono; [|exact (Remove_walk_wp _ h r Hc k [] [] r (chain_nil h r) Hv)].
  intros walk h' [-> Hwalk].
  destruct (node_at h r k) as [b|] eqn:Hb.
  2:{ rewrite Hwalk. cbn [ret wp]. rewrite Hroot. split_and!; try done.
      - intros T k'. destruct (decide (k' = k)) as [->|]; [|done].
        unfold value_at. simpl. by rewrite Hb.
      - intros (r' & b' & n' & Hr' & Hb' & _). rewrite Hroot in Hr'.
        injection Hr' as <-. congruence. }
  destruct Hwalk as (stk & -> & Hch). rewrite app_nil_r in Hch.
  destruct (node_at_valid _ _ _ _ Hc Hv Hb) as [n Hn].
  apply (wp_deref_bind _ _ _ _ _ n Hn).
  destruct (is_value_node_ n) eqn:Hval; cbn [negb].
  2:{ cbn [ret wp]. rewrite Hroot. split_and!; try done.
      - intros T k'. destruct (decide (k' = k)) as [->|]; [|done].
        unfold value_at. simpl. rewrite Hb. simpl. rewrite Hn. simpl.
        by destruct n.
      - intros (r' & b' & n' & Hr' & Hb' & Hn'' & Hv'). rewrite Hroot in Hr'.
        injection Hr' as <-. congruence. }
  (* the replacement of the terminal node: lines 121-124 *)
  apply wp_bind.
  apply (wp_mono _ _ (λ nd1 h1,
    h ⊆ h1 ∧ closed h1 ∧ valid h1 nd1
    ∧ (∀ T s, value_at type_of h1 nd1 T s
              = if decide (s = []) then None else value_at type_of h (Some b) T s)
    ∧ (no_dead_from h b → no_dead_below h1 nd1)
    ∧ (nd1 = None ↔ children_ n = ∅))).
  2:{ assert (Hkn : ∀ ch x, children_ n !! ch = Some x → is_Some (h !! x)).
      { intros ch x Hx. by eapply closed_lookup. }
      destruct (decide (children_ n = ∅)) as [Hem|Hne].
      - rewrite bool_decide_eq_true_2 by done. cbn [ret wp].
        split_and!; try done. intros T s. rewrite value_at_None.
        destruct s as [|ch s]; [done|]. rewrite decide_False by done.
        rewrite (value_at_Some _ _ _ T _ Hn). simpl. by rewrite Hem, lookup_empty.
      - destruct (alloc_facts h (PlainNode (children_ n)) Hc Hkn)
          as (Ha & Hsub & Hc' & Ha').
        rewrite bool_decide_eq_false_2 by done.
        apply wp_make_shared_bind; [by split|]. cbn [ret wp].
        split_and!; try done.
        + simpl. eauto.
        + intros T s. rewrite (value_at_Some _ _ _ T s Ha'), (value_under_mono h) by done.
          destruct s as [|ch s]; [done|]. rewrite decide_False by done.
          by rewrite (value_at_Some _ _ _ T _ Hn).
        + intros Hd. eapply no_dead_from_intro; [exact Ha'|by right|].
          simpl. intros ch x Hx.
          apply (no_dead_from_mono h); [done|done|by eapply Hkn|].
          by eapply no_dead_from_child. }
  intros nd1 h1 (Hsub1 & Hc1 & Hnd1 & Hval1 & Hdead1 & Hnone1).
  apply wp_bind.
  eapply wp_mono;
    [|exact (Remove_fold_wp h r Hc Hv stk (rev k) b Hch h1 nd1 Hsub1 Hc1 Hnd1)].
  intros res h' (Hsub' & Hc' & Hres & Hin & Hout & Hdead & Hat & Hpath).
  rewrite rev_involutive in Hin, Hout, Hat, Hpath. cbn [ret wp].
  split_and!; try done.
  - by etrans.
  - intros T k'. cbn [root_].
    destruct (decide (k' = k)) as [->|Hne].
    + rewrite <- (app_nil_r k) at 1. by rewrite Hin, Hval1.
    + destruct (decide (k `prefix_of` k')) as [[s ->]|Hpre]; [|by apply Hout].
      rewrite Hin, Hval1. rewrite decide_False.
      * symmetry. rewrite <- (rev_involutive k) at 1.
        apply (chain_value_at _ _ _ _ _ T s Hch).
      * intros ->. by rewrite app_nil_r in Hne.
  - intros Hd. apply Hdead; [|done]. apply Hdead1.
    by apply (no_dead_from_node_at h r k).
  - intros Hno. destruct Hno. exists r, b, n. by rewrite Hroot.
  - intros _. cbn [root_]. split; [exact Hpath|].
    intros b' n' Hb' Hn'. injection Hb' as <-.
    rewrite Hn in Hn'. injection Hn' as <-.
    rewrite <- (app_nil_r k) at 1. by rewrite Hat, <- Hnone1, node_below_nil.
Qed.

Lemma Remove_spec h t k r :
  wf h t → root_ t = Some r →
  ∃ t' h', run (Remove t k) h = Ok (t', h')
    ∧ h ⊆ h' ∧ wf h' t'
    ∧ (∀ T k', value_at type_of h' (root_ t') T k'
               = if decide (k' = k) then None
                 else value_at type_of h (root_ t) T k')
    ∧ (no_dead h t → no_dead h' t')
    ∧ (¬ has_key h t k → t' = t ∧ h' = h)
    ∧ (has_key h t k →
       (∀ p ch q a n,
          k = p ++ ch :: q → node_at h r p = Some a → h !! a = Some n →
          (node_below h' (root_ t') p = None
           ↔ is_value_node_ n = false ∧ delete ch (children_ n) = ∅
             ∧ node_below h' (root_ t') (p ++ [ch]) = None))
       ∧ (∀ b n, node_at h r k = Some b → h !! b = Some n →
                 (node_below h' (root_ t') k = None ↔ children_ n = ∅))).
Proof. intros Hwf Hr. exact (wp_run _ _ _ _ (Remove_wp h t k r Hwf Hr)). Qed.

(** On the empty trie [Remove] faults at its first access, before any
    change to the heap. *)
Lemma Remove_empty_wlp (I : gmap positive (@TrieNode Val) → Prop)
    (Q : Trie → gmap positive (@TrieNode Val) → Prop) h t k :
  root_ t = None → wlp I (Remove t k) Q h.
Proof. intros Hr. unfold Remove. rewrite Hr. by destruct k. Qed.

Lemma Remove_empty h t k :
  root_ t = None → run (Remove t k) h = Fault NullDereference.
Proof. intros Hr. unfold Remove. rewrite Hr. by destruct k. Qed.

Lemma wf_later h h' t : wf h t → h ⊆ h' → closed h' → wf h' t.
Proof.
  intros [_ Hv] Hsub Hc. split; [done|]. destruct (root_ t) as [r|]; [|done].
  destruct Hv as [n Hn]. exists n. by eapply lookup_weaken.
Qed.

(** Every trie a program can hold is well formed and has no dead node. *)
Lemma built_wf_no_dead h t : built h t → wf h t ∧ no_dead h t.
Proof.
  induction 1 as [|h t k v t' h' _ [Hwf Hnd] Hrun|h t k t' h' _ [Hwf Hnd] Hrun
                  |h t u k v u' h' _ [Hwf Hnd] _ [Hwfu _] Hrun
                  |h t u k u' h' _ [Hwf Hnd] _ [Hwfu _] Hrun].
  - split; [split; [apply closed_empty|exact I]|exact I].
  - destruct (Put_spec h t k v Hwf) as (t2 & h2 & Hrun2 & _ & ? & _ & ?).
    rewrite Hrun in Hrun2. injection Hrun2 as <- <-. auto.
  - destruct (root_ t) as [r|] eqn:Hr; [|by rewrite Remove_empty in Hrun].
    destruct (Remove_spec h t k r Hwf Hr) as (t2 & h2 & Hrun2 & _ & ? & _ & ? & _).
    rewrite Hrun in Hrun2. injection Hrun2 as <- <-. auto.
  - destruct (Put_spec h u k v Hwfu) as (t2 & h2 & Hrun2 & Hsub & [Hc _] & _).
    rewrite Hrun in Hrun2. injection Hrun2 as <- <-.
    split; [by apply (wf_later h)|].
    destruct Hwf as [Hc0 Hv]. unfold no_dead in *.
    destruct (root_ t) as [r|]; [|done]. by apply (no_dead_from_mono h).
  - destruct (root_ u) as [ru|] eqn:Hr; [|by rewrite Remove_empty in Hrun].
    destruct (Remove_spec h u k ru Hwfu Hr) as (t2 & h2 & Hrun2 & Hsub & [Hc _] & _).
    rewrite Hrun in Hrun2. injection Hrun2 as <- <-.
    split; [by apply (wf_later h)|].
    destruct Hwf as [Hc0 Hv]. unfold no_dead in *.
    destruct (root_ t) as [r|]; [|done]. by apply (no_dead_from_mono h).
Qed.

(** An older trie reads the same in a heap that has grown. *)
Lemma Get_later h h' t T k :
  wf h t → h ⊆ h' →
  eval (Get type_of t T k) h' = eval (Get type_of t T k) h.
Proof. intros Hwf Hsub. unfold eval. by rewrite (Get_run h h'), (Get_run h h). Qed.

Lemma Get_walk_Some h a k b :
  node_at h a k = Some b → run (Get_walk a k) h = Ok (Some b, h).
Proof.
  revert a. induction k as [|ch k IH]; intros a Hb; simpl in *; [by injection Hb as <-|].
  destruct (h !! a) as [n|]; [|done]. simpl in *.
  destruct (children_ n !! ch) as [c|]; [|done]. by apply IH.
Qed.

Lemma Get_walk_missing h a p ch s b n :
  node_at h a p = Some b → h !! b = Some n → children_ n !! ch = None →
  run (Get_walk a (p ++ ch :: s)) h = Ok (None, h).
Proof.
  revert a. induction p as [|ch' p IH]; intros a Hb Hn Hch; simpl in *.
  - injection Hb as <-. by rewrite Hn, Hch.
  - destruct (h !! a) as [m|]; [|done]. simpl in *.
    destruct (children_ m !! ch') as [c|]; [|done]. by apply IH.
Qed.

(** ** The claims *)

(** C1 (round trip).  On every well-formed trie, empty or not, with any key,
    the empty key included, and whatever the key held before, [Put k v]
    returns a trie in which [Get<T> k], for [T] the type of [v], is [v]. *)
Theorem Put_Get_round_trip h t k v :
  wf h t →
  ∃ t' h', run (Put t k v) h = Ok (t', h')
           ∧ eval (Get type_of t' (type_of v) k) h' = Ok (Some v).
Proof.
  intros Hwf.
  destruct (Put_spec h t k v Hwf) as (t' & h' & Hrun & _ & Hwf' & Hval & _).
  exists t', h'. split; [done|].
  rewrite (Get_value_at _ _ _ _ Hwf'), Hval, decide_True by done.
  simpl. by rewrite decide_True.
Qed.

(** C3 (the receiver is not mutated).  [Put] leaves every object of the
    heap it started in as it was, edges and value, and so every [Get] on
    the trie it was called on returns what it returned before. *)
Theorem Put_leaves_receiver h t k v :
  wf h t →
  ∃ t' h', run (Put t k v) h = Ok (t', h')
           ∧ (∀ a n, h !! a = Some n → h' !! a = Some n)
           ∧ (∀ T k', eval (Get type_of t T k') h' = eval (Get type_of t T k') h).
Proof.
  intros Hwf.
  destruct (Put_spec h t k v Hwf) as (t' & h' & Hrun & Hsub & _).
  exists t', h'. split_and!; [done| |].
  - intros a n Hn. by eapply lookup_weaken.
  - intros T k'. by apply Get_later.
Qed.

(** C5 (frame of [Put]).  In the trie [Put k v] returns, every key other
    than [k] reads, at every type, what it read in the trie [Put] was
    called on. *)
Theorem Put_other_keys h t k v :
  wf h t →
  ∃ t' h', run (Put t k v) h = Ok (t', h')
           ∧ ∀ T k', k' ≠ k → eval (Get type_of t' T k') h'
                                = eval (Get type_of t T k') h.
Proof.
  intros Hwf.
  destruct (Put_spec h t k v Hwf) as (t' & h' & Hrun & _ & Hwf' & Hval & _).
  exists t', h'. split; [done|]. intros T k' Hne.
  by rewrite (Get_value_at _ _ _ _ Hwf'), (Get_value_at _ _ _ _ Hwf), Hval, decide_False.
Qed.

(** C6 (type mismatch).  If [Get<T1> k] finds a value, then [Get<T2> k] for
    any other type [T2] returns null, the result for a missing key, and
    does not fault. *)
Theorem Get_type_mismatch h t k T1 T2 v :
  eval (Get type_of t T1 k) h = Ok (Some v) → T2 ≠ T1 →
  eval (Get type_of t T2 k) h = Ok None.
Proof.
  unfold eval, Get. intros Hget Hne.
  destruct (root_ t) as [r|]; [|done].
  rewrite run_bind in Hget |- *.
  destruct (run (Get_walk r k) h) as [[[b|] h1]|]; [|done..].
  simpl in *. destruct (h1 !! b) as [n|]; [|done].
  destruct n as [c|c w]; simpl in *; [done|].
  destruct (decide (type_of w = T1)) as [<-|]; [|done].
  by rewrite decide_False.
Qed.

(** C7 (the empty key).  [Put] with the empty key allocates a new root, a
    value node that holds the value and has the very children map of the
    old root (no children for the empty trie).  No object of the old heap
    changes, the empty key reads the value in the new trie, every other key
    reads there what it read in the old trie, and the old trie reads as
    before. *)
Theorem Put_empty_key h t v :
  wf h t →
  ∃ a h', run (Put t [] v) h = Ok (mkTrie (Some a), h')
          ∧ h !! a = None
          ∧ h' !! a = Some (NodeWithValue (root_children h t) v)
          ∧ (∀ b n, h !! b = Some n → h' !! b = Some n)
          ∧ eval (Get type_of (mkTrie (Some a)) (type_of v) []) h' = Ok (Some v)
          ∧ (∀ T ch k', eval (Get type_of (mkTrie (Some a)) T (ch :: k')) h'
                        = eval (Get type_of t T (ch :: k')) h)
          ∧ (∀ T k', eval (Get type_of t T k') h' = eval (Get type_of t T k') h).
Proof.
  intros Hwf.
  destruct (Put_spec h t [] v Hwf) as (t' & h' & Hrun & Hsub & Hwf' & Hval & _).
  assert (Hshape : t' = mkTrie (Some (fresh (dom h)))
                   ∧ h' = <[fresh (dom h) := NodeWithValue (root_children h t) v]> h).
  { destruct Hwf as [_ Hv]. unfold Put, root_children in *.
    destruct (root_ t) as [r|]; simpl in *.
    - destruct Hv as [o Ho]. rewrite Ho in Hrun |- *.
      by injection Hrun as <- <-.
    - by injection Hrun as <- <-. }
  destruct Hshape as [-> ->].
  exists (fresh (dom h)), (<[fresh (dom h) := NodeWithValue (root_children h t) v]> h).
  split_and!; [done|apply fresh_lookup|by rewrite lookup_insert_eq| | | |].
  - intros b n Hn. by eapply lookup_weaken.
  - rewrite (Get_value_at _ _ _ _ Hwf'), Hval, decide_True by done.
    simpl. by rewrite decide_True.
  - intros T ch k'.
    by rewrite (Get_value_at _ _ _ _ Hwf'), (Get_value_at _ _ _ _ Hwf), Hval, decide_False.
  - intros T k'. by apply Get_later.
Qed.

(** C8 (absent keys).  [Get] returns null when the trie is empty, whatever
    the key, the empty key included; when an edge is missing at some step
    of the walk, which takes one edge per character; and when the walk ends
    on a node that holds no value. *)
Theorem Get_absent h t T k :
  absent h t k → eval (Get type_of t T k) h = Ok None.
Proof.
  unfold eval, Get.
  intros [Hr|[(r & p & ch & s & b & n & Hr & -> & Hb & Hn & Hch)
             |(r & b & n & Hr & Hb & Hn & Hv)]]; rewrite Hr; [done| |].
  - by rewrite run_bind, (Get_walk_missing _ _ _ _ _ _ _ Hb Hn Hch).
  - rewrite run_bind, (Get_walk_Some _ _ _ _ Hb). simpl. rewrite Hn. by rewrite Hv.
Qed.

(** C2, on the failing input.  [Remove] on the empty trie dereferences the
    null root, at line 110 when the key has a first character and at line
    118 when it has none. *)
Theorem Remove_empty_trie_faults (h : gmap positive (@TrieNode Val)) k :
  run (Remove empty_trie k) h = Fault NullDereference.
Proof. by apply Remove_empty. Qed.

(** What C2 says does hold on a trie that is not empty. *)
Lemma Remove_absent_no_op h t k r :
  wf h t → root_ t = Some r → ¬ has_key h t k → run (Remove t k) h = Ok (t, h).
Proof.
  intros Hwf Hr Hno.
  destruct (Remove_spec h t k r Hwf Hr) as (t' & h' & Hrun & _ & _ & _ & _ & Hnoop & _).
  by destruct (Hnoop Hno) as [-> ->].
Qed.

(** C10 (frame of [Remove]).  Removing a key the trie has returns a trie in
    which every other key, prefixes and extensions of the removed key
    included, reads at every type what it read before. *)
Theorem Remove_other_keys h t k :
  wf h t → has_key h t k →
  ∃ t' h', run (Remove t k) h = Ok (t', h')
           ∧ ∀ T k', k' ≠ k → eval (Get type_of t' T k') h'
                                = eval (Get type_of t T k') h.
Proof.
  intros Hwf Hk. pose proof Hk as (r & _ & _ & Hr & _).
  destruct (Remove_spec h t k r Hwf Hr) as (t' & h' & Hrun & _ & Hwf' & Hval & _).
  exists t', h'. split; [done|]. intros T k' Hne.
  by rewrite (Get_value_at _ _ _ _ Hwf'), (Get_value_at _ _ _ _ Hwf), Hval, decide_False.
Qed.

(** C4 (pruning).  Let a trie be built from the empty trie by [Put] and
    [Remove], and let it hold a value at [k].  Then [Remove k] returns a
    trie in which every reachable node has a value or a child.  Along the
    walk to [k] the new trie lacks the terminal node exactly when the old
    one had no children, and lacks the node at a proper prefix exactly
    when the old node there holds no value, has no edge but the one
    towards [k], and the node below it is lacking too; at the empty prefix
    this says when the result is the empty trie. *)
Theorem Remove_prunes h t k :
  built h t → has_key h t k →
  ∃ t' h', run (Remove t k) h = Ok (t', h')
    ∧ no_dead h' t'
    ∧ (∀ b n, node_below h (root_ t) k = Some b → h !! b = Some n →
              (node_below h' (root_ t') k = None ↔ children_ n = ∅))
    ∧ (∀ p ch q a n,
         k = p ++ ch :: q → node_below h (root_ t) p = Some a → h !! a = Some n →
         (node_below h' (root_ t') p = None
          ↔ is_value_node_ n = false ∧ delete ch (children_ n) = ∅
            ∧ node_below h' (root_ t') (p ++ [ch]) = None)).
Proof.
  intros Hb Hk. destruct (built_wf_no_dead h t Hb) as [Hwf Hnd].
  pose proof Hk as (r & _ & _ & Hr & _).
  destruct (Remove_spec h t k r Hwf Hr)
    as (t' & h' & Hrun & _ & _ & _ & Hdead & _ & Hpath).
  destruct (Hpath Hk) as [Hinner Hterm].
  exists t', h'. rewrite Hr. by split_and!; auto.
Qed.

End TrieProofs.

(** * Proofs about the store *)

Section StoreProofs.
Context {TypeId : Type} `{EqDecision TypeId} {Val : Type} (type_of : Val → TypeId).
Implicit Types (h : gmap positive (@TrieNode Val)).
Implicit Types (vs : list (Trie * gmap positive (@TrieNode Val))).
Implicit Types (s : @store TypeId Val) (th : @thread TypeId Val).

Lemma Get_walk_reads_only (a : positive) (k : list ascii) :
  reads_only (Get_walk (Val := Val) a k).
Proof.
  revert a. induction k as [|ch k IH]; intros a; simpl; [done|].
  intros n. destruct (children_ n !! ch); [apply IH|done].
Qed.

Lemma reads_only_bind {A B} (m : @prog Val A) (f : A → @prog Val B) :
  reads_only m → (∀ x, reads_only (f x)) → reads_only (bind m f).
Proof. induction m; simpl; intros Hm Hf; try done; auto. Qed.

Lemma Get_reads_only t T k : reads_only (Get type_of t T k).
Proof.
  unfold Get. destruct (root_ t) as [r|]; [|done].
  apply reads_only_bind; [apply Get_walk_reads_only|].
  intros [node|]; [|done]. simpl. intros n. by destruct (negb _).
Qed.

(** A lookup that has read an object of the version it works on goes on as
    it would in any heap that contains the version. *)
Lemma lookup_step {A} hp h p (κ : TrieNode → @prog Val A) r n :
  (∀ h', hp ⊆ h' → eval (Deref p κ) h' = Ok r) →
  hp ⊆ h → read h p = Ok n →
  ∀ h', hp ⊆ h' → eval (κ n) h' = Ok r.
Proof.
  intros Hall Hsub Hn h' Hsub'.
  pose proof (Hall hp (reflexivity _)) as H0. unfold eval in H0. simpl in H0.
  destruct p as [a|]; [|done]. simpl in *.
  destruct (hp !! a) as [n0|] eqn:Ha; [|done].
  rewrite (lookup_weaken _ _ _ _ Ha Hsub) in Hn. injection Hn as <-.
  specialize (Hall h' Hsub'). unfold eval in Hall. simpl in Hall.
  by rewrite (lookup_weaken _ _ _ _ Ha Hsub') in Hall.
Qed.

Lemma thread_ok_frame h h' vs vs' wl wl' rl rl' j th :
  thread_ok type_of h vs wl rl j th →
  vs `prefix_of` vs' →
  (wl' = Some j ↔ wl = Some j) → (rl' = Some j ↔ rl = Some j) →
  (h' = h ∧ vs' = vs) ∨ holds_write_lock (at_ th) = false →
  thread_ok type_of h' vs' wl' rl' j th.
Proof.
  intros (Hcode & Hw & Hr & Hsince & Hsnap & Hget & Hput & Hnew & Hret) Hpre Hwl Hrl Hsame.
  split_and!; [done|by rewrite Hwl|by rewrite Hrl| | | | | |].
  - apply prefix_length in Hpre. lia.
  - intros Hat. destruct (Hsnap Hat) as (n & hp & ? & Hn).
    exists n, hp. split; [done|]. by eapply prefix_lookup_Some.
  - intros Hat. destruct (Hget Hat) as (T & k & n & hp & r & ? & ? & Hn & ? & ? & ?).
    exists T, k, n, hp, r. split_and!; try done. by eapply prefix_lookup_Some.
  - intros Hat. destruct Hsame as [[-> ->]|Hno]; [by apply Hput|].
    by rewrite Hat in Hno.
  - intros Hat. destruct Hsame as [[-> ->]|Hno]; [by apply Hnew|].
    by destruct Hat as [Hat|Hat]; rewrite Hat in Hno.
  - intros r Hr'. destruct (Hret r Hr') as (T & k & n & hp & ? & ? & ? & Hn & ?).
    exists T, k, n, hp. split_and!; [done..| |done]. by eapply prefix_lookup_Some.
Qed.

Lemma new_store_inv : store_inv type_of new_store.
Proof.
  split_and!; cbn -[closed wf]; try done.
  - intros [|n] t hp Hn; [|done]. injection Hn as <- <-.
    split; [|done]. split; [apply closed_empty|exact I].
  - by exists ∅.
Qed.

Lemma spawn_inv s c : store_inv type_of s → store_inv type_of (spawn c s).
Proof.
  intros (Hc & Hvs & Hlast & Hwl & Hrl & Hths).
  split_and!; cbn -[closed wf]; try done.
  - intros i Hi. rewrite length_app. specialize (Hwl i Hi). lia.
  - intros i Hi. rewrite length_app. specialize (Hrl i Hi). lia.
  - intros i th Hi. apply lookup_app_Some in Hi as [Hi|[Hlen Hi]]; [by apply Hths|].
    apply list_lookup_singleton_Some in Hi as [Hi <-].
    assert (i = length (threads s)) as -> by lia.
    destruct Hlast as [hp Hlast].
    assert (0 < length (versions s)) by (destruct (versions s); simpl in *; [done|lia]).
    split_and!; cbn -[closed wf].
    + by destruct c.
    + split; [by destruct c|]. intros Hl. apply Hwl in Hl. lia.
    + split; [by destruct c|]. intros Hl. apply Hrl in Hl. lia.
    + lia.
    + intros [?|[?|[?|?]]]; by destruct c.
    + by destruct c.
    + by destruct c.
    + intros [?|?]; by destruct c.
    + done.
Qed.

(** A step of thread [i] keeps the invariant if it keeps it for [i], keeps
    every version in the heap, lets the list of versions only grow, does
    not touch a lock another thread holds and, when it changes the heap or
    adds a version, holds [write_lock_]. *)
Lemma store_inv_update s i th th' h' r' rl' wl' ext :
  store_inv type_of s → threads s !! i = Some th →
  closed h' →
  (∀ n t hp, versions s !! n = Some (t, hp) → hp ⊆ h') →
  (∀ t hp, (t, hp) ∈ ext → wf hp t ∧ hp ⊆ h') →
  (∃ hp, last (versions s ++ ext) = Some (r', hp)) →
  (∀ j, j ≠ i → (wl' = Some j ↔ write_lock_ s = Some j)) →
  (∀ j, j ≠ i → (rl' = Some j ↔ root_lock_ s = Some j)) →
  (h' = heap s ∧ ext = []) ∨ write_lock_ s = Some i →
  thread_ok type_of h' (versions s ++ ext) wl' rl' i th' →
  store_inv type_of
    (mkStore h' r' rl' wl' (<[i := th']> (threads s)) (versions s ++ ext)).
Proof.
  intros (Hc & Hvs & Hlast & Hwl & Hrl & Hths) Hi Hc' Hsub Hext Hlast' Hwl' Hrl'
    Hsame Hok.
  pose proof (lookup_lt_Some _ _ _ Hi) as Hlt.
  split_and!; cbn -[closed wf]; try done.
  - intros n t hp Hn. apply lookup_app_Some in Hn as [Hn|[_ Hn]].
    + destruct (Hvs n t hp Hn) as [? ?]. split; [done|by eapply Hsub].
    + apply Hext. by eapply list_elem_of_lookup_2.
  - intros j Hj. rewrite length_insert.
    destruct (decide (j = i)) as [->|Hne]; [done|]. apply Hwl. by apply Hwl'.
  - intros j Hj. rewrite length_insert.
    destruct (decide (j = i)) as [->|Hne]; [done|]. apply Hrl. by apply Hrl'.
  - intros j thj Hj. destruct (decide (i = j)) as [<-|Hne].
    + rewrite list_lookup_insert_eq in Hj by done. by injection Hj as <-.
    + rewrite list_lookup_insert_ne in Hj by done.
      eapply thread_ok_frame; [by apply Hths|by apply prefix_app_r|auto|auto|].
      destruct Hsame as [[-> ->]|Hwi]; [left; by rewrite app_nil_r|right].
      destruct (Hths j thj Hj) as (_ & Hw & _).
      destruct (holds_write_lock (at_ thj)); [|done].
      assert (write_lock_ s = Some j) by (by apply Hw). congruence.
Qed.

Lemma store_inv_update_same s i th th' rl' wl' :
  store_inv type_of s → threads s !! i = Some th →
  (∀ j, j ≠ i → (wl' = Some j ↔ write_lock_ s = Some j)) →
  (∀ j, j ≠ i → (rl' = Some j ↔ root_lock_ s = Some j)) →
  thread_ok type_of (heap s) (versions s) wl' rl' i th' →
  store_inv type_of
    (mkStore (heap s) (store_root_ s) rl' wl' (<[i := th']> (threads s)) (versions s)).
Proof.
  intros Hinv Hi Hwl' Hrl' Hok.
  rewrite <- (app_nil_r (versions s)) in Hok |- * at 1.
  eapply store_inv_update; try done.
  - apply Hinv.
  - intros n t hp Hn. by eapply Hinv.
  - intros t hp Hin. by apply elem_of_nil in Hin.
  - rewrite app_nil_r. apply Hinv.
  - by left.
Qed.

Lemma store_inv_update_heap s i th th' h' :
  store_inv type_of s → threads s !! i = Some th →
  closed h' →
  (∀ n t hp, versions s !! n = Some (t, hp) → hp ⊆ h') →
  write_lock_ s = Some i →
  thread_ok type_of h' (versions s) (write_lock_ s) (root_lock_ s) i th' →
  store_inv type_of
    (mkStore h' (store_root_ s) (root_lock_ s) (write_lock_ s)
             (<[i := th']> (threads s)) (versions s)).
Proof.
  intros Hinv Hi Hc' Hsub Hwl Hok.
  rewrite <- (app_nil_r (versions s)) in Hok |- * at 1.
  eapply store_inv_update; try done.
  - intros t hp Hin. by apply elem_of_nil in Hin.
  - rewrite app_nil_r. apply Hinv.
  - by right.
Qed.

Lemma last_version vs t hp :
  last vs = Some (t, hp) → vs !! (length vs - 1) = Some (t, hp).
Proof. intros Hl. rewrite last_lookup in Hl. by rewrite Nat.sub_1_r. Qed.

Ltac other_locks :=
  let j := fresh "j" in let Hj := fresh "Hj" in
  intros j Hj;
  repeat match goal with
         | H : _ = true ↔ _ = Some _ |- _ =>
             first [ rewrite (proj1 H eq_refl) | clear H ]
         end;
  by (split; intros ?; simplify_eq).

Ltac thread_goal :=
  repeat match goal with
         | H : store_inv _ _ |- _ => clear H
         | H : ∀ i th, _ !! i = Some th → thread_ok _ _ _ _ _ _ _ |- _ => clear H
         | H : ∀ i, _ = Some i → i < _ |- _ => clear H
         | H : ∀ n t hp, _ !! n = Some (t, hp) → _ |- _ => clear H
         | H : _ !! _ = Some (mkThread _ _ _ _ _ _ _) |- _ => clear H
         end;
  split_and!; cbn -[closed wf] in *;
  first [ done | assumption | lia
        | match goal with c : call |- _ => by destruct c end
        | by (split; intros; (done || congruence))
        | by (intros; destruct_or?; first [done | eauto 6])
        | idtac ].

Lemma step_inv s i s' :
  store_inv type_of s → step type_of i s = Some s' → store_inv type_of s'.
Proof.
  intros Hinv Hstep. unfold step in Hstep.
  destruct (threads s !! i) as [th|] eqn:Hi; [|done].
  pose proof Hinv as (Hc & Hvs & Hlast & Hwl & Hrl & Hths).
  destruct (Hths i th Hi)
    as (Hcode & Hw & Hr & Hsince & Hsnap & Hget & Hput & Hnew & Hret).
  destruct th as [c p rt lk up pv sn]. cbn -[closed wf] in *.
  assert (Hpv : p ≠ Returned → pv = None).
  { intros Hp. destruct pv as [r|]; [|done].
    by destruct (Hret r eq_refl) as (? & ? & ? & ? & ? & _). }
  assert (Hlatest : ∃ hp, sn ≤ length (versions s) - 1
                          ∧ versions s !! (length (versions s) - 1)
                            = Some (store_root_ s, hp)).
  { destruct Hlast as [hp Hl]. exists hp. split; [lia|by apply last_version]. }
  destruct Hlatest as (hp0 & Hsn0 & Hhp0).
  destruct p; cbn -[closed wf advance] in Hstep; try done.
  - (* G27 *)
    destruct (root_lock_ s) as [?|] eqn:Hrl0; [done|]. injection Hstep as <-.
    eapply store_inv_update_same; [done..|other_locks|rewrite Hrl0; other_locks|].
    rewrite Hpv in * by done. thread_goal.
  - (* G29 *)
    injection Hstep as <-.
    eapply store_inv_update_same; [done..|other_locks|other_locks|].
    rewrite Hpv in * by done. thread_goal.
  - (* G31 *)
    injection Hstep as <-.
    eapply store_inv_update_same; [done..|other_locks|other_locks|].
    rewrite Hpv in * by done. thread_goal.
  - (* G34 *)
    destruct c as [T k| |]; [|done..]. injection Hstep as <-.
    eapply store_inv_update_same; [done..|other_locks|other_locks|].
    destruct Hsnap as (n & hp & Hn & Hv); [by left|].
    destruct (Hvs n rt hp Hv) as [Hwf Hsub].
    rewrite Hpv in * by done. thread_goal.
    intros _. exists T, k, n, hp, (value_at type_of hp (root_ rt) T k).
    split_and!; try done.
    + by apply Get_value_at.
    + apply Get_reads_only.
    + intros h' Hsub'. unfold eval. by rewrite (Get_run type_of hp h').
  - (* G34call *)
    destruct Hget as (T & k & n & hp & r & -> & Hn & Hv & Hr0 & Hro & Hall); [done|].
    destruct (Hvs n rt hp Hv) as [Hwf Hsub].
    rewrite Hpv in * by done.
    destruct lk as [r'|a κ|? ?|? ? ?|?]; cbn -[closed wf] in Hstep; try done.
    + (* the call returns *)
      injection Hstep as <-.
      eapply store_inv_update_same; [done..|other_locks|other_locks|].
      specialize (Hall hp (reflexivity _)). injection Hall as ->.
      thread_goal. intros ? [= <-]. by exists T, k, n, hp.
    + (* the call reads an object *)
      destruct (read (heap s) a) as [m|] eqn:Hm; [|done]. injection Hstep as <-.
      eapply store_inv_update_same; [done..|other_locks|other_locks|].
      pose proof (lookup_step hp (heap s) a κ r m Hall Hsub Hm) as Hall'.
      thread_goal. intros _. exists T, k, n, hp, r. by split_and!.
  - (* W51 *)
    destruct (write_lock_ s) as [?|] eqn:Hwl0; [done|]. injection Hstep as <-.
    eapply store_inv_update_same; [done..|rewrite Hwl0; other_locks|other_locks|].
    rewrite Hpv in * by done. thread_goal.
  - (* W53 *)
    destruct (root_lock_ s) as [?|] eqn:Hrl0; [done|]. injection Hstep as <-.
    eapply store_inv_update_same; [done..|other_locks|rewrite Hrl0; other_locks|].
    rewrite Hpv in * by done. thread_goal.
  - (* W55 *)
    injection Hstep as <-.
    eapply store_inv_update_same; [done..|other_locks|other_locks|].
    rewrite Hpv in * by done. thread_goal.
  - (* W57 *)
    injection Hstep as <-.
    eapply store_inv_update_same; [done..|other_locks|other_locks|].
    rewrite Hpv in * by done. thread_goal.
  - (* W59 *)
    destruct Hsnap as (n & hp & Hn & Hv); [by auto|].
    destruct (Hvs n rt hp Hv) as [Hwf0 Hsub0].
    assert (Hwf : wf (heap s) rt) by (by apply (wf_later hp)).
    assert (Hcall : ∀ m, m = match c with
                             | CallPut k v => Put rt k v
                             | CallRemove k => Remove rt k
                             | CallGet _ _ => Done rt
                             end →
                         wlp (grows (heap s)) m (λ t' h', wf h' t') (heap s)).
    { intros m ->. destruct c as [T k|k v|k]; [done| |].
      - apply wp_wlp. eapply wp_mono; [|by apply (Put_wp type_of)].
        by intros t' h' (_ & ? & _).
      - destruct (root_ rt) as [r|] eqn:Hroot; [|by apply Remove_empty_wlp].
        apply wp_wlp. eapply wp_mono; [|by apply (Remove_wp type_of _ _ _ r)].
        by intros t' h' (_ & ? & _). }
    assert (Hfin : ∀ m, m = match c with
                            | CallPut k v => Put rt k v
                            | CallRemove k => Remove rt k
                            | CallGet _ _ => Done rt
                            end →
                        ∃ hs, (∀ n t hp, versions s !! n = Some (t, hp) → hp ⊆ hs)
                              ∧ wlp (grows hs) m (λ t' h', wf h' t') (heap s)).
    { intros m Hm. exists (heap s). split; [intros; by eapply Hvs|by apply Hcall]. }
    clear Hcall. rewrite Hpv in * by done.
    destruct c as [T k|k v|k]; [done| |]; injection Hstep as <-.
    all: eapply store_inv_update_same; [done..|other_locks|other_locks|].
    all: thread_goal.
    all: intros _; by apply Hfin.
  - (* W59call *)
    destruct Hput as (hs & Hhs & Hwlp); [done|].
    assert (Hwi : write_lock_ s = Some i) by (by apply Hw).
    rewrite Hpv in * by done.
    assert (Hup : (∃ t', up = Done t') ∨ ¬ (∃ t', up = Done t')).
    { destruct up; [left; eauto|right; intros [? ?]; done..]. }
    destruct Hup as [[t' ->]|Hrun].
    + (* the call returns *)
      cbn -[closed wf] in Hstep. injection Hstep as <-.
      eapply store_inv_update_same; [done..|other_locks|other_locks|].
      cbn -[closed wf] in Hwlp. thread_goal.
    + (* the call makes one access to the heap *)
      assert (Hadv : ∃ m' h', advance up (heap s) = Some (Ok (m', h'))
                              ∧ s' = mkStore h' (store_root_ s) (root_lock_ s) (write_lock_ s)
                                       (<[i := set_update m'
                                                 (mkThread c W59call rt lk up None sn)]>
                                          (threads s)) (versions s)).
      { destruct up as [t'|? ?|? ?|? ? ?|?]; [destruct Hrun; eauto|..];
          cbn -[closed wf] in Hstep |- *; repeat case_match; simplify_eq; eauto. }
      destruct Hadv as (m' & h' & Hadv & ->).
      destruct (wlp_advance _ _ _ _ _ _ Hwlp Hadv) as [Hwlp' Hh'].
      assert (Hh : closed h' ∧ ∀ n t hp, versions s !! n = Some (t, hp) → hp ⊆ h').
      { destruct Hh' as [->|[Hsub Hcl]].
        - split; [done|]. intros n t hp Hn. by eapply Hvs.
        - split; [done|]. intros n t hp Hn. etrans; [by eapply Hhs|done]. }
      destruct Hh as [Hcl' Hsub'].
      assert (Hfin : ∃ hs, (∀ n t hp, versions s !! n = Some (t, hp) → hp ⊆ hs)
                           ∧ wlp (grows hs) m' (λ t' h', wf h' t') h')
        by (by exists hs).
      eapply store_inv_update_heap; [done|done|done|apply Hsub'|done|].
      thread_goal.
  - (* W61 *)
    destruct (root_lock_ s) as [?|] eqn:Hrl0; [done|]. injection Hstep as <-.
    eapply store_inv_update_same; [done..|other_locks|rewrite Hrl0; other_locks|].
    rewrite Hpv in * by done. thread_goal.
  - (* W63 *)
    injection Hstep as <-.
    assert (Hwi : write_lock_ s = Some i) by (by apply Hw).
    assert (Hsub : ∀ n t hp, versions s !! n = Some (t, hp) → hp ⊆ heap s)
      by (intros; by eapply Hvs).
    eapply store_inv_update;
      [done|done|done|apply Hsub| | |other_locks|other_locks|by right|].
    + intros t hp Hin. apply list_elem_of_singleton in Hin as [= -> ->].
      split; [by auto|done].
    + eexists. by rewrite last_snoc.
    + rewrite Hpv in * by done.
      thread_goal. rewrite length_app. lia.
  - (* W65 *)
    injection Hstep as <-.
    eapply store_inv_update_same; [done..|other_locks|other_locks|].
    rewrite Hpv in * by done. thread_goal.
  - (* W67 *)
    injection Hstep as <-.
    eapply store_inv_update_same; [done..|other_locks|other_locks|].
    rewrite Hpv in * by done. thread_goal.
Qed.

Lemma run_inv es s :
  store_inv type_of s → store_inv type_of (run_store type_of es s).
Proof.
  revert s. induction es as [|[c|i] es IH]; intros s Hinv; simpl; [done|..].
  - by apply IH, spawn_inv.
  - destruct (step type_of i s) as [s'|] eqn:Hstep; [|by apply IH].
    by apply IH, (step_inv s i).
Qed.

(** A thread in the code steps unless it waits for a mutex, has returned,
    or is about to fault inside a call. *)
Lemma step_unless_blocked s i th :
  threads s !! i = Some th → in_code (op th) (at_ th) = true →
  at_ th ≠ Returned →
  (at_ th = G27 ∨ at_ th = W53 ∨ at_ th = W61 → root_lock_ s = None) →
  (at_ th = W51 → write_lock_ s = None) →
  (at_ th = G34call →
   (∃ y, lookup th = Done y) ∨ ∃ m' h1, advance (lookup th) (heap s) = Some (Ok (m', h1))) →
  (at_ th = W59call →
   (∃ y, update th = Done y) ∨ ∃ m' h1, advance (update th) (heap s) = Some (Ok (m', h1))) →
  is_Some (step type_of i s).
Proof.
  intros Hi Hcode Hret Hrl Hwl Hlk Hup. unfold step. rewrite Hi.
  destruct th as [c p rt lk up pv sn]. cbn -[advance] in *.
  destruct p; cbn -[advance]; try done.
  - rewrite Hrl by auto. by eexists.
  - by destruct c.
  - destruct Hlk as [[y ->]|(m' & h1 & Hadv)]; [done|by eexists|].
    destruct lk; cbn -[advance]; [by eexists|rewrite Hadv; by eexists..].
  - rewrite Hwl by auto. by eexists.
  - rewrite Hrl by auto. by eexists.
  - by destruct c.
  - destruct Hup as [[y ->]|(m' & h1 & Hadv)]; [done|by eexists|].
    destruct up; cbn -[advance]; [by eexists|rewrite Hadv; by eexists..].
  - rewrite Hrl by auto. by eexists.
Qed.

(** The program points between a lock and an unlock of [root_lock_], of
    [write_lock_]. *)
Lemma holds_root_lock_points (p : pc) :
  holds_root_lock p = true ↔ p ∈ [G29; G31; W55; W57; W63; W65].
Proof.
  destruct p; simpl; (split; [try done; intros _|try done; intros H]).
  all: try (repeat first [apply list_elem_of_here | apply list_elem_of_further]; fail).
  all: repeat (apply elem_of_cons in H as [H|H]; [done|]); by apply elem_of_nil in H.
Qed.

Lemma holds_write_lock_points (p : pc) :
  holds_write_lock p = true
  ↔ p ∈ [W53; W55; W57; W59; W59call; W61; W63; W65; W67].
Proof.
  destruct p; simpl; (split; [try done; intros _|try done; intros H]).
  all: try (repeat first [apply list_elem_of_here | apply list_elem_of_further]; fail).
  all: repeat (apply elem_of_cons in H as [H|H]; [done|]); by apply elem_of_nil in H.
Qed.

(** Whoever holds [root_lock_] has released it after two steps of its
    own: the copy of [root_] or the assignment to it, and the unlock. *)
Lemma root_lock_released s j :
  store_inv type_of s → root_lock_ s = Some j →
  root_lock_ (run_store type_of [Run j; Run j] s) = None.
Proof.
  intros (_ & _ & _ & _ & Hrl & Hths) Hl.
  destruct (lookup_lt_is_Some_2 (threads s) j (Hrl j Hl)) as [th Hj].
  pose proof (lookup_lt_Some _ _ _ Hj) as Hlt.
  destruct (Hths j th Hj) as (Hcode & _ & Hr & _).
  assert (Hh : holds_root_lock (at_ th) = true) by (by apply Hr).
  destruct th as [c p rt lk up pv sn]. cbn -[closed wf] in Hh, Hcode.
  destruct p; try done; cbn [run_store];
    (destruct (step type_of j s) as [s1|] eqn:Hs1; unfold step in Hs1;
     rewrite Hj in Hs1; cbn in Hs1; [injection Hs1 as <-|done]);
    unfold step; cbn [threads]; rewrite list_lookup_insert_eq by done; cbn;
    try done; by destruct c.
Qed.

(** C9 (snapshots and the single writer).  Threads call [Get], [Put] and
    [Remove] on one store; a step of a thread is one statement of the
    store's functions or, inside the call of [Trie::Get], [Trie::Put] or
    [Trie::Remove], one access to the heap, and the steps of the threads
    interleave in any order.  In every state of every such run:
    at most one thread is between the lock and the unlock of [write_lock_],
    that is, inside the computation and publication of a new root;
    at most one thread is between a lock and an unlock of [root_lock_],
    where all reads and writes of [root_] happen, so no copy of [root_]
    overlaps an assignment to it;
    [root_] is the latest version;
    the trie a [Get] works on is a version of [root_] that was current when
    the call began or became current later, its objects are in the heap as
    they were at that moment, and it reads now what it read then, whatever
    a writer has allocated or written since;
    a lookup that is under way ends, from the heap as it is now, with the
    result of the whole lookup in that version;
    what a [Get] has returned is the lookup in such a version;
    a [Get] that has not returned can take its next step whenever no
    other thread holds [root_lock_], whoever holds [write_lock_] and
    however far the writer's call has got;
    a thread holds [root_lock_] exactly when it is at the copy of [root_]
    (lines 29, 55), at the assignment to [root_] (line 63) or at the unlock
    after either, and holds [write_lock_] exactly when it is between lines
    53 and 67, so [root_lock_] is never held during a call of [Trie::Get],
    [Trie::Put] or [Trie::Remove];
    and whoever holds [root_lock_] can take its next step and has released
    the lock after two steps of its own, so a [Get] that arrives while a
    writer computes or publishes waits for at most those two steps. *)
Theorem TrieStore_snapshots s :
  in_some_run type_of s →
  (∀ i j thi thj,
     threads s !! i = Some thi → threads s !! j = Some thj →
     holds_write_lock (at_ thi) = true → holds_write_lock (at_ thj) = true →
     i = j)
  ∧ (∀ i j thi thj,
       threads s !! i = Some thi → threads s !! j = Some thj →
       holds_root_lock (at_ thi) = true → holds_root_lock (at_ thj) = true →
       i = j)
  ∧ (∃ hp, last (versions s) = Some (store_root_ s, hp))
  ∧ (∀ i th,
       threads s !! i = Some th → has_snapshot (at_ th) = true →
       ∃ n hp, since th ≤ n ∧ versions s !! n = Some (root th, hp)
               ∧ hp ⊆ heap s
               ∧ ∀ T k, eval (Get type_of (root th) T k) (heap s)
                        = eval (Get type_of (root th) T k) hp)
  ∧ (∀ i th,
       threads s !! i = Some th → at_ th = G34call →
       ∃ T k n hp r, op th = CallGet T k ∧ since th ≤ n
                     ∧ versions s !! n = Some (root th, hp)
                     ∧ eval (Get type_of (root th) T k) hp = Ok r
                     ∧ eval (lookup th) (heap s) = Ok r)
  ∧ (∀ i th r,
       threads s !! i = Some th → pValue th = Some r →
       ∃ T k n hp, op th = CallGet T k ∧ since th ≤ n
                   ∧ versions s !! n = Some (root th, hp)
                   ∧ eval (Get type_of (root th) T k) hp = Ok r)
  ∧ (∀ i th T k,
       threads s !! i = Some th → op th = CallGet T k → at_ th ≠ Returned →
       root_lock_ s = None ∨ root_lock_ s = Some i →
       is_Some (step type_of i s))
  ∧ (∀ i th,
       threads s !! i = Some th →
       (root_lock_ s = Some i ↔ at_ th ∈ [G29; G31; W55; W57; W63; W65])
       ∧ (write_lock_ s = Some i
          ↔ at_ th ∈ [W53; W55; W57; W59; W59call; W61; W63; W65; W67]))
  ∧ (∀ i,
       root_lock_ s = Some i →
       ∃ th, threads s !! i = Some th
             ∧ at_ th ∈ [G29; G31; W55; W57; W63; W65]
             ∧ is_Some (step type_of i s)
             ∧ root_lock_ (run_store type_of [Run i; Run i] s) = None).
Proof.
  intros [es <-].
  pose proof (run_inv es _ new_store_inv) as Hinv.
  pose proof Hinv as (Hc & Hvs & Hlast & _ & Hrlt & Hths).
  set (s := run_store type_of es new_store) in *.
  split_and!; [| |done| | | | | |].
  - intros i j thi thj Hi Hj Hwi Hwj.
    destruct (Hths i thi Hi) as (_ & Hi' & _), (Hths j thj Hj) as (_ & Hj' & _).
    apply Hi' in Hwi. apply Hj' in Hwj. congruence.
  - intros i j thi thj Hi Hj Hri Hrj.
    destruct (Hths i thi Hi) as (_ & _ & Hi' & _), (Hths j thj Hj) as (_ & _ & Hj' & _).
    apply Hi' in Hri. apply Hj' in Hrj. congruence.
  - intros i th Hi Hsnap.
    destruct (Hths i th Hi) as (_ & _ & _ & _ & Hs & _).
    destruct Hs as (n & hp & Hn & Hv); [by left|].
    destruct (Hvs n _ hp Hv) as [Hwf Hsub].
    exists n, hp. split_and!; [done..|]. intros T k. by apply Get_later.
  - intros i th Hi Hat.
    destruct (Hths i th Hi) as (_ & _ & _ & _ & _ & Hget & _).
    destruct (Hget Hat) as (T & k & n & hp & r & ? & ? & Hv & ? & _ & Hall).
    destruct (Hvs n _ hp Hv) as [Hwf Hsub].
    exists T, k, n, hp, r. split_and!; [done..|]. by apply Hall.
  - intros i th r Hi Hr.
    destruct (Hths i th Hi) as (_ & _ & _ & _ & _ & _ & _ & _ & Hret).
    destruct (Hret r Hr) as (T & k & n & hp & _ & ? & ? & ? & ?).
    by exists T, k, n, hp.
  - intros i th T k Hi Hop Hat Hlock.
    destruct (Hths i th Hi) as (Hcode & _ & Hrl & _ & Hs & Hget & _).
    unfold step. rewrite Hi. cbn -[closed wf]. rewrite Hop in Hcode |- *.
    destruct (at_ th) eqn:Hpc; try done; cbn -[closed wf] in *.
    + destruct Hlock as [->|Hl]; [by eexists|]. apply Hrl in Hl. done.
    + destruct (Hget eq_refl) as (? & ? & n & hp & r & _ & _ & Hv & _ & Hro & Hall).
      destruct (Hvs n _ hp Hv) as [Hwf Hsub].
      specialize (Hall (heap s) Hsub). unfold eval in Hall.
      destruct (lookup th) as [r'|a κ|? ?|? ? ?|?]; cbn in *; try done.
      destruct (read (heap s) a); [by eexists|done].
  - intros i th Hi. destruct (Hths i th Hi) as (_ & Hw & Hr & _).
    by rewrite <- holds_root_lock_points, <- holds_write_lock_points.
  - intros i Hl.
    destruct (lookup_lt_is_Some_2 (threads s) i (Hrlt i Hl)) as [th Hi].
    destruct (Hths i th Hi) as (Hcode & _ & Hr & _).
    assert (Hh : holds_root_lock (at_ th) = true) by (by apply Hr).
    exists th. split_and!; [done|by apply holds_root_lock_points| |].
    + eapply step_unless_blocked; try done; intros Hat; destruct_or?;
        by rewrite Hat in Hh.
    + by apply root_lock_released.
Qed.

End StoreProofs.

(** * Further properties of the trie *)

Section TrieLaws.
Context {TypeId : Type} `{EqDecision TypeId} {Val : Type} (type_of : Val → TypeId).
Implicit Types (h : gmap positive (@TrieNode Val)) (n : @TrieNode Val).
Implicit Types (a b c r node : positive) (k : list ascii) (ch : ascii).

Lemma cast_Some T n v :
  dynamic_pointer_cast type_of T n = Some v
  ↔ ∃ kids, n = NodeWithValue kids v ∧ type_of v = T.
Proof.
  destruct n as [kids|kids w]; simpl.
  - split; [done|]. by intros (? & ? & _).
  - destruct (decide (type_of w = T)) as [He|He].
    + split; [intros [= <-]; eauto|]. by intros (? & [= _ <-] & _).
    + split; [done|]. intros (? & [= _ <-] & ?). done.
Qed.

Lemma value_at_Some_iff h (p : option positive) T k v :
  value_at type_of h p T k = Some v
  ↔ ∃ r b kids, p = Some r ∧ node_at h r k = Some b
                ∧ h !! b = Some (NodeWithValue kids v) ∧ type_of v = T.
Proof.
  unfold value_at. split.
  - destruct p as [r|]; [|done]. simpl.
    destruct (node_at h r k) as [b|] eqn:Hb; [|done]. simpl.
    destruct (h !! b) as [n|] eqn:Hn; [|done]. simpl.
    intros (kids & -> & HT)%cast_Some. by exists r, b, kids.
  - intros (r & b & kids & -> & Hb & Hn & HT). simpl. rewrite Hb. simpl.
    rewrite Hn. simpl. by rewrite decide_True.
Qed.

Lemma value_at_has_key h (t : @Trie) T k v :
  value_at type_of h (root_ t) T k = Some v → has_key h t k.
Proof.
  intros (r & b & kids & Hr & Hb & Hn & _)%value_at_Some_iff.
  by exists r, b, (NodeWithValue kids v).
Qed.

Lemma has_key_value_at h (t : @Trie) k :
  has_key h t k → ∃ v, value_at type_of h (root_ t) (type_of v) k = Some v.
Proof.
  intros (r & b & n & Hr & Hb & Hn & Hv). destruct n as [kids|kids v]; [done|].
  exists v. apply value_at_Some_iff. by exists r, b, kids.
Qed.

Lemma not_has_key_value_at h (t : @Trie) T k :
  ¬ has_key h t k → value_at type_of h (root_ t) T k = None.
Proof.
  intros Hno. destruct (value_at type_of h (root_ t) T k) as [v|] eqn:Hv; [|done].
  destruct Hno. by eapply value_at_has_key.
Qed.

Lemma node_at_app h a p q :
  node_at h a (p ++ q) = b ← node_at h a p ; node_at h b q.
Proof.
  revert a. induction p as [|ch p IH]; intros a; simpl; [done|].
  destruct (h !! a) as [n|]; [|done]. simpl.
  destruct (children_ n !! ch) as [c|]; [|done]. simpl. apply IH.
Qed.

Lemma absent_not_has_key h (t : @Trie) k : absent h t k → ¬ has_key h t k.
Proof.
  intros Habs (r & b & n & Hr & Hb & Hn & Hv).
  destruct Habs as [Hnone|[(r' & p & ch & s & b' & n' & Hr' & -> & Hb' & Hn' & Hch)
                           |(r' & b' & n' & Hr' & Hb' & Hn' & Hv')]].
  - congruence.
  - rewrite Hr in Hr'. injection Hr' as <-.
    rewrite node_at_app, Hb' in Hb. simpl in Hb. rewrite Hn' in Hb. simpl in Hb.
    by rewrite Hch in Hb.
  - rewrite Hr in Hr'. injection Hr' as <-. rewrite Hb in Hb'. injection Hb' as <-.
    rewrite Hn in Hn'. injection Hn' as <-. congruence.
Qed.

(** What [Put] returns, read through [Get]. *)
Lemma Put_reads h (t : @Trie) k v :
  wf h t →
  ∃ t' h', run (Put t k v) h = Ok (t', h') ∧ h ⊆ h' ∧ wf h' t'
    ∧ (∃ r', root_ t' = Some r')
    ∧ (no_dead h t → no_dead h' t')
    ∧ ∀ T k', eval (Get type_of t' T k') h'
              = Ok (if decide (k' = k)
                    then (if decide (type_of v = T) then Some v else None)
                    else value_at type_of h (root_ t) T k').
Proof.
  intros Hwf.
  destruct (Put_spec type_of h t k v Hwf) as (t' & h' & Hrun & Hsub & Hwf' & Hval & Hnd).
  exists t', h'. split_and!; try done.
  - pose proof (Hval (type_of v) k) as Hk. rewrite decide_True in Hk by done.
    simpl in Hk. rewrite decide_True in Hk by done.
    destruct (root_ t') as [r'|]; [eauto|done].
  - intros T k'. by rewrite (Get_value_at type_of _ _ _ _ Hwf'), Hval.
Qed.

(** What [Remove] returns on a trie that is not empty, read through
    [Get]. *)
Lemma Remove_reads h (t : @Trie) k r :
  wf h t → root_ t = Some r →
  ∃ t' h', run (Remove t k) h = Ok (t', h') ∧ h ⊆ h' ∧ wf h' t'
    ∧ ¬ has_key h' t' k
    ∧ ∀ T k', eval (Get type_of t' T k') h'
              = Ok (if decide (k' = k) then None
                    else value_at type_of h (root_ t) T k').
Proof.
  intros Hwf Hr.
  destruct (Remove_spec type_of h t k r Hwf Hr)
    as (t' & h' & Hrun & Hsub & Hwf' & Hval & _).
  exists t', h'. split_and!; try done.
  - intros (v & Hv)%has_key_value_at. by rewrite Hval, decide_True in Hv.
  - intros T k'. by rewrite (Get_value_at type_of _ _ _ _ Hwf'), Hval.
Qed.

(** X1.  On a well-formed trie [Get] returns without a fault and leaves
    the heap exactly as it found it. *)
Theorem Get_returns_heap_untouched h (t : @Trie) T k :
  wf h t → ∃ res, run (Get type_of t T k) h = Ok (res, h).
Proof. intros Hwf. eexists. by apply (Get_run type_of h h). Qed.

(** X2.  [Get<T>] returns a value exactly when the walk along the key ends
    on a value node whose value has type [T], and then it returns the value
    of that node. *)
Theorem Get_Some_iff h (t : @Trie) T k v :
  wf h t →
  (eval (Get type_of t T k) h = Ok (Some v)
   ↔ ∃ r b kids, root_ t = Some r ∧ node_at h r k = Some b
                 ∧ h !! b = Some (NodeWithValue kids v) ∧ type_of v = T).
Proof.
  intros Hwf. rewrite (Get_value_at type_of _ _ _ _ Hwf), <- value_at_Some_iff.
  split; [by intros [= ->]|by intros ->].
Qed.

(** X3.  After [Remove(k)] on a trie that is not empty, [Get<T>(k)] returns
    null at every type [T], whether or not the key was there. *)
Theorem Remove_Get_null h (t : @Trie) k r :
  wf h t → root_ t = Some r →
  ∃ t' h', run (Remove t k) h = Ok (t', h')
           ∧ ∀ T, eval (Get type_of t' T k) h' = Ok None.
Proof.
  intros Hwf Hr.
  destruct (Remove_reads h t k r Hwf Hr) as (t' & h' & Hrun & _ & _ & _ & Hget).
  exists t', h'. split; [done|]. intros T. by rewrite Hget, decide_True.
Qed.

(** X4.  [Remove] does not mutate the receiver: every object of the heap
    keeps its contents, and every [Get] on the trie [Remove] was called on
    returns what it returned before. *)
Theorem Remove_leaves_receiver h (t : @Trie) k r :
  wf h t → root_ t = Some r →
  ∃ t' h', run (Remove t k) h = Ok (t', h')
           ∧ (∀ a n, h !! a = Some n → h' !! a = Some n)
           ∧ (∀ T k', eval (Get type_of t T k') h' = eval (Get type_of t T k') h).
Proof.
  intros Hwf Hr.
  destruct (Remove_reads h t k r Hwf Hr) as (t' & h' & Hrun & Hsub & _).
  exists t', h'. split_and!; [done| |].
  - intros a n Hn. by eapply lookup_weaken.
  - intros T k'. by apply Get_later.
Qed.

(** X6.  [Put] keeps the heap invariants: in the heap it leaves no pointer
    dangles, the trie it returns is never the empty trie, and if no node
    without value and children was reachable before, none is after. *)
Theorem Put_keeps_invariants h (t : @Trie) k v :
  wf h t →
  ∃ t' h', run (Put t k v) h = Ok (t', h')
           ∧ closed h' ∧ (∃ r', root_ t' = Some r' ∧ is_Some (h' !! r'))
           ∧ (no_dead h t → no_dead h' t').
Proof.
  intros Hwf.
  destruct (Put_reads h t k v Hwf) as (t' & h' & Hrun & _ & [Hc Hv] & [r' Hr'] & Hnd & _).
  exists t', h'. split_and!; [done..| |done].
  exists r'. split; [done|]. by rewrite Hr' in Hv.
Qed.

(** X7.  The last [Put] wins: [t.Put(k, v1).Put(k, v2)] reads, at every key
    and every type, what [t.Put(k, v2)] reads, also when [v1] and [v2] have
    different types. *)
Theorem Put_overwrites h (t : @Trie) k v1 v2 :
  wf h t →
  ∃ t1 h1 t2 h2 t3 h3,
    run (Put t k v1) h = Ok (t1, h1) ∧ run (Put t1 k v2) h1 = Ok (t2, h2)
    ∧ run (Put t k v2) h = Ok (t3, h3)
    ∧ ∀ T k', eval (Get type_of t2 T k') h2 = eval (Get type_of t3 T k') h3.
Proof.
  intros Hwf.
  destruct (Put_spec type_of h t k v1 Hwf) as (t1 & h1 & Hrun1 & _ & Hwf1 & Hval1 & _).
  destruct (Put_reads h1 t1 k v2 Hwf1) as (t2 & h2 & Hrun2 & _ & _ & _ & _ & Hget2).
  destruct (Put_reads h t k v2 Hwf) as (t3 & h3 & Hrun3 & _ & _ & _ & _ & Hget3).
  exists t1, h1, t2, h2, t3, h3. split_and!; [done..|].
  intros T k'. rewrite Hget2, Hget3, Hval1.
  by destruct (decide (k' = k)).
Qed.

(** X8.  [Put]s at different keys commute: the two orders give tries that
    read the same at every key and every type. *)
Theorem Put_commutes h (t : @Trie) k1 v1 k2 v2 :
  wf h t → k1 ≠ k2 →
  ∃ ta ha tab hab tb hb tba hba,
    run (Put t k1 v1) h = Ok (ta, ha) ∧ run (Put ta k2 v2) ha = Ok (tab, hab)
    ∧ run (Put t k2 v2) h = Ok (tb, hb) ∧ run (Put tb k1 v1) hb = Ok (tba, hba)
    ∧ ∀ T k', eval (Get type_of tab T k') hab = eval (Get type_of tba T k') hba.
Proof.
  intros Hwf Hne.
  destruct (Put_spec type_of h t k1 v1 Hwf) as (ta & ha & Hruna & _ & Hwfa & Hvala & _).
  destruct (Put_reads ha ta k2 v2 Hwfa) as (tab & hab & Hrunab & _ & _ & _ & _ & Hgetab).
  destruct (Put_spec type_of h t k2 v2 Hwf) as (tb & hb & Hrunb & _ & Hwfb & Hvalb & _).
  destruct (Put_reads hb tb k1 v1 Hwfb) as (tba & hba & Hrunba & _ & _ & _ & _ & Hgetba).
  exists ta, ha, tab, hab, tb, hb, tba, hba. split_and!; [done..|].
  intros T k'. rewrite Hgetab, Hgetba, Hvala, Hvalb. simpl.
  repeat case_decide; by simplify_eq.
Qed.

(** X9.  [Remove] undoes [Put]: when [k] holds no value in [t],
    [t.Put(k, v).Remove(k)] reads at every key and every type what [t]
    reads. *)
Theorem Put_Remove_undo h (t : @Trie) k v :
  wf h t → ¬ has_key h t k →
  ∃ t1 h1 t2 h2,
    run (Put t k v) h = Ok (t1, h1) ∧ run (Remove t1 k) h1 = Ok (t2, h2)
    ∧ ∀ T k', eval (Get type_of t2 T k') h2 = eval (Get type_of t T k') h.
Proof.
  intros Hwf Hno.
  destruct (Put_reads h t k v Hwf)
    as (t1 & h1 & Hrun1 & _ & Hwf1 & [r1 Hr1] & _ & _).
  destruct (Put_spec type_of h t k v Hwf) as (t1' & h1' & Hrun1' & _ & _ & Hval1 & _).
  rewrite Hrun1 in Hrun1'. injection Hrun1' as <- <-.
  destruct (Remove_reads h1 t1 k r1 Hwf1 Hr1) as (t2 & h2 & Hrun2 & _ & _ & _ & Hget2).
  exists t1, h1, t2, h2. split_and!; [done..|].
  intros T k'. rewrite Hget2, (Get_value_at type_of _ _ _ _ Hwf), Hval1.
  destruct (decide (k' = k)) as [->|]; [|done].
  by rewrite not_has_key_value_at.
Qed.

(** X10.  A second [Remove] of the same key: when the first returns a trie
    that is not empty, the second returns that very trie and allocates
    nothing; when the first returns the empty trie, the second faults. *)
Theorem Remove_twice h (t : @Trie) k r :
  wf h t → root_ t = Some r →
  ∃ t' h', run (Remove t k) h = Ok (t', h')
           ∧ run (Remove t' k) h'
             = match root_ t' with
               | Some _ => Ok (t', h')
               | None => Fault NullDereference
               end.
Proof.
  intros Hwf Hr.
  destruct (Remove_reads h t k r Hwf Hr) as (t' & h' & Hrun & _ & Hwf' & Hno & _).
  exists t', h'. split; [done|].
  destruct (root_ t') as [r'|] eqn:Hr'; [|by apply Remove_empty].
  destruct (Remove_spec type_of h' t' k r' Hwf' Hr')
    as (t2 & h2 & Hrun2 & _ & _ & _ & _ & Hnoop & _).
  by destruct (Hnoop Hno) as [-> ->].
Qed.

(** *** The stack of [Remove] *)

Lemma Remove_walk_stack h (node : option positive) k (stk : list positive) :
  match run (Remove_walk node k stk) h with
  | Ok (Some (stk', _), _) => length stk' = length k + length stk
  | Ok (None, _) => True
  | Fault e => e ≠ EmptyStack
  end.
Proof.
  revert node stk. induction k as [|ch k IH]; intros node stk; simpl; [done|].
  destruct (read h node) as [n|e] eqn:Hread.
  - destruct node as [a|]; [|done].
    destruct (children_ n !! ch) as [c|]; [|done].
    specialize (IH (Some c) (a :: stk)).
    destruct (run (Remove_walk (Some c) k (a :: stk)) h) as [[[[stk' nd]|] h']|e];
      simpl in *; [lia|done|done].
  - destruct node as [a|]; simpl in Hread; [|by injection Hread as <-].
    destruct (h !! a); [done|]. by injection Hread as <-.
Qed.

Lemma Remove_step_fault h ch (top : positive) (nd : option positive) e :
  run (Remove_step ch top nd) h = Fault e → e ≠ EmptyStack.
Proof.
  unfold Remove_step, Clone, deref, make_shared, set_child, erase_child. simpl.
  intros Hrun ->. destruct (h !! top) as [n|]; [|done]. simpl in Hrun.
  destruct nd as [c|]; simpl in Hrun; rewrite lookup_insert_eq in Hrun; [done|].
  destruct (bool_decide (size (children_ n) ≤ 1) && negb (is_value_node_ n));
    simpl in Hrun; [done|].
  by rewrite lookup_insert_eq in Hrun.
Qed.

Lemma Remove_fold_fault rk : ∀ (stk : list positive) (nd : option positive) h e,
  length stk = length rk →
  run (Remove_fold rk stk nd) h = Fault e → e ≠ EmptyStack.
Proof.
  induction rk as [|ch rk IH]; intros stk nd h e Hlen; [done|].
  destruct stk as [|top stk]; [done|]. cbn [Remove_fold]. rewrite run_bind.
  destruct (run (Remove_step ch top nd) h) as [[nd' h']|e'] eqn:Hstep.
  - apply IH. simpl in Hlen. lia.
  - intros [= <-]. by eapply Remove_step_fault.
Qed.

Lemma Remove_no_EmptyStack h (t : @Trie) k :
  run (Remove t k) h ≠ Fault EmptyStack.
Proof.
  unfold Remove. rewrite run_bind.
  pose proof (Remove_walk_stack h (root_ t) k []) as Hwalk.
  destruct (run (Remove_walk (root_ t) k []) h) as [[[[stk nd]|] h1]|e]; simpl;
    [|done|congruence].
  simpl in Hwalk. destruct (read h1 nd) as [n|e] eqn:Hread; simpl.
  2:{ destruct nd as [a|]; simpl in Hread; [|by injection Hread as <-].
      destruct (h1 !! a); [done|]. by injection Hread as <-. }
  destruct (negb (is_value_node_ n)); simpl; [done|].
  rewrite run_bind.
  destruct (bool_decide (children_ n = ∅)); simpl.
  - rewrite run_bind.
    destruct (run (Remove_fold (rev k) stk None) h1) as [[x h2]|e] eqn:Hfold; [done|].
    intros [= ->]. eapply Remove_fold_fault; [|exact Hfold|done].
    rewrite length_rev. lia.
  - rewrite run_bind.
    destruct (run (Remove_fold (rev k) stk _) _) as [[x h2]|e] eqn:Hfold; [done|].
    intros [= ->]. eapply Remove_fold_fault; [|exact Hfold|done].
    rewrite length_rev. lia.
Qed.

(** X11.  [nodeStk.back()] is never called on an empty stack: whatever the
    heap, the trie and the key, a fault of [Remove] is the dereference of
    a null or dangling pointer (lines 126-129 pop once per character of the
    key, and the walk of lines 109-117 has pushed once per character). *)
Theorem Remove_stack_never_empty h (t : @Trie) k e :
  run (Remove t k) h = Fault e → e = NullDereference ∨ ∃ a, e = Dangling a.
Proof.
  intros Hrun. destruct e as [| |a]; [by left| |right; by exists a].
  by destruct (Remove_no_EmptyStack h t k).
Qed.

(** *** [Put] copies the path and shares the rest *)

(** The node reached from an object given by its contents. *)
Lemma node_at_cons h a n ch k :
  h !! a = Some n → node_at h a (ch :: k) = x ← children_ n !! ch ; node_at h x k.
Proof. intros Hn. simpl. by rewrite Hn. Qed.

Lemma node_at_parent hf h node n ch c ch' k :
  closed hf → hf ⊆ h →
  h !! node = Some (with_children n (<[ch := c]> (children_ n))) →
  (∀ ch' x, ch' ≠ ch → children_ n !! ch' = Some x → is_Some (hf !! x)) →
  node_at h node (ch' :: k)
  = if decide (ch' = ch) then node_at h c k
    else x ← children_ n !! ch' ; node_at hf x k.
Proof.
  intros Hc Hsub Hnode Hkids. rewrite (node_at_cons _ _ _ _ _ Hnode).
  rewrite children_with_children. destruct (decide (ch' = ch)) as [->|Hne].
  - by rewrite lookup_insert_eq.
  - rewrite lookup_insert_ne by done.
    destruct (children_ n !! ch') as [x|] eqn:Hx; [|done]. simpl.
    apply (node_at_mono hf h); [done..|]. by eapply Hkids.
Qed.

Lemma node_under_mono h0 h (m : @TrieNode Val) ch k :
  closed h0 → h0 ⊆ h →
  (∀ ch x, children_ m !! ch = Some x → is_Some (h0 !! x)) →
  (x ← children_ m !! ch ; node_at h x k) = (x ← children_ m !! ch ; node_at h0 x k).
Proof.
  intros Hc Hsub Hkids. destruct (children_ m !! ch) as [x|] eqn:Hx; [|done]. simpl.
  apply (node_at_mono h0 h); [done..|]. by eapply Hkids.
Qed.

Lemma Put_loop_shape h0 v :
  closed h0 →
  ∀ rest ch node n h,
    h0 ⊆ h → closed h → h !! node = Some n → h0 !! node = None →
    (∀ ch' x, children_ n !! ch' = Some x → is_Some (h0 !! x)) →
    wp (grows h0) (Put_loop node ch rest v)
      (λ _ h',
         h0 ⊆ h' ∧ closed h'
         ∧ (∀ b, b ≠ node → is_Some (h !! b) → h' !! b = h !! b)
         ∧ size h' = size h + length rest + 1
         ∧ (∀ p, p `prefix_of` ch :: rest →
                 ∃ a, node_at h' node p = Some a ∧ h0 !! a = None)
         ∧ (∀ ch' q, ¬ (ch' :: q) `prefix_of` ch :: rest →
                     node_at h' node (ch' :: q)
                     = x ← children_ n !! ch' ; node_at h0 x q)) h.
Proof.
  intros Hc0. induction rest as [|ch1 rest IH]; intros ch node n h Hsub Hc Hn Hfr Hkn.
  - (* the last character: lines 85-92 *)
    set (m := match children_ n !! ch with
              | None => NodeWithValue ∅ v
              | Some old => match h0 !! old with
                            | Some o => NodeWithValue (children_ o) v
                            | None => NodeWithValue ∅ v
                            end
              end).
    assert (Hkm : ∀ ch' x, children_ m !! ch' = Some x → is_Some (h0 !! x)).
    { intros ch' x. unfold m. destruct (children_ n !! ch) as [old|]; [|done].
      destruct (h0 !! old) as [o|] eqn:Ho; [|done]. simpl.
      intros Hx. by eapply closed_lookup. }
    destruct (attach_facts h0 h node n ch m Hc0 Hsub Hc Hn Hfr Hkn Hkm)
      as (Hne & Ha0 & Hsub1 & Hc1 & Hsub2 & Hc2 & Ha & Hnode & Hframe).
    cbn [Put_loop]. apply (wp_deref_bind _ _ _ _ _ n Hn).
    apply wp_bind.
    apply (wp_mono _ _ (λ a h1, a = fresh (dom h) ∧ h1 = <[fresh (dom h) := m]> h)).
    2:{ destruct (children_ n !! ch) as [old|] eqn:Hold; [|by split].
        destruct (Hkn _ _ Hold) as [o Ho].
        assert (Hm : m = NodeWithValue (children_ o) v) by (unfold m; by rewrite Ho).
        apply (wp_deref_bind _ _ _ _ _ o (lookup_weaken _ _ _ _ Ho Hsub)).
        simpl. rewrite <- Hm. by split. }
    intros a h1 [-> ->].
    apply (wp_set_child _ _ _ node n); [by rewrite lookup_insert_ne|by split|].
    split_and!; try done.
    + rewrite map_size_insert_Some by (by rewrite lookup_insert_ne).
      rewrite map_size_insert_None by apply fresh_lookup. simpl. lia.
    + intros p Hp. destruct p as [|c p].
      { exists node. by split. }
      apply prefix_cons_inv_1 in Hp as Hhd. apply prefix_cons_inv_2 in Hp as Htl.
      apply prefix_nil_inv in Htl. subst c p.
      exists (fresh (dom h)). split; [|done].
      rewrite (node_at_parent h0 _ node n ch _ ch [] Hc0 Hsub2 Hnode)
        by (intros; by eapply Hkn).
      by rewrite decide_True.
    + intros c q Hnp.
      rewrite (node_at_parent h0 _ node n ch _ c q Hc0 Hsub2 Hnode)
        by (intros; by eapply Hkn).
      destruct (decide (c = ch)) as [->|Hch]; [|done].
      destruct q as [|c2 q2]; [by destruct Hnp|].
      rewrite (node_at_cons _ _ _ _ _ Ha), (node_under_mono h0) by done.
      unfold m. destruct (children_ n !! ch) as [old|] eqn:Hold; simpl.
      * destruct (Hkn _ _ Hold) as [o Ho]. by rewrite Ho.
      * by rewrite lookup_empty.
  - (* a character before the last: lines 76-83 *)
    set (m := match children_ n !! ch with
              | None => PlainNode ∅
              | Some old => match h0 !! old with
                            | Some o => o
                            | None => PlainNode ∅
                            end
              end).
    assert (Hkm : ∀ ch' x, children_ m !! ch' = Some x → is_Some (h0 !! x)).
    { intros ch' x. unfold m. destruct (children_ n !! ch) as [old|]; [|done].
      destruct (h0 !! old) as [o|] eqn:Ho; [|done].
      intros Hx. by eapply closed_lookup. }
    destruct (attach_facts h0 h node n ch m Hc0 Hsub Hc Hn Hfr Hkn Hkm)
      as (Hne & Ha0 & Hsub1 & Hc1 & Hsub2 & Hc2 & Ha & Hnode & Hframe).
    cbn [Put_loop]. apply (wp_deref_bind _ _ _ _ _ n Hn).
    apply wp_bind.
    apply (wp_mono _ _ (λ a h1, a = fresh (dom h) ∧ h1 = <[fresh (dom h) := m]> h)).
    2:{ destruct (children_ n !! ch) as [old|] eqn:Hold; [|by split].
        destruct (Hkn _ _ Hold) as [o Ho].
        assert (Hm : m = o) by (unfold m; by rewrite Ho).
        apply (wp_Clone_bind _ _ _ _ _ o (lookup_weaken _ _ _ _ Ho Hsub));
          rewrite <- Hm; by split. }
    intros a h1 [-> ->].
    apply (wp_set_child_bind _ _ _ _ node n); [by rewrite lookup_insert_ne|by split|].
    eapply wp_mono; [|exact (IH ch1 _ m _ Hsub2 Hc2 Ha Ha0 Hkm)].
    intros _ h' (Hsub' & Hc' & Hframe' & Hsize' & Hpath' & Hoff').
    assert (Hnode' : h' !! node
                     = Some (with_children n (<[ch := fresh (dom h)]> (children_ n)))).
    { rewrite Hframe'; [done|done|]. rewrite Hnode. eauto. }
    split_and!; try done.
    + intros b Hb Hhb. rewrite Hframe'.
      * by apply Hframe.
      * intros ->. destruct Hhb as [y Hy]. by rewrite fresh_lookup in Hy.
      * rewrite Hframe by done. done.
    + rewrite Hsize'.
      rewrite map_size_insert_Some by (by rewrite lookup_insert_ne).
      rewrite map_size_insert_None by apply fresh_lookup. simpl. lia.
    + intros p Hp. destruct p as [|c p].
      { exists node. by split. }
      apply prefix_cons_inv_1 in Hp as Hhd. apply prefix_cons_inv_2 in Hp as Htl.
      subst c.
      rewrite (node_at_parent h0 _ node n ch _ ch p Hc0 Hsub' Hnode')
        by (intros; by eapply Hkn).
      rewrite decide_True by done. by apply Hpath'.
    + intros c q Hnp.
      rewrite (node_at_parent h0 _ node n ch _ c q Hc0 Hsub' Hnode')
        by (intros; by eapply Hkn).
      destruct (decide (c = ch)) as [->|Hch]; [|done].
      destruct q as [|c2 q2]; [destruct Hnp; by apply prefix_cons, prefix_nil|].
      rewrite Hoff' by (intros Hq; destruct Hnp; by apply prefix_cons).
      unfold m. destruct (children_ n !! ch) as [old|] eqn:Hold; simpl.
      * destruct (Hkn _ _ Hold) as [o Ho]. by rewrite Ho.
      * by rewrite lookup_empty.
Qed.

Lemma Put_shape h (t : @Trie) k v :
  wf h t →
  ∃ t' h', run (Put t k v) h = Ok (t', h')
    ∧ size h' = size h + length k + 1
    ∧ (∀ p, p `prefix_of` k →
            ∃ a, node_below h' (root_ t') p = Some a ∧ h !! a = None)
    ∧ (∀ k', ¬ k' `prefix_of` k →
             node_below h' (root_ t') k' = node_below h (root_ t) k').
Proof.
  intros [Hc Hr]. apply (wp_run (grows h)).
  destruct t as [[r|]]; simpl in Hr.
  - destruct Hr as [o Ho].
    assert (Hko : ∀ ch x, children_ o !! ch = Some x → is_Some (h !! x)).
    { intros ch x Hx. by eapply closed_lookup. }
    destruct k as [|ch rest].
    + (* line 62 *)
      destruct (alloc_facts h (NodeWithValue (children_ o) v) Hc Hko)
        as (Ha & Hsub & Hc' & Ha').
      unfold Put. cbn [root_]. apply (wp_deref_bind _ _ _ _ _ o Ho).
      apply wp_make_shared_bind; [by split|]. cbn [ret wp root_ node_below].
      split_and!.
      * rewrite map_size_insert_None by done. simpl. lia.
      * intros p ->%prefix_nil_inv. by exists (fresh (dom h)).
      * intros [|c q] Hnp; [destruct Hnp; by apply prefix_nil|]. cbn -[node_at].
        rewrite (node_at_cons _ _ _ _ _ Ha'), (node_at_cons _ _ _ _ _ Ho).
        cbn [children_]. by apply (node_under_mono h _ o).
    + (* line 64 *)
      destruct (alloc_facts h o Hc Hko) as (Ha & Hsub & Hc' & Ha').
      unfold Put. cbn [root_]. apply (wp_Clone_bind _ _ _ _ _ o Ho); [by split|].
      apply wp_bind.
      eapply wp_mono; [|exact (Put_loop_shape h v Hc rest ch _ o _ Hsub Hc' Ha' Ha Hko)].
      intros _ h' (Hsub' & Hc'' & _ & Hsize & Hpath & Hoff).
      cbn [ret wp root_ node_below].
      split_and!.
      * rewrite Hsize, map_size_insert_None by done. simpl. lia.
      * intros p Hp. simpl. by apply Hpath.
      * intros [|c q] Hnp; [destruct Hnp; by apply prefix_nil|]. cbn -[node_at].
        rewrite Hoff by done. by rewrite (node_at_cons _ _ _ _ _ Ho).
  - destruct k as [|ch rest].
    + (* line 68 *)
      destruct (alloc_facts h (NodeWithValue ∅ v) Hc) as (Ha & Hsub & Hc' & Ha').
      { intros ch x. simpl. by rewrite lookup_empty. }
      unfold Put. cbn [root_]. apply wp_make_shared_bind; [by split|].
      cbn [ret wp root_ node_below].
      split_and!.
      * rewrite map_size_insert_None by done. simpl. lia.
      * intros p ->%prefix_nil_inv. by exists (fresh (dom h)).
      * intros [|c q] Hnp; [destruct Hnp; by apply prefix_nil|]. cbn -[node_at].
        rewrite (node_at_cons _ _ _ _ _ Ha'). simpl. by rewrite lookup_empty.
    + (* line 70 *)
      assert (Hkp : ∀ ch' x, children_ (@PlainNode Val ∅) !! ch' = Some x
                             → is_Some (h !! x)).
      { intros ch' x. simpl. by rewrite lookup_empty. }
      destruct (alloc_facts h (PlainNode ∅) Hc Hkp) as (Ha & Hsub & Hc' & Ha').
      unfold Put. cbn [root_]. apply wp_make_shared_bind; [by split|].
      apply wp_bind.
      eapply wp_mono; [|exact (Put_loop_shape h v Hc rest ch _ _ _ Hsub Hc' Ha' Ha Hkp)].
      intros _ h' (Hsub' & Hc'' & _ & Hsize & Hpath & Hoff).
      cbn [ret wp root_ node_below].
      split_and!.
      * rewrite Hsize, map_size_insert_None by done. simpl. lia.
      * intros p Hp. simpl. by apply Hpath.
      * intros [|c q] Hnp; [destruct Hnp; by apply prefix_nil|]. cbn -[node_at].
        rewrite Hoff by done. simpl. by rewrite lookup_empty.
Qed.

(** X12.  [Put] allocates one object for each character of the key and one
    more, whatever the size of the trie. *)
Theorem Put_allocates h (t : @Trie) k v :
  wf h t →
  ∃ t' h', run (Put t k v) h = Ok (t', h') ∧ size h' = size h + length k + 1.
Proof.
  intros Hwf. destruct (Put_shape h t k v Hwf) as (t' & h' & Hrun & Hsize & _).
  by exists t', h'.
Qed.

(** X13.  [Put] copies the path and shares the rest.  In the trie it
    returns, the node at every prefix of the key (the root and the node of
    the key included) is an object that did not exist before; the node at
    any other key is the very object the old trie has there, if it has
    one. *)
Theorem Put_copies_path h (t : @Trie) k v :
  wf h t →
  ∃ t' h', run (Put t k v) h = Ok (t', h')
    ∧ (∀ p, p `prefix_of` k →
            ∃ a, node_below h' (root_ t') p = Some a ∧ h !! a = None)
    ∧ (∀ k', ¬ k' `prefix_of` k →
             node_below h' (root_ t') k' = node_below h (root_ t) k').
Proof.
  intros Hwf. destruct (Put_shape h t k v Hwf) as (t' & h' & Hrun & _ & Hpath & Hoff).
  by exists t', h'.
Qed.

(** X14.  On the empty trie [Remove] undoes [Put] altogether: the whole
    chain [Put(k, v)] built is pruned and the result is the empty trie
    again. *)
Theorem Put_Remove_empty h k v :
  closed h →
  ∃ t1 h1 h2, run (Put empty_trie k v) h = Ok (t1, h1)
              ∧ run (Remove t1 k) h1 = Ok (empty_trie, h2).
Proof.
  intros Hc. assert (Hwf : wf h (@empty_trie)) by (by split).
  destruct (Put_shape h empty_trie k v Hwf) as (t1 & h1 & Hrun1 & _ & Hpath & Hoff).
  destruct (Put_spec type_of h empty_trie k v Hwf)
    as (t1' & h1' & Hrun1' & _ & Hwf1 & Hval & _).
  rewrite Hrun1 in Hrun1'. injection Hrun1' as <- <-.
  assert (Hk : has_key h1 t1 k).
  { apply (value_at_has_key _ _ (type_of v) _ v).
    rewrite Hval, decide_True by done. simpl. by rewrite decide_True. }
  pose proof Hk as (r1 & b & nb & Hr1 & Hb & Hnb & Hvb).
  destruct (Remove_spec type_of h1 t1 k r1 Hwf1 Hr1)
    as (t2 & h2 & Hrun2 & _ & _ & _ & _ & _ & Hprune).
  destruct (Hprune Hk) as [Hinner Hterm].
  exists t1, h1, h2. split; [done|].
  rewrite Hr1 in Hpath, Hoff. cbn [node_below root_ empty_trie mbind option_bind] in Hpath, Hoff.
  assert (Hedge : ∀ p a n ch' x, node_at h1 r1 p = Some a → h1 !! a = Some n →
                    children_ n !! ch' = Some x → (p ++ [ch']) `prefix_of` k).
  { intros p a n c x Ha Hn Hx.
    destruct (decide ((p ++ [c]) `prefix_of` k)) as [|Hnp]; [done|].
    specialize (Hoff _ Hnp). rewrite node_at_app, Ha in Hoff. simpl in Hoff.
    rewrite Hn in Hoff. simpl in Hoff. by rewrite Hx in Hoff. }
  assert (Hall : ∀ q p, k = p ++ q → node_below h2 (root_ t2) p = None).
  { induction q as [|ch q IH]; intros p Hkp.
    - rewrite app_nil_r in Hkp. subst p. apply (Hterm b nb Hb Hnb).
      apply map_empty. intros c. destruct (children_ nb !! c) as [x|] eqn:Hx; [|done].
      apply (Hedge k b nb c x Hb Hnb) in Hx. apply prefix_length in Hx.
      rewrite length_app in Hx. simpl in Hx. lia.
    - destruct (Hpath p) as (a & Ha & _); [subst k; by apply prefix_app_r|].
      destruct Hwf1 as [Hc1 Hv1]. rewrite Hr1 in Hv1. simpl in Hv1.
      destruct (node_at_valid _ _ _ _ Hc1 Hv1 Ha) as [n Hn].
      apply (Hinner p ch q a n Hkp Ha Hn). split_and!.
      + destruct n as [kids|kids w]; [done|].
        assert (Hw : value_at type_of h1 (root_ t1) (type_of w) p = Some w).
        { apply value_at_Some_iff. by exists r1, a, kids. }
        rewrite Hval, decide_False in Hw; [done|].
        intros ->. apply (f_equal length) in Hkp. rewrite length_app in Hkp.
        simpl in Hkp. lia.
      + apply map_empty. intros c. destruct (decide (c = ch)) as [->|Hne].
        { by rewrite lookup_delete_eq. }
        rewrite lookup_delete_ne by done.
        destruct (children_ n !! c) as [x|] eqn:Hx; [|done].
        apply (Hedge p a n c x Ha Hn) in Hx. subst k.
        apply prefix_app_inv, prefix_cons_inv_1 in Hx. done.
      + apply IH. by rewrite <- app_assoc. }
  specialize (Hall k [] eq_refl). rewrite node_below_nil in Hall.
  destruct t2 as [o]. simpl in Hall. by subst o.
Qed.

(** *** [Remove] copies the path and shares the rest *)

(** One round of the loop of lines 126-139, run. *)
Lemma Remove_step_run h (top : positive) n ch (nd : option positive) :
  h !! top = Some n →
  run (Remove_step ch top nd) h
  = let p := fresh (dom h) in
    match nd with
    | Some x =>
        Ok (Some p, <[p := with_children n (<[ch := x]> (children_ n))]> (<[p := n]> h))
    | None =>
        if bool_decide (size (children_ n) ≤ 1) && negb (is_value_node_ n)
        then Ok (None, <[p := n]> h)
        else Ok (Some p, <[p := with_children n (delete ch (children_ n))]> (<[p := n]> h))
    end.
Proof.
  intros Hn. unfold Remove_step, Clone, deref, make_shared, set_child, erase_child.
  simpl. rewrite Hn. simpl.
  destruct nd as [x|]; simpl; rewrite lookup_insert_eq; [done|].
  destruct (bool_decide (size (children_ n) ≤ 1) && negb (is_value_node_ n));
    simpl; [done|].
  by rewrite lookup_insert_eq.
Qed.

(** A clone of [top] that keeps the edge [ch']: below that edge it is the
    old trie. *)
Lemma node_at_clone h0 h' (top p : positive) n n' ch' s :
  closed h0 → h0 ⊆ h' → h0 !! top = Some n → h' !! p = Some n' →
  children_ n' !! ch' = children_ n !! ch' →
  node_at h' p (ch' :: s) = node_at h0 top (ch' :: s).
Proof.
  intros Hc Hsub Hn Hp Hkid.
  rewrite (node_at_cons _ _ _ _ _ Hp), (node_at_cons _ _ _ _ _ Hn), Hkid.
  destruct (children_ n !! ch') as [x|] eqn:Hx; [|done]. simpl.
  apply (node_at_mono h0 h'); [done..|]. by eapply closed_lookup.
Qed.

Lemma Remove_step_shape h0 h (top : positive) n ch b (nd res : option positive) h' :
  closed h0 → h0 ⊆ h → h0 !! top = Some n → children_ n !! ch = Some b →
  run (Remove_step ch top nd) h = Ok (res, h') →
  (∀ x, res = Some x → h !! x = None)
  ∧ (∀ ch' s, ch' ≠ ch → node_below h' res (ch' :: s) = node_at h0 top (ch' :: s))
  ∧ size h' ≤ size h + 1.
Proof.
  intros Hc0 Hsub Hn Hb.
  rewrite (Remove_step_run _ _ n) by (by eapply lookup_weaken). cbn zeta.
  assert (Hfr : h !! fresh (dom h) = None) by apply fresh_lookup.
  assert (Hsub' : ∀ m, h0 ⊆ <[fresh (dom h) := m]> h).
  { intros m. etrans; [exact Hsub|]. by apply insert_subseteq. }
  destruct nd as [x|].
  - intros [= <- <-]. rewrite insert_insert_eq. split_and!.
    + by intros ? [= <-].
    + intros ch' s Hne.
      apply (node_at_clone h0 _ top (fresh (dom h)) n
               (with_children n (<[ch := x]> (children_ n))) ch' s Hc0 (Hsub' _) Hn).
      * by rewrite lookup_insert_eq.
      * by rewrite children_with_children, lookup_insert_ne.
    + rewrite map_size_insert_None by done. lia.
  - destruct (bool_decide (size (children_ n) ≤ 1) && negb (is_value_node_ n)) eqn:Hcond.
    + intros [= <- <-]. apply andb_true_iff in Hcond as [Hsz%bool_decide_eq_true _].
      split_and!; [done| |rewrite map_size_insert_None by done; lia].
      intros ch' s Hne. rewrite (node_at_cons _ _ _ _ _ Hn).
      by rewrite (size_le_1_lookup _ ch b ch').
    + intros [= <- <-]. rewrite insert_insert_eq. split_and!.
      * by intros ? [= <-].
      * intros ch' s Hne.
        apply (node_at_clone h0 _ top (fresh (dom h)) n
                 (with_children n (delete ch (children_ n))) ch' s Hc0 (Hsub' _) Hn).
        -- by rewrite lookup_insert_eq.
        -- by rewrite children_with_children, lookup_delete_ne.
      * rewrite map_size_insert_None by done. lia.
Qed.

Lemma Remove_fold_shape h0 r :
  closed h0 → is_Some (h0 !! r) →
  ∀ stk rk b,
    chain h0 r stk rk b →
    ∀ h (nd res : option positive) h',
      h0 ⊆ h → closed h → valid h nd →
      (∀ x, nd = Some x → h0 !! x = None) →
      run (Remove_fold rk stk nd) h = Ok (res, h') →
      (∀ p x, p `prefix_of` rev rk → node_below h' res p = Some x → h0 !! x = None)
      ∧ (∀ s, node_below h' res (rev rk ++ s) = node_below h nd s)
      ∧ (∀ k', ¬ k' `prefix_of` rev rk → ¬ rev rk `prefix_of` k' →
               node_below h' res k' = node_at h0 r k')
      ∧ size h' ≤ size h + length rk.
Proof.
  intros Hc0 Hr stk rk b Hch.
  induction Hch as [|stk rk a n ch b Hch IH Ha Hb];
    intros h nd res h' Hsub Hc Hnd Hfresh Hrun.
  - cbn in Hrun. injection Hrun as <- <-. split_and!.
    + intros p x ->%prefix_nil_inv. rewrite node_below_nil. apply Hfresh.
    + done.
    + intros k' _ Hk'. destruct Hk'. apply prefix_nil.
    + simpl. lia.
  - cbn [Remove_fold] in Hrun. rewrite run_bind in Hrun.
    destruct (wp_run _ _ _ _ (Remove_step_wp type_of h0 h a n ch b nd Hc0 Hsub Hc Ha Hb Hnd))
      as (nd1 & h1 & Hstep & Hsub1 & Hc1 & Hnd1 & _ & _ & Hat1 & _).
    rewrite Hstep in Hrun.
    destruct (Remove_step_shape h0 h a n ch b nd nd1 h1 Hc0 Hsub Ha Hb Hstep)
      as (Hfr1 & Hoff1 & Hsz1).
    assert (Hsub01 : h0 ⊆ h1) by (by etrans).
    assert (Hfresh1 : ∀ x, nd1 = Some x → h0 !! x = None).
    { intros x Hx. specialize (Hfr1 x Hx).
      destruct (h0 !! x) as [y|] eqn:Hy; [|done].
      by rewrite (lookup_weaken _ _ _ _ Hy Hsub) in Hfr1. }
    destruct (IH h1 nd1 res h' Hsub01 Hc1 Hnd1 Hfresh1 Hrun)
      as (Hpath & Hat & Hoff & Hsz).
    cbn [rev length]. split_and!.
    + intros p x Hp Hx.
      destruct (decide (p = rev rk ++ [ch])) as [->|Hne].
      * rewrite Hat, Hat1, node_below_nil in Hx. by apply Hfresh.
      * apply (Hpath p x); [|done].
        destruct Hp as [q Hq]. destruct q as [|y q _] using rev_ind.
        { rewrite app_nil_r in Hq. by subst p. }
        rewrite app_assoc in Hq. apply app_inj_tail in Hq as [-> _].
        by apply prefix_app_r.
    + intros s. rewrite <- app_assoc. cbn [app]. by rewrite Hat, Hat1.
    + intros k' Hnp Hne.
      destruct (decide (rev rk `prefix_of` k')) as [[s ->]|Hdiv].
      * destruct s as [|ch' s]; [destruct Hnp; rewrite app_nil_r; by apply prefix_app_r|].
        assert (Hch' : ch' ≠ ch).
        { intros ->. apply Hne. exists s. by rewrite <- app_assoc. }
        rewrite Hat, (Hoff1 ch' s Hch').
        symmetry. apply (chain_node_at _ _ _ _ _ (ch' :: s) Hch).
      * apply Hoff; [|done]. intros Hp. apply Hnp. by apply prefix_app_r.
    + lia.
Qed.

Lemma has_key_dec h (t : @Trie) k : has_key h t k ∨ ¬ has_key h t k.
Proof.
  unfold has_key. destruct (root_ t) as [r|]; [|right; by intros (? & ? & ? & ? & _)].
  destruct (node_at h r k) as [b|] eqn:Hb;
    [|right; intros (? & ? & ? & [= <-] & ? & _); congruence].
  destruct (h !! b) as [n|] eqn:Hn;
    [|right; intros (? & ? & ? & [= <-] & ? & ? & _); congruence].
  destruct (is_value_node_ n) eqn:Hv.
  - left. by exists r, b, n.
  - right. intros (? & ? & ? & [= <-] & ? & ? & ?). congruence.
Qed.

Lemma Remove_shape h (t : @Trie) k r :
  wf h t → root_ t = Some r →
  ∃ t' h', run (Remove t k) h = Ok (t', h')
    ∧ (has_key h t k →
       ∀ p x, p `prefix_of` k → node_below h' (root_ t') p = Some x → h !! x = None)
    ∧ (∀ k', ¬ k' `prefix_of` k →
             node_below h' (root_ t') k' = node_below h (root_ t) k')
    ∧ size h' ≤ size h + length k + 1.
Proof.
  intros Hwf Hroot. pose proof Hwf as [Hc Hv]. rewrite Hroot in Hv. simpl in Hv.
  destruct (Remove_spec type_of h t k r Hwf Hroot)
    as (t' & h' & Hrun & _ & _ & _ & _ & Hnoop & _).
  exists t', h'. split; [done|].
  destruct (has_key_dec h t k) as [Hk|Hno].
  2:{ destruct (Hnoop Hno) as [-> ->]. split_and!; [done|done|lia]. }
  destruct Hk as (r' & b & n & Hr' & Hb & Hn & Hval).
  rewrite Hroot in Hr'. injection Hr' as <-.
  unfold Remove in Hrun. rewrite Hroot, run_bind in Hrun.
  destruct (wp_run _ _ _ _
              (Remove_walk_wp (λ _, True) h r Hc k [] [] r (chain_nil h r) Hv))
    as (walk & h1 & Hwalk & -> & Hres).
  rewrite Hwalk, Hb in *. destruct Hres as (stk & -> & Hch).
  rewrite app_nil_r in Hch.
  cbn [run bind deref read] in Hrun. rewrite Hn in Hrun.
  cbn [run bind] in Hrun. rewrite Hval in Hrun. cbn [negb] in Hrun.
  rewrite run_bind in Hrun.
  assert (Hkn : ∀ ch x, children_ n !! ch = Some x → is_Some (h !! x)).
  { intros ch x Hx. by eapply closed_lookup. }
  set (nd1 := if bool_decide (children_ n = ∅) then None else Some (fresh (dom h))).
  set (h1 := if bool_decide (children_ n = ∅) then h
             else <[fresh (dom h) := PlainNode (children_ n)]> h).
  assert (Hterm : run (if bool_decide (children_ n = ∅) then ret None
                        else bind (make_shared (PlainNode (children_ n)))
                                  (λ a, ret (Some a))) h
                  = Ok (nd1, h1)).
  { unfold nd1, h1. by destruct (bool_decide (children_ n = ∅)). }
  assert (Hfacts : h ⊆ h1 ∧ closed h1 ∧ valid h1 nd1
                   ∧ (∀ x, nd1 = Some x → h !! x = None)
                   ∧ (∀ ch' s, node_below h1 nd1 (ch' :: s) = node_at h b (ch' :: s))
                   ∧ size h1 ≤ size h + 1).
  { unfold nd1, h1. destruct (decide (children_ n = ∅)) as [Hem|Hne].
    - rewrite !bool_decide_eq_true_2 by done. split_and!; try done; [|lia].
      intros ch' s. rewrite (node_at_cons _ _ _ _ _ Hn), Hem. by rewrite lookup_empty.
    - rewrite !bool_decide_eq_false_2 by done.
      destruct (alloc_facts h (PlainNode (children_ n)) Hc Hkn) as (Ha & Hsub & Hc' & Ha').
      split_and!; try done.
      + simpl. eauto.
      + by intros ? [= <-].
      + intros ch' s. cbn [node_below mbind option_bind].
        by apply (node_at_clone h _ b _ n (PlainNode (children_ n)) ch' s).
      + rewrite map_size_insert_None by done. lia. }
  destruct Hfacts as (Hsub1 & Hc1 & Hnd1 & Hfr1 & Hbelow1 & Hsz1).
  rewrite Hterm, run_bind in Hrun.
  destruct (run (Remove_fold (rev k) stk nd1) h1) as [[res h2]|] eqn:Hfold; [|done].
  cbn in Hrun. injection Hrun as <- <-.
  destruct (Remove_fold_shape h r Hc Hv stk (rev k) b Hch h1 nd1 res h2
              Hsub1 Hc1 Hnd1 Hfr1 Hfold) as (Hpath & Hat & Hoff & Hsz).
  rewrite rev_involutive in Hpath, Hat, Hoff. rewrite length_rev in Hsz.
  cbn [root_]. split_and!.
  - intros _ p x. apply Hpath.
  - intros k' Hnp. rewrite Hroot. cbn [node_below mbind option_bind].
    destruct (decide (k `prefix_of` k')) as [[s ->]|Hdiv]; [|by apply Hoff].
    destruct s as [|ch' s]; [destruct Hnp; by rewrite app_nil_r|].
    rewrite Hat, Hbelow1. symmetry.
    rewrite <- (rev_involutive k) at 1. apply (chain_node_at _ _ _ _ _ (ch' :: s) Hch).
  - lia.
Qed.

(** X15.  [Remove] of a key the trie holds copies the path and shares the
    rest: in the trie it returns, a node at a prefix of the key, where one
    is left, is an object that did not exist before; the node at any other
    key is the very object the old trie has there, if it has one. *)
Theorem Remove_copies_path h (t : @Trie) k r :
  wf h t → root_ t = Some r → has_key h t k →
  ∃ t' h', run (Remove t k) h = Ok (t', h')
    ∧ (∀ p x, p `prefix_of` k → node_below h' (root_ t') p = Some x → h !! x = None)
    ∧ (∀ k', ¬ k' `prefix_of` k →
             node_below h' (root_ t') k' = node_below h (root_ t) k').
Proof.
  intros Hwf Hr Hk.
  destruct (Remove_shape h t k r Hwf Hr) as (t' & h' & Hrun & Hpath & Hoff & _).
  exists t', h'. split_and!; [done| |done]. by apply Hpath.
Qed.

(** X16.  [Remove] on a trie that is not empty allocates at most one
    object for each character of the key and one more, whatever the size
    of the trie. *)
Theorem Remove_allocates_at_most h (t : @Trie) k r :
  wf h t → root_ t = Some r →
  ∃ t' h', run (Remove t k) h = Ok (t', h')
           ∧ size h' ≤ size h + length k + 1.
Proof.
  intros Hwf Hr.
  destruct (Remove_shape h t k r Hwf Hr) as (t' & h' & Hrun & _ & _ & Hsz).
  by exists t', h'.
Qed.

(** X5.  On a trie that is not empty, [Remove] returns the very trie it
    was called on exactly when the key holds no value, and then it
    allocates nothing. *)
Theorem Remove_same_trie_iff h (t : @Trie) k r :
  wf h t → root_ t = Some r →
  ∃ t' h', run (Remove t k) h = Ok (t', h')
           ∧ (t' = t ↔ ¬ has_key h t k)
           ∧ (¬ has_key h t k → h' = h).
Proof.
  intros Hwf Hr. pose proof Hwf as [_ Hv]. rewrite Hr in Hv. simpl in Hv.
  destruct (Remove_shape h t k r Hwf Hr) as (t' & h' & Hrun & Hpath & _).
  destruct (Remove_spec type_of h t k r Hwf Hr)
    as (t2 & h2 & Hrun2 & _ & _ & _ & _ & Hnoop & _).
  rewrite Hrun in Hrun2. injection Hrun2 as <- <-.
  exists t', h'. split_and!; [done| |by intros [_ ?]%Hnoop].
  split; [|by intros [? _]%Hnoop].
  intros -> Hk. specialize (Hpath Hk [] r (prefix_nil _)).
  rewrite Hr in Hpath. destruct Hv as [n Hn]. by rewrite Hpath in Hn.
Qed.

(** X27.  A [Put] and a [Remove] at different keys commute on a trie that
    is not empty: [t.Put(k1, v).Remove(k2)] and [t.Remove(k2).Put(k1, v)]
    read the same at every key and every type, also when the [Remove]
    leaves the empty trie for the [Put] to start from. *)
Theorem Put_Remove_commute h (t : @Trie) k1 v k2 r :
  wf h t → root_ t = Some r → k1 ≠ k2 →
  ∃ ta ha tab hab tb hb tba hba,
    run (Put t k1 v) h = Ok (ta, ha) ∧ run (Remove ta k2) ha = Ok (tab, hab)
    ∧ run (Remove t k2) h = Ok (tb, hb) ∧ run (Put tb k1 v) hb = Ok (tba, hba)
    ∧ ∀ T k', eval (Get type_of tab T k') hab = eval (Get type_of tba T k') hba.
Proof.
  intros Hwf Hr Hne.
  destruct (Put_reads h t k1 v Hwf) as (ta & ha & Hruna & _ & Hwfa & [ra Hra] & _ & _).
  destruct (Put_spec type_of h t k1 v Hwf) as (ta' & ha' & Hruna' & _ & _ & Hvala & _).
  rewrite Hruna in Hruna'. injection Hruna' as <- <-.
  destruct (Remove_reads ha ta k2 ra Hwfa Hra) as (tab & hab & Hrunab & _ & _ & _ & Hgetab).
  destruct (Remove_spec type_of h t k2 r Hwf Hr)
    as (tb & hb & Hrunb & _ & Hwfb & Hvalb & _).
  destruct (Put_reads hb tb k1 v Hwfb) as (tba & hba & Hrunba & _ & _ & _ & _ & Hgetba).
  exists ta, ha, tab, hab, tb, hb, tba, hba. split_and!; [done..|].
  intros T k'. rewrite Hgetab, Hgetba, Hvala, Hvalb. simpl.
  repeat case_decide; by simplify_eq.
Qed.

End TrieLaws.

(** * Further properties of the store *)

Section StoreLaws.
Context {TypeId : Type} `{EqDecision TypeId} {Val : Type} (type_of : Val → TypeId).
Implicit Types (h : gmap positive (@TrieNode Val)).
Implicit Types (vs : list (Trie * gmap positive (@TrieNode Val))).
Implicit Types (s : @store TypeId Val) (th : @thread TypeId Val).

(** *** Every version comes from the one before *)

Lemma writer_ok_idle h rt vs th :
  at_ th ≠ W57 → at_ th ≠ W59 → at_ th ≠ W59call → at_ th ≠ W61 → at_ th ≠ W63 →
  writer_ok h rt vs th.
Proof. intros. split_and!; intros; destruct_or?; done. Qed.

Lemma writer_ok_no_lock h rt vs th :
  holds_write_lock (at_ th) = false → writer_ok h rt vs th.
Proof. intros Hno. apply writer_ok_idle; intros Hat; by rewrite Hat in Hno. Qed.

(** A step of thread [i] keeps the history in order if it keeps thread [i]
    in order and, when it changes the heap, [root_] or the versions, holds
    [write_lock_]. *)
Lemma history_update s i th th' h' r' rl' wl' ext :
  store_inv type_of s → history_ok s → threads s !! i = Some th →
  linear (versions s ++ ext) →
  (h' = heap s ∧ r' = store_root_ s ∧ ext = []) ∨ holds_write_lock (at_ th) = true →
  writer_ok h' r' (versions s ++ ext) th' →
  history_ok (mkStore h' r' rl' wl' (<[i := th']> (threads s)) (versions s ++ ext)).
Proof.
  intros (_ & _ & _ & _ & _ & Hths) [_ Hwr] Hi Hlin Hsame Hok.
  pose proof (lookup_lt_Some _ _ _ Hi) as Hlt.
  split; cbn; [done|].
  intros j thj Hj. destruct (decide (i = j)) as [<-|Hne].
  - rewrite list_lookup_insert_eq in Hj by done. by injection Hj as <-.
  - rewrite list_lookup_insert_ne in Hj by done.
    destruct Hsame as [(-> & -> & ->)|Hwi]; [rewrite app_nil_r; by eapply Hwr|].
    apply writer_ok_no_lock.
    destruct (Hths i th Hi) as (_ & Hw & _), (Hths j thj Hj) as (_ & Hw' & _).
    destruct (holds_write_lock (at_ thj)); [|done].
    assert (write_lock_ s = Some i) by (by apply Hw).
    assert (write_lock_ s = Some j) by (by apply Hw'). congruence.
Qed.

Lemma history_update_same s i th th' rl' wl' :
  store_inv type_of s → history_ok s → threads s !! i = Some th →
  writer_ok (heap s) (store_root_ s) (versions s) th' →
  history_ok (mkStore (heap s) (store_root_ s) rl' wl' (<[i := th']> (threads s))
                      (versions s)).
Proof.
  intros Hinv Hhist Hi Hok.
  rewrite <- (app_nil_r (versions s)) in Hok |- * at 1.
  eapply history_update; try done.
  - rewrite app_nil_r. apply Hhist.
  - by left.
Qed.

Lemma new_history_ok : history_ok (@new_store TypeId Val).
Proof. split; [by intros [|n] ?????|done]. Qed.

Lemma spawn_history s c : history_ok s → history_ok (spawn c s).
Proof.
  intros [Hlin Hwr]. split; [done|]. cbn. intros i th Hi.
  apply lookup_app_Some in Hi as [Hi|[_ Hi]]; [by eapply Hwr|].
  apply list_lookup_singleton_Some in Hi as [_ <-].
  apply writer_ok_idle; by destruct c.
Qed.

Lemma history_step s i s' :
  store_inv type_of s → history_ok s → step type_of i s = Some s' → history_ok s'.
Proof.
  intros Hinv Hhist Hstep. unfold step in Hstep.
  destruct (threads s !! i) as [th|] eqn:Hi; [|done].
  pose proof Hinv as (Hc & Hvs & Hlast & _ & _ & Hths).
  destruct (Hths i th Hi) as (Hcode & Hw & _ & _ & _ & Hget & _).
  pose proof Hhist as [Hlin Hwr].
  destruct (Hwr i th Hi) as (Hroot & Hcall & Hdone).
  destruct th as [c p rt lk up pv sn]. cbn -[closed wf] in *.
  destruct p; cbn -[closed wf advance] in Hstep; try done.
  - (* G27 *)
    destruct (root_lock_ s); [done|]. injection Hstep as <-.
    eapply history_update_same; [done..|]. by apply writer_ok_idle.
  - (* G29 *)
    injection Hstep as <-.
    eapply history_update_same; [done..|]. by apply writer_ok_idle.
  - (* G31 *)
    injection Hstep as <-.
    eapply history_update_same; [done..|]. by apply writer_ok_idle.
  - (* G34 *)
    destruct c as [T k| |]; [|done..]. injection Hstep as <-.
    eapply history_update_same; [done..|]. by apply writer_ok_idle.
  - (* G34call *)
    destruct Hget as (T & k & n & hp & r & _ & _ & _ & _ & Hro & _); [done|].
    destruct lk as [r'|a κ|? ?|? ? ?|?]; cbn -[closed wf] in Hstep; try done.
    + injection Hstep as <-.
      eapply history_update_same; [done..|]. by apply writer_ok_idle.
    + destruct (read (heap s) a) as [m|]; [|done]. injection Hstep as <-.
      eapply history_update_same; [done..|]. by apply writer_ok_idle.
  - (* W51 *)
    destruct (write_lock_ s); [done|]. injection Hstep as <-.
    eapply history_update_same; [done..|]. by apply writer_ok_idle.
  - (* W53 *)
    destruct (root_lock_ s); [done|]. injection Hstep as <-.
    eapply history_update_same; [done..|]. by apply writer_ok_idle.
  - (* W55: the copy of [root_] *)
    injection Hstep as <-.
    eapply history_update_same; [done..|].
    split_and!; cbn; intros; destruct_or?; done.
  - (* W57 *)
    injection Hstep as <-.
    eapply history_update_same; [done..|].
    split_and!; cbn; intros; destruct_or?; auto; done.
  - (* W59: the call begins *)
    destruct Hlast as [hp Hlast].
    assert (Hsub : hp ⊆ heap s).
    { apply last_version in Hlast. by eapply Hvs. }
    assert (Hrt : rt = store_root_ s) by auto.
    destruct c as [T k|k v|k]; [done| |]; injection Hstep as <-.
    all: eapply history_update_same; [done..|].
    all: split_and!; cbn; [intros; destruct_or?; done| |intros; destruct_or?; done].
    all: intros _; exists hp, (heap s); split_and!; [done..|]; subst rt.
    + left. by exists k, v.
    + right. by exists k.
  - (* W59call *)
    destruct Hcall as (hp & h0 & Hl & Hsub & Hc0 & Hrun); [done|].
    assert (Hup : (∃ t', up = Done t') ∨ ¬ (∃ t', up = Done t')).
    { destruct up; [left; eauto|right; intros [? ?]; done..]. }
    destruct Hup as [[t' ->]|Hnot].
    + (* the call returns *)
      cbn -[closed wf] in Hstep. injection Hstep as <-.
      eapply history_update_same; [done..|].
      split_and!; cbn; [intros; destruct_or?; done..|].
      intros _. exists hp. split; [done|]. exists h0. split_and!; [done..|].
      cbn in Hrun. destruct Hrun as [(k & v & _ & Hrun)|(k & _ & Hrun)]; eauto.
    + (* one access to the heap *)
      assert (Hadv : ∃ m' h', advance up (heap s) = Some (Ok (m', h'))
                              ∧ s' = mkStore h' (store_root_ s) (root_lock_ s) (write_lock_ s)
                                       (<[i := set_update m'
                                                 (mkThread c W59call rt lk up pv sn)]>
                                          (threads s)) (versions s)).
      { destruct up as [t'|? ?|? ?|? ? ?|?]; [destruct Hnot; eauto|..];
          cbn -[closed wf] in Hstep |- *; repeat case_match; simplify_eq; eauto. }
      destruct Hadv as (m' & h' & Hadv & ->).
      apply advance_run in Hadv.
      rewrite <- (app_nil_r (versions s)) at 1.
      eapply history_update; [done..|by rewrite app_nil_r|by right|].
      rewrite app_nil_r.
      split_and!; cbn; [intros; destruct_or?; done| |intros; destruct_or?; done].
      intros _. exists hp, h0. split_and!; [done..|]. by rewrite <- Hadv.
  - (* W61 *)
    destruct (root_lock_ s); [done|]. injection Hstep as <-.
    eapply history_update_same; [done..|].
    split_and!; cbn; [intros; destruct_or?; done..|]. auto.
  - (* W63: the assignment to [root_] *)
    injection Hstep as <-.
    destruct Hdone as (hp & Hl & Hone); [by right|].
    eapply history_update; [done..| |by right|].
    + intros n t hq t' hq' Hn Hn'.
      apply lookup_app_Some in Hn' as [Hn'|[Hlen Hn']].
      * apply lookup_lt_Some in Hn' as Hlt.
        rewrite lookup_app_l in Hn by lia. by eapply Hlin.
      * apply list_lookup_singleton_Some in Hn' as [Hz [= <- <-]].
        assert (Hlen' : 0 < length (versions s))
          by (destruct (versions s); simpl in *; [done|lia]).
        rewrite lookup_app_l in Hn by lia.
        apply last_version in Hl.
        replace n with (length (versions s) - 1) in Hn by lia.
        rewrite Hl in Hn. by injection Hn as <- <-.
    + by apply writer_ok_idle.
  - (* W65 *)
    injection Hstep as <-.
    eapply history_update_same; [done..|]. by apply writer_ok_idle.
  - (* W67 *)
    injection Hstep as <-.
    eapply history_update_same; [done..|]. by apply writer_ok_idle.
Qed.

Lemma run_history es s :
  store_inv type_of s → history_ok s →
  store_inv type_of (run_store type_of es s) ∧ history_ok (run_store type_of es s).
Proof.
  revert s. induction es as [|[c|i] es IH]; intros s Hinv Hhist; simpl; [done|..].
  - apply IH; [by apply spawn_inv|by apply spawn_history].
  - destruct (step type_of i s) as [s'|] eqn:Hstep; [|by apply IH].
    apply IH; [by apply (step_inv type_of s i)|by apply (history_step s i)].
Qed.

(** *** A call that runs alone *)

Lemma run_store_app (es1 es2 : list (@event TypeId Val)) s :
  run_store type_of (es1 ++ es2) s = run_store type_of es2 (run_store type_of es1 s).
Proof.
  revert s. induction es1 as [|[c|i] es1 IH]; intros s; simpl; [done|apply IH|].
  destruct (step type_of i s); apply IH.
Qed.

Lemma lookup_last_thread (ths : list (@thread TypeId Val)) th :
  (ths ++ [th]) !! length ths = Some th.
Proof. by apply list_lookup_middle. Qed.

Lemma insert_last_thread (ths : list (@thread TypeId Val)) th th' :
  <[length ths := th']> (ths ++ [th]) = ths ++ [th'].
Proof. rewrite insert_app_r_alt by done. by rewrite Nat.sub_diag. Qed.

(** Inside the call of line 59 (82): the steps of the thread, one per
    access to the heap, get the call to its end. *)
Lemma update_steps (m : @prog Val Trie) :
  ∀ h x hx rt rl wl ths c t lk pv sn vs,
    run m h = Ok (x, hx) →
    ∃ n, run_store type_of (replicate n (Run (length ths)))
           (mkStore h rt rl wl (ths ++ [mkThread c W59call t lk m pv sn]) vs)
         = mkStore hx rt rl wl (ths ++ [mkThread c W59call t lk (Done x) pv sn]) vs.
Proof.
  induction m as [y|p κ IH|nd κ IH|a g κ IH|e];
    intros h x hx rt rl wl ths c t lk pv sn vs Hrun; simpl in Hrun.
  - injection Hrun as <- <-. by exists 0.
  - destruct (read h p) as [nn|] eqn:Hread; [|done].
    destruct (IH nn h x hx rt rl wl ths c t lk pv sn vs Hrun) as [n Hn].
    exists (S n). cbn [replicate run_store]. unfold step at 1.
    cbn [threads]. rewrite lookup_last_thread. cbn. rewrite Hread.
    cbn. by rewrite insert_last_thread.
  - destruct (IH _ _ x hx rt rl wl ths c t lk pv sn vs Hrun) as [n Hn].
    exists (S n). cbn [replicate run_store]. unfold step at 1.
    cbn [threads]. rewrite lookup_last_thread. cbn.
    by rewrite insert_last_thread.
  - destruct (h !! a) as [nn|] eqn:Ha; [|done].
    destruct (IH _ x hx rt rl wl ths c t lk pv sn vs Hrun) as [n Hn].
    exists (S n). cbn [replicate run_store]. unfold step at 1.
    cbn [threads]. rewrite lookup_last_thread. cbn. rewrite Ha.
    cbn. by rewrite insert_last_thread.
  - done.
Qed.

(** The same inside the call of line 34. *)
Lemma lookup_steps (m : @prog Val (option Val)) :
  ∀ h x hx rt rl wl ths c t up pv sn vs,
    run m h = Ok (x, hx) →
    ∃ n, run_store type_of (replicate n (Run (length ths)))
           (mkStore h rt rl wl (ths ++ [mkThread c G34call t m up pv sn]) vs)
         = mkStore hx rt rl wl (ths ++ [mkThread c G34call t (Done x) up pv sn]) vs.
Proof.
  induction m as [y|p κ IH|nd κ IH|a g κ IH|e];
    intros h x hx rt rl wl ths c t up pv sn vs Hrun; simpl in Hrun.
  - injection Hrun as <- <-. by exists 0.
  - destruct (read h p) as [nn|] eqn:Hread; [|done].
    destruct (IH nn h x hx rt rl wl ths c t up pv sn vs Hrun) as [n Hn].
    exists (S n). cbn [replicate run_store]. unfold step at 1.
    cbn [threads]. rewrite lookup_last_thread. cbn. rewrite Hread.
    cbn. by rewrite insert_last_thread.
  - destruct (IH _ _ x hx rt rl wl ths c t up pv sn vs Hrun) as [n Hn].
    exists (S n). cbn [replicate run_store]. unfold step at 1.
    cbn [threads]. rewrite lookup_last_thread. cbn.
    by rewrite insert_last_thread.
  - destruct (h !! a) as [nn|] eqn:Ha; [|done].
    destruct (IH _ x hx rt rl wl ths c t up pv sn vs Hrun) as [n Hn].
    exists (S n). cbn [replicate run_store]. unfold step at 1.
    cbn [threads]. rewrite lookup_last_thread. cbn. rewrite Ha.
    cbn. by rewrite insert_last_thread.
  - done.
Qed.

Ltac lone_step :=
  cbn [replicate Nat.add run_store]; unfold step at 1;
  cbn [threads]; rewrite lookup_last_thread;
  cbn -[Put Remove Get run_store replicate Nat.add Nat.sub];
  rewrite ?insert_last_thread;
  unfold goto, set_root, set_update, set_lookup, set_pValue;
  cbn [op at_ root lookup update pValue since].

(** A writer that runs alone from a state in which both locks are free:
    its steps take it through the whole of [TrieStore::Put], respectively
    [TrieStore::Remove]. *)
Lemma write_alone s c t' h' :
  in_code c W59 = true →
  write_lock_ s = None → root_lock_ s = None →
  run (match c with
       | CallPut k v => Put (store_root_ s) k v
       | CallRemove k => Remove (store_root_ s) k
       | CallGet _ _ => Done (store_root_ s)
       end) (heap s) = Ok (t', h') →
  ∃ n, run_store type_of (Enter c :: replicate n (Run (length (threads s)))) s
       = mkStore h' t' None None
           (threads s ++ [mkThread c Returned t' (Done None) (Done t') None
                                   (length (versions s) - 1)])
           (versions s ++ [(t', h')]).
Proof.
  destruct s as [h rt rl wl ths vs]. cbn [write_lock_ root_lock_ store_root_ heap
                                            threads versions].
  intros Hc -> -> Hrun.
  destruct (update_steps _ h t' h' rt None (Some (length ths)) ths c rt (Done None)
              None (length vs - 1) vs Hrun) as [n Hn].
  exists (5 + (n + 5)). cbn [run_store]. unfold spawn.
  cbn [entry threads heap store_root_ root_lock_ write_lock_ versions].
  destruct c as [T k|k v|k]; [done| |].
  - do 5 lone_step. rewrite replicate_add, run_store_app, Hn.
    by do 5 lone_step.
  - do 5 lone_step. rewrite replicate_add, run_store_app, Hn.
    by do 5 lone_step.
Qed.

(** A reader that runs alone from a state in which [root_lock_] is free,
    whoever holds [write_lock_]. *)
Lemma get_alone s T k r :
  root_lock_ s = None →
  run (Get type_of (store_root_ s) T k) (heap s) = Ok (r, heap s) →
  ∃ n, run_store type_of (Enter (CallGet T k) :: replicate n (Run (length (threads s)))) s
       = mkStore (heap s) (store_root_ s) None (write_lock_ s)
           (threads s ++ [mkThread (CallGet T k) Returned (store_root_ s) (Done r)
                                   (Done empty_trie) (Some r)
                                   (length (versions s) - 1)])
           (versions s).
Proof.
  destruct s as [h rt rl wl ths vs]. cbn [write_lock_ root_lock_ store_root_ heap
                                            threads versions].
  intros -> Hrun.
  destruct (lookup_steps _ h r h rt None wl ths (CallGet T k) rt (Done empty_trie)
              None (length vs - 1) vs Hrun) as [n Hn].
  exists (4 + (n + 1)). cbn [run_store]. unfold spawn.
  cbn [entry threads heap store_root_ root_lock_ write_lock_ versions].
  do 4 lone_step. rewrite replicate_add, run_store_app, Hn.
  by lone_step.
Qed.

(** *** When a thread can take a step *)

Lemma run_Ok_advance {A} (m : @prog Val A) h x h' :
  run m h = Ok (x, h') →
  (∃ y, m = Done y) ∨ ∃ m' h1, advance m h = Some (Ok (m', h1)).
Proof.
  destruct m as [y|p κ|nd κ|a g κ|e]; simpl; intros Hrun; [eauto|right..|done].
  - destruct (read h p); [eauto|done].
  - eauto.
  - destruct (h !! a); [eauto|done].
Qed.

Lemma step_versions i s s' :
  step type_of i s = Some s' → ∃ ext, versions s' = versions s ++ ext.
Proof.
  unfold step. destruct (threads s !! i) as [th|]; [|done]. cbn -[advance].
  assert (Hnil : ∃ ext, versions s = versions s ++ ext)
    by (exists []; by rewrite app_nil_r).
  destruct (at_ th); cbn -[advance]; intros Hstep; unfold acquire in Hstep;
    repeat case_match; simplify_eq; cbn in *; simplify_eq; cbn; eauto.
Qed.

Lemma run_versions es s :
  ∃ ext, versions (run_store type_of es s) = versions s ++ ext.
Proof.
  revert s. induction es as [|[c|i] es IH]; intros s; simpl.
  - exists []. by rewrite app_nil_r.
  - apply (IH (spawn c s)).
  - destruct (step type_of i s) as [s'|] eqn:Hstep; [|apply IH].
    destruct (step_versions _ _ _ Hstep) as [e1 He1], (IH s') as [e2 He2].
    exists (e1 ++ e2). by rewrite He2, He1, app_assoc.
Qed.

Lemma reachable_inv s :
  in_some_run type_of s → store_inv type_of s ∧ history_ok s.
Proof. intros [es <-]. apply run_history; [apply new_store_inv|apply new_history_ok]. Qed.

Lemma reachable_wf s :
  store_inv type_of s → wf (heap s) (store_root_ s).
Proof.
  intros (Hc & Hvs & [hp Hlast] & _). apply last_version in Hlast.
  destruct (Hvs _ _ _ Hlast) as [Hwf Hsub]. by apply (wf_later hp).
Qed.

(** *** The properties *)

(** X17.  No update is lost: the first value of [root_] is the empty trie,
    and every later value is what one [Trie::Put] or one [Trie::Remove],
    run in a heap that held the value before it unchanged, returned for
    that value. *)
Theorem TrieStore_no_lost_update s :
  in_some_run type_of s →
  versions s !! 0 = Some (empty_trie, ∅)
  ∧ ∀ n t hp t' hp',
      versions s !! n = Some (t, hp) → versions s !! S n = Some (t', hp') →
      ∃ h0, hp ⊆ h0 ∧ closed h0
            ∧ ((∃ k v, run (Put t k v) h0 = Ok (t', hp'))
               ∨ (∃ k, run (Remove t k) h0 = Ok (t', hp'))).
Proof.
  intros Hrun. destruct (reachable_inv s Hrun) as [_ [Hlin _]].
  split; [|exact Hlin].
  destruct Hrun as [es <-]. destruct (run_versions es new_store) as [ext ->]. done.
Qed.

(** X18.  Whoever holds [root_lock_] is at the copy of [root_], at the
    assignment to [root_] or at the unlock that follows them, and can take
    that step: the lock is never held during a call into the trie. *)
Theorem TrieStore_root_lock_is_short s i :
  in_some_run type_of s → root_lock_ s = Some i →
  ∃ th, threads s !! i = Some th
        ∧ at_ th ∈ [G29; G31; W55; W57; W63; W65]
        ∧ is_Some (step type_of i s).
Proof.
  intros Hrun Hl. destruct (reachable_inv s Hrun) as [(_ & _ & _ & _ & Hrl & Hths) _].
  destruct (lookup_lt_is_Some_2 (threads s) i (Hrl i Hl)) as [th Hi].
  destruct (Hths i th Hi) as (Hcode & _ & Hr & _).
  assert (Hh : holds_root_lock (at_ th) = true) by (by apply Hr).
  exists th. split; [done|]. split.
  - clear -Hh. destruct (at_ th); try done; set_solver.
  - eapply step_unless_blocked; try done; intros Hat; destruct_or?;
      by rewrite Hat in Hh.
Qed.

(** X19.  When every call has returned, neither lock is held. *)
Theorem TrieStore_locks_free_at_rest s :
  in_some_run type_of s →
  (∀ i th, threads s !! i = Some th → at_ th = Returned) →
  write_lock_ s = None ∧ root_lock_ s = None.
Proof.
  intros Hrun Hall. destruct (reachable_inv s Hrun) as [(_ & _ & _ & Hwl & Hrl & Hths) _].
  split.
  - destruct (write_lock_ s) as [i|] eqn:Hl; [|done].
    destruct (lookup_lt_is_Some_2 (threads s) i (Hwl i eq_refl)) as [th Hi].
    destruct (Hths i th Hi) as (_ & Hw & _). rewrite (Hall i th Hi) in Hw.
    discriminate (proj2 Hw eq_refl).
  - destruct (root_lock_ s) as [i|] eqn:Hl; [|done].
    destruct (lookup_lt_is_Some_2 (threads s) i (Hrl i eq_refl)) as [th Hi].
    destruct (Hths i th Hi) as (_ & _ & Hr & _). rewrite (Hall i th Hi) in Hr.
    discriminate (proj2 Hr eq_refl).
Qed.

(** X20.  What a [Get] has returned stays true of the trie it holds: the
    [root] that the returned [ValueGuard] keeps reads, in the heap as it is
    now and whatever has been written since, the value that was returned.
    No writer overwrites an object of a published trie; the heap of the
    model releases no object, as a trie that a guard holds is not released
    in the source. *)
Theorem TrieStore_returned_value_stays s i th r :
  in_some_run type_of s → threads s !! i = Some th → pValue th = Some r →
  ∃ T k, op th = CallGet T k
         ∧ eval (Get type_of (root th) T k) (heap s) = Ok r.
Proof.
  intros Hrun Hi Hr. destruct (reachable_inv s Hrun) as [(_ & Hvs & _ & _ & _ & Hths) _].
  destruct (Hths i th Hi) as (_ & _ & _ & _ & _ & _ & _ & _ & Hret).
  destruct (Hret r Hr) as (T & k & n & hp & _ & Hop & _ & Hv & Hget).
  destruct (Hvs n _ hp Hv) as [Hwf Hsub].
  exists T, k. split; [done|]. by rewrite (Get_later type_of hp).
Qed.

(** X21.  The store does not deadlock.  While some call has not returned,
    some thread can take a step, unless a [Remove] is inside its call of
    [Trie::Remove] on the empty trie, which faults. *)
Theorem TrieStore_no_deadlock s :
  in_some_run type_of s →
  (∃ i th, threads s !! i = Some th ∧ at_ th ≠ Returned) →
  (∃ j, is_Some (step type_of j s))
  ∨ (∃ j th k, threads s !! j = Some th ∧ at_ th = W59call
               ∧ op th = CallRemove k ∧ store_root_ s = empty_trie).
Proof.
  intros Hrun (i & th & Hi & Hnot).
  destruct (reachable_inv s Hrun) as [Hinv [_ Hwr]].
  pose proof (reachable_wf s Hinv) as Hwf.
  pose proof Hinv as (Hc & Hvs & Hlast & Hwl & Hrl & Hths).
  assert (Hlk : ∀ j thj, threads s !! j = Some thj → at_ thj = G34call →
                  (∃ y, lookup thj = Done y)
                  ∨ ∃ m' h1, advance (lookup thj) (heap s) = Some (Ok (m', h1))).
  { intros j thj Hj Hat. destruct (Hths j thj Hj) as (_ & _ & _ & _ & _ & Hget & _).
    destruct (Hget Hat) as (T & k & n & hp & r & _ & _ & Hv & _ & _ & Hall).
    destruct (Hvs n _ hp Hv) as [_ Hsub]. specialize (Hall (heap s) Hsub).
    unfold eval in Hall.
    destruct (run (lookup thj) (heap s)) as [[x h1]|] eqn:Hrunl; [|done].
    by eapply run_Ok_advance. }
  destruct (root_lock_ s) as [j|] eqn:Hrlock.
  { (* the holder of [root_lock_] steps *)
    left. exists j.
    destruct (lookup_lt_is_Some_2 (threads s) j (Hrl j eq_refl)) as [thj Hj].
    destruct (Hths j thj Hj) as (Hcode & _ & Hr & _).
    assert (Hh : holds_root_lock (at_ thj) = true) by (by apply Hr).
    eapply step_unless_blocked; try done; intros Hat; destruct_or?;
      by rewrite Hat in Hh. }
  destruct (write_lock_ s) as [j|] eqn:Hwlock.
  - (* [root_lock_] is free: the writer steps, unless it faults *)
    destruct (lookup_lt_is_Some_2 (threads s) j (Hwl j eq_refl)) as [thj Hj].
    destruct (Hths j thj Hj) as (Hcode & Hw & _).
    assert (Hh : holds_write_lock (at_ thj) = true) by (by apply Hw).
    assert (Hd : at_ thj = W59call ∨ at_ thj ≠ W59call)
      by (destruct (at_ thj); auto).
    destruct Hd as [Hat|Hat].
    + destruct (Hwr j thj Hj) as (_ & Hcall & _).
      destruct (Hcall Hat) as (hp & h0 & Hl & Hsub & Hc0 & Hcases).
      assert (Hwf0 : wf h0 (store_root_ s)).
      { apply last_version in Hl. destruct (Hvs _ _ _ Hl) as [Hwfp _].
        by apply (wf_later hp). }
      assert (Hgo : ∀ x h1, run (update thj) (heap s) = Ok (x, h1) →
                            ∃ j, is_Some (step type_of j s)).
      { intros x h1 Hx. exists j.
        eapply step_unless_blocked; try done; try congruence; try (intros; congruence).
        intros _. by eapply run_Ok_advance. }
      destruct Hcases as [(k & v & Hop & Heq)|(k & Hop & Heq)].
      * left. destruct (Put_spec type_of h0 _ k v Hwf0) as (t' & h' & Hput & _).
        rewrite Hput in Heq. by eapply Hgo.
      * destruct (root_ (store_root_ s)) as [r|] eqn:Hroot.
        -- left. destruct (Remove_spec type_of h0 _ k r Hwf0 Hroot) as (t' & h' & Hrem & _).
           rewrite Hrem in Heq. by eapply Hgo.
        -- right. exists j, thj, k. split_and!; [done..|].
           destruct (store_root_ s) as [o]. simpl in Hroot. by subst o.
    + left. exists j.
      eapply step_unless_blocked; try done; intros Hat'; try congruence;
        by rewrite Hat' in Hh.
  - (* both locks are free *)
    left. exists i. destruct (Hths i th Hi) as (Hcode & Hw & Hr & _).
    eapply step_unless_blocked; try done; [by eapply Hlk|].
    intros Hat. rewrite Hat in Hw. discriminate (proj1 Hw eq_refl).
Qed.

(** X22.  A [Put] that runs alone, from a state in which both locks are
    free, returns: [Trie::Put] on the current [root_] returns a trie, and
    after finitely many steps of the thread that trie is [root_], a version
    has been added for it, both locks are free again and the thread has
    returned. *)
Theorem TrieStore_Put_alone s k v :
  in_some_run type_of s → write_lock_ s = None → root_lock_ s = None →
  ∃ n t' h',
    run (Put (store_root_ s) k v) (heap s) = Ok (t', h')
    ∧ run_store type_of (Enter (CallPut k v) :: replicate n (Run (length (threads s)))) s
      = mkStore h' t' None None
          (threads s ++ [mkThread (CallPut k v) Returned t' (Done None) (Done t') None
                                  (length (versions s) - 1)])
          (versions s ++ [(t', h')]).
Proof.
  intros Hrun Hwl Hrl. destruct (reachable_inv s Hrun) as [Hinv _].
  destruct (Put_spec type_of _ _ k v (reachable_wf s Hinv)) as (t' & h' & Hput & _).
  destruct (write_alone s (CallPut k v) t' h' eq_refl Hwl Hrl Hput) as [n Hn].
  by exists n, t', h'.
Qed.

(** X23.  A [Remove] that runs alone on a store whose trie is not empty,
    from a state in which both locks are free, returns in the same way. *)
Theorem TrieStore_Remove_alone s k r :
  in_some_run type_of s → write_lock_ s = None → root_lock_ s = None →
  root_ (store_root_ s) = Some r →
  ∃ n t' h',
    run (Remove (store_root_ s) k) (heap s) = Ok (t', h')
    ∧ run_store type_of (Enter (CallRemove k) :: replicate n (Run (length (threads s)))) s
      = mkStore h' t' None None
          (threads s ++ [mkThread (CallRemove k) Returned t' (Done None) (Done t') None
                                  (length (versions s) - 1)])
          (versions s ++ [(t', h')]).
Proof.
  intros Hrun Hwl Hrl Hroot. destruct (reachable_inv s Hrun) as [Hinv _].
  destruct (Remove_spec type_of _ _ k r (reachable_wf s Hinv) Hroot)
    as (t' & h' & Hrem & _).
  destruct (write_alone s (CallRemove k) t' h' eq_refl Hwl Hrl Hrem) as [n Hn].
  by exists n, t', h'.
Qed.

(** X24.  A [Get] that runs alone, from a state in which [root_lock_] is
    free, returns the lookup in the current [root_], whether or not a
    writer holds [write_lock_]; it changes neither the heap nor [root_] nor
    [write_lock_]. *)
Theorem TrieStore_Get_alone s T k :
  in_some_run type_of s → root_lock_ s = None →
  ∃ n res,
    eval (Get type_of (store_root_ s) T k) (heap s) = Ok res
    ∧ run_store type_of (Enter (CallGet T k) :: replicate n (Run (length (threads s)))) s
      = mkStore (heap s) (store_root_ s) None (write_lock_ s)
          (threads s ++ [mkThread (CallGet T k) Returned (store_root_ s) (Done res)
                                  (Done empty_trie) (Some res)
                                  (length (versions s) - 1)])
          (versions s).
Proof.
  intros Hrun Hrl. destruct (reachable_inv s Hrun) as [Hinv _].
  pose proof (reachable_wf s Hinv) as Hwf.
  pose proof (Get_run type_of _ (heap s) _ T k Hwf (reflexivity _)) as Hget.
  destruct (get_alone s T k _ Hrl Hget) as [n Hn].
  eexists n, _. split; [|exact Hn]. unfold eval. by rewrite Hget.
Qed.

(** X25.  Round trip through the store: a [Put(k, v)] that runs alone and
    then a [Get<T>(k)] that runs alone, for [T] the type of [v]: the [Get]
    returns [v]. *)
Theorem TrieStore_Put_then_Get s k v :
  in_some_run type_of s → write_lock_ s = None → root_lock_ s = None →
  ∃ n m,
    let i := length (threads s) in
    let s' := run_store type_of
                (Enter (CallPut k v) :: replicate n (Run i)
                 ++ Enter (CallGet (type_of v) k) :: replicate m (Run (S i))) s in
    (pValue <$> threads s' !! S i) = Some (Some (Some v)).
Proof.
  intros Hrun Hwl Hrl. destruct (reachable_inv s Hrun) as [Hinv _].
  destruct (Put_reads type_of _ _ k v (reachable_wf s Hinv))
    as (t' & h' & Hput & _ & Hwf' & _ & _ & Hget).
  destruct (write_alone s (CallPut k v) t' h' eq_refl Hwl Hrl Hput) as [n Hn].
  set (s1 := run_store type_of (Enter (CallPut k v) :: replicate n (Run (length (threads s)))) s)
    in *.
  pose proof (Get_run type_of h' h' t' (type_of v) k Hwf' (reflexivity _)) as Hrunget.
  assert (Hg : run (Get type_of (store_root_ s1) (type_of v) k) (heap s1)
               = Ok (Some v, heap s1)).
  { rewrite Hn. cbn [store_root_ heap]. rewrite Hrunget. f_equal. f_equal.
    specialize (Hget (type_of v) k). unfold eval in Hget. rewrite Hrunget in Hget.
    rewrite !decide_True in Hget by done. by injection Hget. }
  destruct (get_alone s1 (type_of v) k (Some v)) as [m Hm]; [by rewrite Hn|done|].
  exists n, m. cbn zeta.
  rewrite app_comm_cons, run_store_app. fold s1.
  assert (Hlen : length (threads s1) = S (length (threads s))).
  { rewrite Hn. cbn [threads]. rewrite length_app. simpl. lia. }
  rewrite <- Hlen, Hm. cbn [threads]. by rewrite lookup_last_thread.
Qed.

(** X26.  Every trie the store has ever published is well formed and has
    no node without value and children (invariant I4), in the heap as it
    was when the trie was published. *)
Theorem TrieStore_versions_pruned s n t hp :
  in_some_run type_of s → versions s !! n = Some (t, hp) →
  wf hp t ∧ no_dead hp t.
Proof.
  intros Hrun. destruct (reachable_inv s Hrun) as [(_ & Hvs & _) [Hlin _]].
  assert (H0 : versions s !! 0 = Some (empty_trie, ∅)).
  { destruct Hrun as [es <-]. by destruct (run_versions es new_store) as [ext ->]. }
  revert t hp. induction n as [|n IH]; intros t hp Hn.
  - rewrite H0 in Hn. injection Hn as <- <-. split; [|done].
    split; [apply closed_empty|done].
  - split; [by eapply Hvs|].
    assert (Hlt : n < length (versions s)) by (apply lookup_lt_Some in Hn; lia).
    destruct (lookup_lt_is_Some_2 _ _ Hlt) as [[t0 hp0] Hn0].
    destruct (IH _ _ Hn0) as [Hwf0 Hnd0].
    destruct (Hlin _ _ _ _ _ Hn0 Hn) as (h0 & Hsub & Hc0 & Hw).
    assert (Hwf : wf h0 t0) by (by apply (wf_later hp0)).
    assert (Hnd : no_dead h0 t0).
    { destruct Hwf0 as [Hcp Hv]. unfold no_dead in *. destruct (root_ t0) as [r|]; [|done].
      by apply (no_dead_from_mono hp0). }
    destruct Hw as [(k & v & Hput)|(k & Hrem)].
    + destruct (Put_spec type_of h0 t0 k v Hwf) as (t' & h' & Hput' & _ & _ & _ & Hkeep).
      rewrite Hput in Hput'. injection Hput' as <- <-. auto.
    + destruct (root_ t0) as [r|] eqn:Hr; [|by rewrite Remove_empty in Hrem].
      destruct (Remove_spec type_of h0 t0 k r Hwf Hr)
        as (t' & h' & Hrem' & _ & _ & _ & Hkeep & _).
      rewrite Hrem in Hrem'. injection Hrem' as <- <-. auto.
Qed.

End StoreLaws.

(** ** The scenario of the specification, computed *)

Example scenario_after_puts :
  let '(t, h) := scene3 in
  eval (Get cpp_type_of t uint32_t (K "car")) h = Ok (Some (U32 2))
  ∧ eval (Get cpp_type_of t uint32_t (K "cat")) h = Ok (Some (U32 1))
  ∧ eval (Get cpp_type_of t uint32_t (K "cart")) h = Ok (Some (U32 3))
  ∧ eval (Get cpp_type_of t uint32_t (K "ca")) h = Ok None.
Proof. vm_compute. done. Qed.

Example scenario_after_remove :
  let '(t, h) := scene4 in
  eval (Get cpp_type_of t uint32_t (K "car")) h = Ok None
  ∧ eval (Get cpp_type_of t uint32_t (K "cat")) h = Ok (Some (U32 1))
  ∧ eval (Get cpp_type_of t uint32_t (K "cart")) h = Ok (Some (U32 3)).
Proof. vm_compute. done. Qed.

(** Removing the only key of a chain leaves the empty trie. *)
Example chain_collapses :
  ∃ h, run (Remove chain1.1 (K "ab")) chain1.2 = Ok (empty_trie, h).
Proof. eexists. vm_compute. reflexivity. Qed.

(** In [scene_mid] the writer is inside [Trie::Put], two objects into a
    new tree nobody else can reach, and the reader is inside [Trie::Get] on
    the version before. *)
Example scene_mid_threads :
  ((λ th, (at_ th, since th)) <$> threads scene_mid)
  = [(Returned, 0); (W59call, 1); (G34call, 1)]
  ∧ size (heap scene_mid) = 5
  ∧ ((λ v, size v.2) <$> versions scene_mid) = [0; 3].
Proof. vm_compute. done. Qed.

(** At the end of [schedule] the reader that ran beside the writer has
    returned null, the lookup in the version before the write; the reader
    that came after it has returned the new value. *)
Example scene_store_reader :
  ((λ th, (at_ th, pValue th)) <$> threads scene_store)
  = [(Returned, None); (Returned, None); (Returned, Some None);
     (Returned, Some (Some (U32 6)))]
  ∧ eval (Get cpp_type_of (store_root_ scene_store) uint32_t (K "ac")) (heap scene_store)
    = Ok (Some (U32 6))
  ∧ length (versions scene_store) = 3.
Proof. vm_compute. done. Qed.

(** ** Witnesses: the hypotheses of the theorems hold somewhere *)

Lemma scene3_wf : wf scene3.2 scene3.1.
Proof. apply (bool_decide_unpack _). vm_compute. reflexivity. Defined.

Lemma scene3_built : built scene3.2 scene3.1.
Proof.
  apply (built_Put scene2.2 scene2.1 (K "cart") (U32 3)); [|vm_compute; reflexivity].
  apply (built_Put scene1.2 scene1.1 (K "car") (U32 2)); [|vm_compute; reflexivity].
  apply (built_Put ∅ empty_trie (K "cat") (U32 1)); [|vm_compute; reflexivity].
  apply built_empty.
Defined.

Lemma scene3_has_car : has_key scene3.2 scene3.1 (K "car").
Proof. eexists _, _, _. split_and!; vm_compute; reflexivity. Defined.

Lemma Put_Get_round_trip_witness :
  wf scene3.2 scene3.1
  ∧ ∃ t' h', run (Put scene3.1 (K "car") (Str "two")) scene3.2 = Ok (t', h')
             ∧ eval (Get cpp_type_of t' std_string (K "car")) h' = Ok (Some (Str "two")).
Proof.
  split; [exact scene3_wf|].
  exact (Put_Get_round_trip cpp_type_of _ _ (K "car") (Str "two") scene3_wf).
Defined.

Lemma Put_leaves_receiver_witness :
  wf scene3.2 scene3.1
  ∧ ∃ t' h', run (Put scene3.1 (K "ca") (U64 9)) scene3.2 = Ok (t', h')
             ∧ (∀ a n, scene3.2 !! a = Some n → h' !! a = Some n)
             ∧ (∀ T k', eval (Get cpp_type_of scene3.1 T k') h'
                        = eval (Get cpp_type_of scene3.1 T k') scene3.2).
Proof.
  split; [exact scene3_wf|].
  exact (Put_leaves_receiver cpp_type_of _ _ (K "ca") (U64 9) scene3_wf).
Defined.

Lemma Put_other_keys_witness :
  wf scene3.2 scene3.1
  ∧ ∃ t' h', run (Put scene3.1 (K "car") (Str "two")) scene3.2 = Ok (t', h')
             ∧ ∀ T k', k' ≠ K "car" → eval (Get cpp_type_of t' T k') h'
                                      = eval (Get cpp_type_of scene3.1 T k') scene3.2.
Proof.
  split; [exact scene3_wf|].
  exact (Put_other_keys cpp_type_of _ _ (K "car") (Str "two") scene3_wf).
Defined.

Lemma Get_type_mismatch_witness :
  eval (Get cpp_type_of scene3.1 uint32_t (K "car")) scene3.2 = Ok (Some (U32 2))
  ∧ std_string ≠ uint32_t
  ∧ eval (Get cpp_type_of scene3.1 std_string (K "car")) scene3.2 = Ok None.
Proof.
  assert (Hget : eval (Get cpp_type_of scene3.1 uint32_t (K "car")) scene3.2
                 = Ok (Some (U32 2))) by (vm_compute; reflexivity).
  assert (Hne : std_string ≠ uint32_t) by discriminate.
  split_and!; [exact Hget|exact Hne|].
  exact (Get_type_mismatch cpp_type_of _ _ _ _ _ _ Hget Hne).
Defined.

Lemma Put_empty_key_witness :
  wf scene3.2 scene3.1
  ∧ ∃ a h', run (Put scene3.1 [] (Str "root")) scene3.2 = Ok (mkTrie (Some a), h')
            ∧ scene3.2 !! a = None
            ∧ h' !! a = Some (NodeWithValue (root_children scene3.2 scene3.1) (Str "root"))
            ∧ (∀ b n, scene3.2 !! b = Some n → h' !! b = Some n)
            ∧ eval (Get cpp_type_of (mkTrie (Some a)) std_string []) h' = Ok (Some (Str "root"))
            ∧ (∀ T ch k', eval (Get cpp_type_of (mkTrie (Some a)) T (ch :: k')) h'
                          = eval (Get cpp_type_of scene3.1 T (ch :: k')) scene3.2)
            ∧ (∀ T k', eval (Get cpp_type_of scene3.1 T k') h'
                       = eval (Get cpp_type_of scene3.1 T k') scene3.2).
Proof.
  split; [exact scene3_wf|].
  exact (Put_empty_key cpp_type_of _ _ (Str "root") scene3_wf).
Defined.

Lemma Get_absent_witness :
  absent scene3.2 scene3.1 (K "cab")
  ∧ eval (Get cpp_type_of scene3.1 uint32_t (K "cab")) scene3.2 = Ok None.
Proof.
  assert (Habs : absent scene3.2 scene3.1 (K "cab")).
  { right; left. eexists _, (K "ca"), "b"%char, [], _, _.
    split_and!; vm_compute; reflexivity. }
  split; [exact Habs|].
  exact (Get_absent cpp_type_of _ _ uint32_t _ Habs).
Defined.

Lemma Remove_other_keys_witness :
  wf scene3.2 scene3.1 ∧ has_key scene3.2 scene3.1 (K "car")
  ∧ ∃ t' h', run (Remove scene3.1 (K "car")) scene3.2 = Ok (t', h')
             ∧ ∀ T k', k' ≠ K "car" → eval (Get cpp_type_of t' T k') h'
                                      = eval (Get cpp_type_of scene3.1 T k') scene3.2.
Proof.
  split_and!; [exact scene3_wf|exact scene3_has_car|].
  exact (Remove_other_keys cpp_type_of _ _ _ scene3_wf scene3_has_car).
Defined.

Lemma Remove_prunes_witness :
  built scene3.2 scene3.1 ∧ has_key scene3.2 scene3.1 (K "car")
  ∧ ∃ t' h', run (Remove scene3.1 (K "car")) scene3.2 = Ok (t', h')
      ∧ no_dead h' t'
      ∧ (∀ b n, node_below scene3.2 (root_ scene3.1) (K "car") = Some b →
                scene3.2 !! b = Some n →
                (node_below h' (root_ t') (K "car") = None ↔ children_ n = ∅))
      ∧ (∀ p ch q a n,
           K "car" = p ++ ch :: q → node_below scene3.2 (root_ scene3.1) p = Some a →
           scene3.2 !! a = Some n →
           (node_below h' (root_ t') p = None
            ↔ is_value_node_ n = false ∧ delete ch (children_ n) = ∅
              ∧ node_below h' (root_ t') (p ++ [ch]) = None)).
Proof.
  split_and!; [exact scene3_built|exact scene3_has_car|].
  exact (Remove_prunes cpp_type_of _ _ _ scene3_built scene3_has_car).
Defined.

Lemma TrieStore_snapshots_witness :
  in_some_run cpp_type_of scene_mid
  ∧ ∀ i th,
      threads scene_mid !! i = Some th → at_ th = G34call →
      ∃ T k n hp r, op th = CallGet T k ∧ since th ≤ n
                    ∧ versions scene_mid !! n = Some (root th, hp)
                    ∧ eval (Get cpp_type_of (root th) T k) hp = Ok r
                    ∧ eval (lookup th) (heap scene_mid) = Ok r.
Proof.
  assert (Hrun : in_some_run cpp_type_of scene_mid)
    by (exists schedule_mid; reflexivity).
  split; [exact Hrun|].
  exact (proj1 (proj2 (proj2 (proj2 (proj2
           (TrieStore_snapshots cpp_type_of _ Hrun)))))).
Defined.

(** ** Witnesses for the further properties *)

Lemma scene3_root : root_ scene3.1 = Some 9%positive.
Proof. vm_compute. reflexivity. Defined.

Lemma scene3_no_ca : ¬ has_key scene3.2 scene3.1 (K "ca").
Proof.
  apply absent_not_has_key. right; right. eexists _, _, _.
  split_and!; vm_compute; reflexivity.
Defined.

Lemma scene3_closed : closed scene3.2.
Proof. apply (bool_decide_unpack _). vm_compute. reflexivity. Defined.

Lemma scene_store_runs : in_some_run cpp_type_of scene_store.
Proof. exists schedule. reflexivity. Defined.

Lemma scene_mid_runs : in_some_run cpp_type_of scene_mid.
Proof. exists schedule_mid. reflexivity. Defined.

Lemma scene_store_free :
  write_lock_ scene_store = None ∧ root_lock_ scene_store = None.
Proof. split; vm_compute; reflexivity. Defined.

Lemma Get_returns_heap_untouched_witness :
  wf scene3.2 scene3.1
  ∧ ∃ res, run (Get cpp_type_of scene3.1 uint32_t (K "car")) scene3.2
           = Ok (res, scene3.2).
Proof.
  split; [exact scene3_wf|].
  exact (Get_returns_heap_untouched cpp_type_of _ _ uint32_t (K "car") scene3_wf).
Defined.

Lemma Get_Some_iff_witness :
  wf scene3.2 scene3.1
  ∧ (eval (Get cpp_type_of scene3.1 uint32_t (K "car")) scene3.2 = Ok (Some (U32 2))
     ↔ ∃ r b kids, root_ scene3.1 = Some r ∧ node_at scene3.2 r (K "car") = Some b
                   ∧ scene3.2 !! b = Some (NodeWithValue kids (U32 2))
                   ∧ cpp_type_of (U32 2) = uint32_t).
Proof.
  split; [exact scene3_wf|].
  exact (Get_Some_iff cpp_type_of _ _ uint32_t (K "car") (U32 2) scene3_wf).
Defined.

Lemma Remove_Get_null_witness :
  wf scene3.2 scene3.1 ∧ root_ scene3.1 = Some 9%positive
  ∧ ∃ t' h', run (Remove scene3.1 (K "car")) scene3.2 = Ok (t', h')
             ∧ ∀ T, eval (Get cpp_type_of t' T (K "car")) h' = Ok None.
Proof.
  split_and!; [exact scene3_wf|exact scene3_root|].
  exact (Remove_Get_null cpp_type_of _ _ (K "car") _ scene3_wf scene3_root).
Defined.

Lemma Remove_leaves_receiver_witness :
  wf scene3.2 scene3.1 ∧ root_ scene3.1 = Some 9%positive
  ∧ ∃ t' h', run (Remove scene3.1 (K "car")) scene3.2 = Ok (t', h')
             ∧ (∀ a n, scene3.2 !! a = Some n → h' !! a = Some n)
             ∧ (∀ T k', eval (Get cpp_type_of scene3.1 T k') h'
                        = eval (Get cpp_type_of scene3.1 T k') scene3.2).
Proof.
  split_and!; [exact scene3_wf|exact scene3_root|].
  exact (Remove_leaves_receiver cpp_type_of _ _ (K "car") _ scene3_wf scene3_root).
Defined.

Lemma Remove_same_trie_iff_witness :
  wf scene3.2 scene3.1 ∧ root_ scene3.1 = Some 9%positive
  ∧ ∃ t' h', run (Remove scene3.1 (K "ca")) scene3.2 = Ok (t', h')
             ∧ (t' = scene3.1 ↔ ¬ has_key scene3.2 scene3.1 (K "ca"))
             ∧ (¬ has_key scene3.2 scene3.1 (K "ca") → h' = scene3.2).
Proof.
  split_and!; [exact scene3_wf|exact scene3_root|].
  exact (Remove_same_trie_iff cpp_type_of _ _ (K "ca") _ scene3_wf scene3_root).
Defined.

Lemma Put_keeps_invariants_witness :
  wf scene3.2 scene3.1
  ∧ ∃ t' h', run (Put scene3.1 (K "dog") (Str "d")) scene3.2 = Ok (t', h')
             ∧ closed h' ∧ (∃ r', root_ t' = Some r' ∧ is_Some (h' !! r'))
             ∧ (no_dead scene3.2 scene3.1 → no_dead h' t').
Proof.
  split; [exact scene3_wf|].
  exact (Put_keeps_invariants cpp_type_of _ _ (K "dog") (Str "d") scene3_wf).
Defined.

Lemma Put_overwrites_witness :
  wf scene3.2 scene3.1
  ∧ ∃ t1 h1 t2 h2 t3 h3,
      run (Put scene3.1 (K "car") (U64 8)) scene3.2 = Ok (t1, h1)
      ∧ run (Put t1 (K "car") (Str "two")) h1 = Ok (t2, h2)
      ∧ run (Put scene3.1 (K "car") (Str "two")) scene3.2 = Ok (t3, h3)
      ∧ ∀ T k', eval (Get cpp_type_of t2 T k') h2 = eval (Get cpp_type_of t3 T k') h3.
Proof.
  split; [exact scene3_wf|].
  exact (Put_overwrites cpp_type_of _ _ (K "car") (U64 8) (Str "two") scene3_wf).
Defined.

Lemma Put_commutes_witness :
  wf scene3.2 scene3.1 ∧ K "ca" ≠ K "dog"
  ∧ ∃ ta ha tab hab tb hb tba hba,
      run (Put scene3.1 (K "ca") (U32 4)) scene3.2 = Ok (ta, ha)
      ∧ run (Put ta (K "dog") (Str "d")) ha = Ok (tab, hab)
      ∧ run (Put scene3.1 (K "dog") (Str "d")) scene3.2 = Ok (tb, hb)
      ∧ run (Put tb (K "ca") (U32 4)) hb = Ok (tba, hba)
      ∧ ∀ T k', eval (Get cpp_type_of tab T k') hab
                = eval (Get cpp_type_of tba T k') hba.
Proof.
  assert (Hne : K "ca" ≠ K "dog") by discriminate.
  split_and!; [exact scene3_wf|exact Hne|].
  exact (Put_commutes cpp_type_of _ _ (K "ca") (U32 4) (K "dog") (Str "d")
           scene3_wf Hne).
Defined.

Lemma Put_Remove_undo_witness :
  wf scene3.2 scene3.1 ∧ ¬ has_key scene3.2 scene3.1 (K "ca")
  ∧ ∃ t1 h1 t2 h2,
      run (Put scene3.1 (K "ca") (U32 4)) scene3.2 = Ok (t1, h1)
      ∧ run (Remove t1 (K "ca")) h1 = Ok (t2, h2)
      ∧ ∀ T k', eval (Get cpp_type_of t2 T k') h2
                = eval (Get cpp_type_of scene3.1 T k') scene3.2.
Proof.
  split_and!; [exact scene3_wf|exact scene3_no_ca|].
  exact (Put_Remove_undo cpp_type_of _ _ (K "ca") (U32 4) scene3_wf scene3_no_ca).
Defined.

Lemma Remove_twice_witness :
  wf scene3.2 scene3.1 ∧ root_ scene3.1 = Some 9%positive
  ∧ ∃ t' h', run (Remove scene3.1 (K "car")) scene3.2 = Ok (t', h')
             ∧ run (Remove t' (K "car")) h'
               = match root_ t' with
                 | Some _ => Ok (t', h')
                 | None => Fault NullDereference
                 end.
Proof.
  split_and!; [exact scene3_wf|exact scene3_root|].
  exact (Remove_twice cpp_type_of _ _ (K "car") _ scene3_wf scene3_root).
Defined.

Lemma Remove_stack_never_empty_witness :
  run (Remove (@empty_trie) (K "a")) (∅ : gmap positive (@TrieNode cpp_value))
  = Fault NullDereference
  ∧ (NullDereference = NullDereference ∨ ∃ a, NullDereference = Dangling a).
Proof.
  assert (Hrun : run (Remove (@empty_trie) (K "a"))
                     (∅ : gmap positive (@TrieNode cpp_value))
                 = Fault NullDereference) by reflexivity.
  split; [exact Hrun|].
  exact (Remove_stack_never_empty ∅ empty_trie (K "a") NullDereference Hrun).
Defined.

Lemma Put_allocates_witness :
  wf scene3.2 scene3.1
  ∧ ∃ t' h', run (Put scene3.1 (K "cart") (Str "c")) scene3.2 = Ok (t', h')
             ∧ size h' = size scene3.2 + length (K "cart") + 1.
Proof.
  split; [exact scene3_wf|].
  exact (Put_allocates _ _ (K "cart") (Str "c") scene3_wf).
Defined.

Lemma Put_copies_path_witness :
  wf scene3.2 scene3.1
  ∧ ∃ t' h', run (Put scene3.1 (K "car") (Str "two")) scene3.2 = Ok (t', h')
      ∧ (∀ p, p `prefix_of` K "car" →
              ∃ a, node_below h' (root_ t') p = Some a ∧ scene3.2 !! a = None)
      ∧ (∀ k', ¬ k' `prefix_of` K "car" →
               node_below h' (root_ t') k' = node_below scene3.2 (root_ scene3.1) k').
Proof.
  split; [exact scene3_wf|].
  exact (Put_copies_path _ _ (K "car") (Str "two") scene3_wf).
Defined.

Lemma Put_Remove_empty_witness :
  closed scene3.2
  ∧ ∃ t1 h1 h2, run (Put empty_trie (K "ab") (U64 7)) scene3.2 = Ok (t1, h1)
                ∧ run (Remove t1 (K "ab")) h1 = Ok (empty_trie, h2).
Proof.
  split; [exact scene3_closed|].
  exact (Put_Remove_empty cpp_type_of _ (K "ab") (U64 7) scene3_closed).
Defined.

Lemma Remove_copies_path_witness :
  wf scene3.2 scene3.1 ∧ root_ scene3.1 = Some 9%positive
  ∧ has_key scene3.2 scene3.1 (K "car")
  ∧ ∃ t' h', run (Remove scene3.1 (K "car")) scene3.2 = Ok (t', h')
      ∧ (∀ p x, p `prefix_of` K "car" → node_below h' (root_ t') p = Some x →
                scene3.2 !! x = None)
      ∧ (∀ k', ¬ k' `prefix_of` K "car" →
               node_below h' (root_ t') k' = node_below scene3.2 (root_ scene3.1) k').
Proof.
  split_and!; [exact scene3_wf|exact scene3_root|exact scene3_has_car|].
  exact (Remove_copies_path cpp_type_of _ _ (K "car") _ scene3_wf scene3_root
           scene3_has_car).
Defined.

Lemma Remove_allocates_at_most_witness :
  wf scene3.2 scene3.1 ∧ root_ scene3.1 = Some 9%positive
  ∧ ∃ t' h', run (Remove scene3.1 (K "car")) scene3.2 = Ok (t', h')
             ∧ size h' ≤ size scene3.2 + length (K "car") + 1.
Proof.
  split_and!; [exact scene3_wf|exact scene3_root|].
  exact (Remove_allocates_at_most cpp_type_of _ _ (K "car") _ scene3_wf scene3_root).
Defined.

Lemma TrieStore_no_lost_update_witness :
  in_some_run cpp_type_of scene_store
  ∧ versions scene_store !! 0 = Some (empty_trie, ∅)
  ∧ ∀ n t hp t' hp',
      versions scene_store !! n = Some (t, hp) →
      versions scene_store !! S n = Some (t', hp') →
      ∃ h0, hp ⊆ h0 ∧ closed h0
            ∧ ((∃ k v, run (Put t k v) h0 = Ok (t', hp'))
               ∨ (∃ k, run (Remove t k) h0 = Ok (t', hp'))).
Proof.
  split; [exact scene_store_runs|].
  exact (TrieStore_no_lost_update cpp_type_of _ scene_store_runs).
Defined.

Lemma TrieStore_root_lock_is_short_witness :
  in_some_run cpp_type_of scene_locked ∧ root_lock_ scene_locked = Some 0
  ∧ ∃ th, threads scene_locked !! 0 = Some th
          ∧ at_ th ∈ [G29; G31; W55; W57; W63; W65]
          ∧ is_Some (step cpp_type_of 0 scene_locked).
Proof.
  assert (Hrun : in_some_run cpp_type_of scene_locked)
    by (exists schedule_locked; reflexivity).
  assert (Hl : root_lock_ scene_locked = Some 0) by (vm_compute; reflexivity).
  split_and!; [exact Hrun|exact Hl|].
  exact (TrieStore_root_lock_is_short cpp_type_of _ 0 Hrun Hl).
Defined.

Lemma TrieStore_locks_free_at_rest_witness :
  in_some_run cpp_type_of scene_store
  ∧ (∀ i th, threads scene_store !! i = Some th → at_ th = Returned)
  ∧ (write_lock_ scene_store = None ∧ root_lock_ scene_store = None).
Proof.
  assert (Hall : ∀ i th, threads scene_store !! i = Some th → at_ th = Returned).
  { apply Forall_lookup. vm_compute. repeat constructor. }
  split; [exact scene_store_runs|]. split; [exact Hall|].
  exact (TrieStore_locks_free_at_rest cpp_type_of _ scene_store_runs Hall).
Defined.

(** In [scene_later] the store reads 9 under "ac", and thread 3 holds the
    value 6 it returned before that write. *)
Example scene_later_overwritten :
  eval (Get cpp_type_of (store_root_ scene_later) uint32_t (K "ac")) (heap scene_later)
  = Ok (Some (U32 9))
  ∧ (pValue <$> threads scene_later !! 3) = Some (Some (Some (U32 6)))
  ∧ ((λ th, at_ th) <$> threads scene_later)
    = [Returned; Returned; Returned; Returned; Returned].
Proof. vm_compute. done. Qed.

Lemma TrieStore_returned_value_stays_witness :
  in_some_run cpp_type_of scene_later
  ∧ threads scene_later !! 3 = Some reader3 ∧ pValue reader3 = Some (Some (U32 6))
  ∧ ∃ T k, op reader3 = CallGet T k
           ∧ eval (Get cpp_type_of (root reader3) T k) (heap scene_later)
             = Ok (Some (U32 6)).
Proof.
  assert (Hrun : in_some_run cpp_type_of scene_later)
    by (exists schedule_later; reflexivity).
  assert (Hth : threads scene_later !! 3 = Some reader3) by (vm_compute; reflexivity).
  split_and!; [exact Hrun|exact Hth|reflexivity|].
  exact (TrieStore_returned_value_stays cpp_type_of _ 3 reader3 (Some (U32 6))
           Hrun Hth eq_refl).
Defined.

Lemma TrieStore_no_deadlock_witness :
  in_some_run cpp_type_of scene_mid
  ∧ (∃ i th, threads scene_mid !! i = Some th ∧ at_ th ≠ Returned)
  ∧ ((∃ j, is_Some (step cpp_type_of j scene_mid))
     ∨ (∃ j th k, threads scene_mid !! j = Some th ∧ at_ th = W59call
                  ∧ op th = CallRemove k ∧ store_root_ scene_mid = empty_trie)).
Proof.
  assert (Hbusy : ∃ i th, threads scene_mid !! i = Some th ∧ at_ th ≠ Returned).
  { exists 1. eexists. split; [vm_compute; reflexivity|discriminate]. }
  split_and!; [exact scene_mid_runs|exact Hbusy|].
  exact (TrieStore_no_deadlock cpp_type_of _ scene_mid_runs Hbusy).
Defined.

Lemma TrieStore_Put_alone_witness :
  in_some_run cpp_type_of scene_store
  ∧ write_lock_ scene_store = None ∧ root_lock_ scene_store = None
  ∧ ∃ n t' h',
      run (Put (store_root_ scene_store) (K "b") (U32 7)) (heap scene_store) = Ok (t', h')
      ∧ run_store cpp_type_of
          (Enter (CallPut (K "b") (U32 7))
           :: replicate n (Run (length (threads scene_store)))) scene_store
        = mkStore h' t' None None
            (threads scene_store
             ++ [mkThread (CallPut (K "b") (U32 7)) Returned t' (Done None) (Done t') None
                          (length (versions scene_store) - 1)])
            (versions scene_store ++ [(t', h')]).
Proof.
  split_and!; [exact scene_store_runs|exact (proj1 scene_store_free)
              |exact (proj2 scene_store_free)|].
  exact (TrieStore_Put_alone cpp_type_of _ (K "b") (U32 7) scene_store_runs
           (proj1 scene_store_free) (proj2 scene_store_free)).
Defined.

Lemma TrieStore_Remove_alone_witness :
  in_some_run cpp_type_of scene_store
  ∧ write_lock_ scene_store = None ∧ root_lock_ scene_store = None
  ∧ root_ (store_root_ scene_store) = Some 4%positive
  ∧ ∃ n t' h',
      run (Remove (store_root_ scene_store) (K "ab")) (heap scene_store) = Ok (t', h')
      ∧ run_store cpp_type_of
          (Enter (CallRemove (K "ab"))
           :: replicate n (Run (length (threads scene_store)))) scene_store
        = mkStore h' t' None None
            (threads scene_store
             ++ [mkThread (CallRemove (K "ab")) Returned t' (Done None) (Done t') None
                          (length (versions scene_store) - 1)])
            (versions scene_store ++ [(t', h')]).
Proof.
  assert (Hroot : root_ (store_root_ scene_store) = Some 4%positive)
    by (vm_compute; reflexivity).
  split_and!; [exact scene_store_runs|exact (proj1 scene_store_free)
              |exact (proj2 scene_store_free)|exact Hroot|].
  exact (TrieStore_Remove_alone cpp_type_of _ (K "ab") _ scene_store_runs
           (proj1 scene_store_free) (proj2 scene_store_free) Hroot).
Defined.

Lemma TrieStore_Get_alone_witness :
  in_some_run cpp_type_of scene_mid ∧ root_lock_ scene_mid = None
  ∧ ∃ n res,
      eval (Get cpp_type_of (store_root_ scene_mid) uint32_t (K "ab")) (heap scene_mid)
      = Ok res
      ∧ run_store cpp_type_of
          (Enter (CallGet uint32_t (K "ab"))
           :: replicate n (Run (length (threads scene_mid)))) scene_mid
        = mkStore (heap scene_mid) (store_root_ scene_mid) None (write_lock_ scene_mid)
            (threads scene_mid
             ++ [mkThread (CallGet uint32_t (K "ab")) Returned (store_root_ scene_mid)
                          (Done res) (Done empty_trie) (Some res)
                          (length (versions scene_mid) - 1)])
            (versions scene_mid).
Proof.
  assert (Hl : root_lock_ scene_mid = None) by (vm_compute; reflexivity).
  split_and!; [exact scene_mid_runs|exact Hl|].
  exact (TrieStore_Get_alone cpp_type_of _ uint32_t (K "ab") scene_mid_runs Hl).
Defined.

Lemma TrieStore_Put_then_Get_witness :
  in_some_run cpp_type_of scene_store
  ∧ write_lock_ scene_store = None ∧ root_lock_ scene_store = None
  ∧ ∃ n m,
      let i := length (threads scene_store) in
      let s' := run_store cpp_type_of
                  (Enter (CallPut (K "b") (U32 7)) :: replicate n (Run i)
                   ++ Enter (CallGet (cpp_type_of (U32 7)) (K "b"))
                      :: replicate m (Run (S i))) scene_store in
      (pValue <$> threads s' !! S i) = Some (Some (Some (U32 7))).
Proof.
  split_and!; [exact scene_store_runs|exact (proj1 scene_store_free)
              |exact (proj2 scene_store_free)|].
  exact (TrieStore_Put_then_Get cpp_type_of _ (K "b") (U32 7) scene_store_runs
           (proj1 scene_store_free) (proj2 scene_store_free)).
Defined.

Lemma TrieStore_versions_pruned_witness :
  in_some_run cpp_type_of scene_store
  ∧ versions scene_store !! 2 = Some (store_root_ scene_store, heap scene_store)
  ∧ (wf (heap scene_store) (store_root_ scene_store)
     ∧ no_dead (heap scene_store) (store_root_ scene_store)).
Proof.
  assert (Hv : versions scene_store !! 2
               = Some (store_root_ scene_store, heap scene_store))
    by (vm_compute; reflexivity).
  split; [exact scene_store_runs|]. split; [exact Hv|].
  exact (TrieStore_versions_pruned cpp_type_of scene_store 2 (store_root_ scene_store)
           (heap scene_store) scene_store_runs Hv).
Defined.

Lemma Put_Remove_commute_witness :
  wf scene3.2 scene3.1 ∧ root_ scene3.1 = Some 9%positive ∧ K "dog" ≠ K "car"
  ∧ ∃ ta ha tab hab tb hb tba hba,
      run (Put scene3.1 (K "dog") (Str "d")) scene3.2 = Ok (ta, ha)
      ∧ run (Remove ta (K "car")) ha = Ok (tab, hab)
      ∧ run (Remove scene3.1 (K "car")) scene3.2 = Ok (tb, hb)
      ∧ run (Put tb (K "dog") (Str "d")) hb = Ok (tba, hba)
      ∧ ∀ T k', eval (Get cpp_type_of tab T k') hab
                = eval (Get cpp_type_of tba T k') hba.
Proof.
  assert (Hne : K "dog" ≠ K "car") by discriminate.
  split_and!; [exact scene3_wf|exact scene3_root|exact Hne|].
  exact (Put_Remove_commute cpp_type_of _ _ (K "dog") (Str "d") (K "car") _
           scene3_wf scene3_root Hne).
Defined.
